(** * Substring search (search.py): a shallow embedding and its verification

    The Python module implements five string matchers (Knuth-Morris-Pratt,
    Boyer-Moore with the bad-character rule, Boyer-Moore-Horspool,
    Rabin-Karp and Aho-Corasick) and a dispatcher [search].  Python integers
    are modelled by [Z], strings by lists of characters over an abstract
    alphabet, dictionaries by insertion-ordered association lists, and the
    exceptions a subscript can raise by an explicit result type.  A [while]
    loop of the model runs on an iteration budget computed from its input;
    the proofs show that the budget suffices.

    The file has three parts: the program, the notions in which its
    properties are stated, and the proofs. *)

From Stdlib Require Import ZArith Lia Ascii String.
From stdpp Require Import base tactics option list list_numbers sets sorting strings pretty.
Local Open Scope Z_scope.

(** ** Python run-time model *)

(** What evaluating a Python expression can do: return a value, raise, or
    (for a [while] loop of the model) exhaust the iteration budget. *)
Inductive exn := IndexError | KeyError.

Inductive py (A : Type) : Type :=
  | Ret (a : A)
  | Raise (e : exn)
  | OutOfFuel.
Arguments Ret {A} a.
Arguments Raise {A} e.
Arguments OutOfFuel {A}.

Definition py_bind {A B} (f : A → py B) (m : py A) : py B :=
  match m with
  | Ret a => f a
  | Raise e => Raise e
  | OutOfFuel => OutOfFuel
  end.

#[global] Instance py_ret : MRet py := @Ret.
#[global] Instance py_mbind : MBind py := @py_bind.

(** [while cond: body], with an iteration budget. *)
Fixpoint while {S} (fuel : nat) (cond : S → py bool) (body : S → py S)
    (s : S) : py S :=
  match fuel with
  | O => OutOfFuel
  | Datatypes.S fuel =>
      b ← cond s;
      if b : bool then s' ← body s; while fuel cond body s' else Ret s
  end.

(** [for x in l: body]. *)
Fixpoint for_each {A S} (l : list A) (body : S → A → py S) (s : S) : py S :=
  match l with
  | [] => Ret s
  | x :: l => s' ← body s x; for_each l body s'
  end.

(** [len(l)] *)
Definition len {A} (l : list A) : Z := Z.of_nat (length l).

(** A Python subscript: negative indices count from the end. *)
Definition norm_index {A} (l : list A) (i : Z) : Z :=
  if decide (i < 0) then i + len l else i.

(** [l[i]] *)
Definition getitem {A} (l : list A) (i : Z) : py A :=
  let i := norm_index l i in
  if decide (0 ≤ i) then
    match l !! Z.to_nat i with
    | Some x => Ret x
    | None => Raise IndexError
    end
  else Raise IndexError.

(** [l[i] = x] *)
Definition setitem {A} (l : list A) (i : Z) (x : A) : py (list A) :=
  let i := norm_index l i in
  if decide (0 ≤ i < len l) then Ret (<[Z.to_nat i := x]> l)
  else Raise IndexError.

(** A slice bound is clamped into [0, len(l)]. *)
Definition clamp_index {A} (l : list A) (i : Z) : Z :=
  if decide (i < 0) then Z.max 0 (i + len l) else Z.min i (len l).

(** [l[lo:hi]] *)
Definition slice {A} (l : list A) (lo hi : Z) : list A :=
  let lo := clamp_index l lo in
  let hi := clamp_index l hi in
  take (Z.to_nat (hi - lo)) (drop (Z.to_nat lo) l).

(** [l[:hi]] *)
Definition slice_to {A} (l : list A) (hi : Z) : list A :=
  take (Z.to_nat (clamp_index l hi)) l.

(** [range(n)] *)
Definition range (n : Z) : list Z := seqZ 0 n.

(** [enumerate(l)] *)
Definition enumerate {A} (l : list A) : list (Z * A) := zip (seqZ 0 (len l)) l.

(** ** Dictionaries

    A Python [dict] keeps its keys in insertion order; assigning to a key
    that is present replaces the value in place. *)
Abbreviation dict K V := (list (K * V)).

Section dict.
Context {K V : Type} `{EqDecision K}.

(** [d.get(k)] *)
Fixpoint dict_get (k : K) (d : dict K V) : option V :=
  match d with
  | [] => None
  | (k', v) :: d => if decide (k = k') then Some v else dict_get k d
  end.

(** [k in d] *)
Definition dict_mem (k : K) (d : dict K V) : bool :=
  match dict_get k d with Some _ => true | None => false end.

(** [d[k]] *)
Definition dict_getitem (k : K) (d : dict K V) : py V :=
  match dict_get k d with Some v => Ret v | None => Raise KeyError end.

(** [d[k] = v] *)
Fixpoint dict_set (k : K) (v : V) (d : dict K V) : dict K V :=
  match d with
  | [] => [(k, v)]
  | (k', v') :: d =>
      if decide (k = k') then (k, v) :: d else (k', v') :: dict_set k v d
  end.

(** [d.get(k, default)] *)
Definition dict_get_default (k : K) (default : V) (d : dict K V) : V :=
  match dict_get k d with Some v => v | None => default end.
End dict.

(** ** Characters

    What the program needs from Python's [str]: equality of characters,
    [ord], and [str.lower], which maps a string to a string (in Unicode it
    need not work character by character), maps the empty string to itself
    and never maps a non-empty string to the empty one. *)
Class Alphabet (char : Type) := {
  char_eq_dec :: EqDecision char;
  ord : char → Z;
  lower : list char → list char;
  lower_nil : lower [] = [];
  lower_nonempty : ∀ s : list char, s ≠ [] → lower s ≠ []
}.

(** The order in which a Python [set] is iterated is unspecified: it is some
    enumeration of the elements. *)
Class SetOrder (char : Type) := {
  set_order : list char → list char;
  set_order_perm : ∀ l : list char, set_order l ≡ₚ l
}.

Section program.
Context {char : Type} `{!Alphabet char, !SetOrder char}.

Abbreviation str := (list char).

(** [for x in set(l)] *)
Definition set_iter (l : list char) : list char := set_order (remove_dups l).

(** *** Knuth-Morris-Pratt *)

Definition compute_lps_body (pattern : str) (st : Z * Z * list Z)
    : py (Z * Z * list Z) :=
  let '(length, i, lps) := st in
  pi ← getitem pattern i;
  pl ← getitem pattern length;
  if decide (pi = pl) then
    let length := length + 1 in
    lps ← setitem lps i length;
    Ret (length, i + 1, lps)
  else if decide (length ≠ 0) then
    length ← getitem lps (length - 1);
    Ret (length, i, lps)
  else
    lps ← setitem lps i 0;
    Ret (length, i + 1, lps).

Definition compute_lps (pattern : str) : py (list Z) :=
  let length := 0 in
  let lps := replicate (Z.to_nat (len pattern)) 0 in
  let i := 1 in
  '(_, _, lps) ← while (2 * List.length pattern + 1)
      (λ '(_, i, _), Ret (bool_decide (i < len pattern)))
      (compute_lps_body pattern)
      (length, i, lps);
  Ret lps.

Definition kmp_body (text pattern : str) (lps : list Z) (st : Z * Z * list Z)
    : py (Z * Z * list Z) :=
  let '(i, j, matches) := st in
  pj ← getitem pattern j;
  ti ← getitem text i;
  let '(i, j) := if decide (pj = ti) then (i + 1, j + 1) else (i, j) in
  if decide (j = len pattern) then
    let matches := matches ++ [i - j] in
    j ← getitem lps (j - 1);
    Ret (i, j, matches)
  else if decide (i < len text) then
    pj ← getitem pattern j;
    ti ← getitem text i;
    if decide (pj ≠ ti) then
      if decide (j ≠ 0) then
        j ← getitem lps (j - 1);
        Ret (i, j, matches)
      else Ret (i + 1, j, matches)
    else Ret (i, j, matches)
  else Ret (i, j, matches).

Definition kmp_search (text pattern : str) : py (list Z) :=
  if decide (pattern = []) then Ret []
  else
    lps ← compute_lps pattern;
    '(_, _, matches) ← while (2 * List.length text + 1)
        (λ '(i, _, _), Ret (bool_decide (i < len text)))
        (kmp_body text pattern lps)
        (0, 0, []);
    Ret matches.

(** *** Boyer-Moore, bad-character rule *)

Definition bad_char_table (pattern : str) : py (dict char Z) :=
  for_each (range (len pattern))
    (λ table i, c ← getitem pattern i; Ret (dict_set c i table)) [].

(** [while j >= 0 and pattern[j] == text[shift + j]: j -= 1] *)
Definition compare_backwards (text pattern : str) (shift : Z) (j : Z) : py Z :=
  while (S (List.length pattern))
    (λ j, if decide (j >= 0) then
            pj ← getitem pattern j;
            tj ← getitem text (shift + j);
            Ret (bool_decide (pj = tj))
          else Ret false)
    (λ j, Ret (j - 1))
    j.

Definition boyer_moore_body (text pattern : str) (bad_char : dict char Z)
    (st : Z * list Z) : py (Z * list Z) :=
  let '(shift, matches) := st in
  j ← compare_backwards text pattern shift (len pattern - 1);
  if decide (j < 0) then Ret (shift + 1, matches ++ [shift])
  else
    c ← getitem text (shift + j);
    Ret (shift + Z.max 1 (j - dict_get_default c (-1) bad_char), matches).

Definition boyer_moore_search (text pattern : str) : py (list Z) :=
  if decide (pattern = []) then Ret []
  else
    bad_char ← bad_char_table pattern;
    '(_, matches) ← while (S (List.length text))
        (λ '(shift, _), Ret (bool_decide (shift ≤ len text - len pattern)))
        (boyer_moore_body text pattern bad_char)
        (0, []);
    Ret matches.

(** *** Boyer-Moore-Horspool *)

Definition horspool_skip_table (pattern : str) : py (dict char Z) :=
  for_each (range (len pattern - 1))
    (λ skip i, c ← getitem pattern i;
               Ret (dict_set c (len pattern - i - 1) skip)) [].

(** [while j >= 0 and text[i + j] == pattern[j]: j -= 1] *)
Definition horspool_compare (text pattern : str) (i : Z) (j : Z) : py Z :=
  while (S (List.length pattern))
    (λ j, if decide (j >= 0) then
            tj ← getitem text (i + j);
            pj ← getitem pattern j;
            Ret (bool_decide (tj = pj))
          else Ret false)
    (λ j, Ret (j - 1))
    j.

Definition horspool_body (text pattern : str) (skip : dict char Z)
    (st : Z * list Z) : py (Z * list Z) :=
  let '(i, matches) := st in
  j ← horspool_compare text pattern i (len pattern - 1);
  if decide (j < 0) then Ret (i + 1, matches ++ [i])
  else
    c ← getitem text (i + len pattern - 1);
    Ret (i + dict_get_default c (len pattern) skip, matches).

Definition boyer_moore_horspool_search (text pattern : str) : py (list Z) :=
  if decide (pattern = []) then Ret []
  else
    skip ← horspool_skip_table pattern;
    '(_, matches) ← while (S (List.length text))
        (λ '(i, _), Ret (bool_decide (i ≤ len text - len pattern)))
        (horspool_body text pattern skip)
        (0, []);
    Ret matches.

(** *** Aho-Corasick *)

Record AhoCorasick := {
  goto : dict (Z * char) Z;
  fail : dict Z Z;
  output : dict Z (list str)
}.

(** [AhoCorasick()] *)
Definition ac_init : AhoCorasick := {| goto := []; fail := []; output := [] |}.

(** One character of a pattern entering the trie (the body of
    [for char in pattern]). *)
Definition trie_step (st : dict (Z * char) Z * Z) (c : char)
    : py (dict (Z * char) Z * Z) :=
  let '(goto, current_state) := st in
  let goto :=
    if dict_mem (current_state, c) goto then goto
    else let new_state := len goto + 1 in
         dict_set (current_state, c) new_state goto in
  current_state ← dict_getitem (current_state, c) goto;
  Ret (goto, current_state).

(** [output[state].append(pattern)], creating the list when absent. *)
Definition output_append (state : Z) (pattern : str)
    (output : dict Z (list str)) : py (dict Z (list str)) :=
  let output := if dict_mem state output then output
                else dict_set state [] output in
  l ← dict_getitem state output;
  Ret (dict_set state (l ++ [pattern]) output).

(** The body of [for pattern in patterns] in [build_automaton]. *)
Definition insert_pattern (st : dict (Z * char) Z * dict Z (list str))
    (pattern : str) : py (dict (Z * char) Z * dict Z (list str)) :=
  let '(goto, output) := st in
  '(goto, current_state) ← for_each pattern trie_step (goto, 0);
  output ← output_append current_state pattern output;
  Ret (goto, output).

(** [set(char for (state, char) in goto.keys() if state == r)] *)
Definition children (goto : dict (Z * char) Z) (r : Z) : list char :=
  set_iter (omap (λ '((state, c), _),
                    if decide (state = r) then Some c else None) goto).

(** [while state != 0 and (state, char) not in goto: state = fail[state]] *)
Definition follow_fail (goto : dict (Z * char) Z) (fail : dict Z Z)
    (c : char) (state : Z) : py Z :=
  while (S (List.length goto))
    (λ state, Ret (bool_decide (state ≠ 0) && negb (dict_mem (state, c) goto)))
    (λ state, dict_getitem state fail)
    state.

(** The body of [for char in set(...)] in the breadth-first loop. *)
Definition bfs_child (goto : dict (Z * char) Z) (r : Z)
    (st : list Z * dict Z Z * dict Z (list str)) (c : char)
    : py (list Z * dict Z Z * dict Z (list str)) :=
  let '(queue, fail, output) := st in
  u ← dict_getitem (r, c) goto;
  let queue := queue ++ [u] in
  state ← dict_getitem r fail;
  state ← follow_fail goto fail c state;
  fail ← (if dict_mem (state, c) goto then
            f ← dict_getitem (state, c) goto; Ret (dict_set u f fail)
          else Ret (dict_set u 0 fail));
  fu ← dict_getitem u fail;
  if dict_mem fu output then
    let output := if dict_mem u output then output
                  else dict_set u [] output in
    lu ← dict_getitem u output;
    fu ← dict_getitem u fail;
    lf ← dict_getitem fu output;
    Ret (queue, fail, dict_set u (lu ++ lf) output)
  else Ret (queue, fail, output).

(** The body of [while queue]. *)
Definition bfs_body (goto : dict (Z * char) Z)
    (st : list Z * dict Z Z * dict Z (list str))
    : py (list Z * dict Z Z * dict Z (list str)) :=
  let '(queue, fail, output) := st in
  match queue with
  | [] => Raise IndexError
  | r :: queue => for_each (children goto r) (bfs_child goto r) (queue, fail, output)
  end.

Definition build_automaton (self : AhoCorasick) (patterns : list str)
    : py AhoCorasick :=
  '(goto, output) ← for_each patterns insert_pattern (goto self, output self);
  '(queue, fail) ← for_each (children goto 0)
      (λ '(queue, fail) c,
         state ← dict_getitem (0, c) goto;
         Ret (queue ++ [state], dict_set state 0 fail))
      ([], fail self);
  '(_, fail, output) ← while (S (List.length goto))
      (λ '(queue, _, _), Ret (bool_decide (queue ≠ [])))
      (bfs_body goto)
      (queue, fail, output);
  Ret {| goto := goto; fail := fail; output := output |}.

(** [result[pattern].append(i - len(pattern) + 1)], creating the list when
    absent (the body of [for pattern in output[state]]). *)
Definition record_match (i : Z) (result : dict str (list Z)) (pattern : str)
    : py (dict str (list Z)) :=
  let result := if dict_mem pattern result then result
                else dict_set pattern [] result in
  l ← dict_getitem pattern result;
  Ret (dict_set pattern (l ++ [i - len pattern + 1]) result).

(** The body of [for i, char in enumerate(text)]. *)
Definition ac_step (self : AhoCorasick) (st : dict str (list Z) * Z)
    (ic : Z * char) : py (dict str (list Z) * Z) :=
  let '(result, state) := st in
  let '(i, c) := ic in
  state ← follow_fail (goto self) (fail self) c state;
  state ← (if dict_mem (state, c) (goto self)
           then dict_getitem (state, c) (goto self) else Ret state);
  if dict_mem state (output self) then
    l ← dict_getitem state (output self);
    result ← for_each l (record_match i) result;
    Ret (result, state)
  else Ret (result, state).

Definition ac_search (self : AhoCorasick) (text : str)
    : py (dict str (list Z)) :=
  '(result, _) ← for_each (enumerate text) (ac_step self) ([], 0);
  Ret result.

(** *** Rabin-Karp *)

Definition rolling_hash (s : str) (base modulus : Z) : Z :=
  foldl (λ hash_value c, (hash_value * base + ord c) `mod` modulus) 0 s.

Definition rabin_karp_body (text pattern : str) (base modulus h pattern_hash : Z)
    (st : Z * list Z) (i : Z) : py (Z * list Z) :=
  let '(text_hash, matches) := st in
  let pattern_len := len pattern in
  let text_len := len text in
  let matches :=
    if decide (pattern_hash = text_hash) then
      if decide (slice text i (i + pattern_len) = pattern)
      then matches ++ [i] else matches
    else matches in
  if decide (i < text_len - pattern_len) then
    ti ← getitem text i;
    let text_hash := (text_hash - ord ti * h) `mod` modulus in
    tn ← getitem text (i + pattern_len);
    let text_hash := (text_hash * base + ord tn) `mod` modulus in
    let text_hash := (text_hash + modulus) `mod` modulus in
    Ret (text_hash, matches)
  else Ret (text_hash, matches).

Definition rabin_karp_search (text pattern : str) : py (list Z) :=
  if decide (pattern = []) then Ret []
  else
    let base := 256 in
    let modulus := 101 in
    let pattern_len := len pattern in
    let text_len := len text in
    if decide (pattern_len > text_len) then Ret []
    else
      let pattern_hash := rolling_hash pattern base modulus in
      let text_hash := rolling_hash (slice_to text pattern_len) base modulus in
      let h := (base ^ (pattern_len - 1)) `mod` modulus in
      '(_, matches) ← for_each (range (text_len - pattern_len + 1))
          (rabin_karp_body text pattern base modulus h pattern_hash)
          (text_hash, []);
      Ret matches.

(** *** The dispatcher *)

(** [sub_string: Union[str, List[str]]] *)
Inductive sub_strings :=
  | Single (sub_string : str)
  | Multi (sub_string : list str).

(** The value returned under [Optional]: a tuple of positions, or a
    dictionary from pattern to a tuple or [None]. *)
Inductive found :=
  | Positions (t : list Z)
  | Mapping (d : dict str (option (list Z))).

(** [s if case_sensitivity else s.lower()] *)
Definition fold_case (case_sensitivity : bool) (s : str) : str :=
  if case_sensitivity then s else lower s.

(** [[p if case_sensitivity else p.lower() for p in sub_string if p]] *)
Definition fold_patterns (case_sensitivity : bool) (sub_string : list str)
    : list str :=
  fold_case case_sensitivity <$> filter (λ p, p ≠ []) sub_string.

(** [l[::-1]] when [method == 'last'] *)
Definition apply_method {A} (method : string) (l : list A) : list A :=
  if decide (method = "last"%string) then reverse l else l.

(** [l[:count]] when [count is not None] *)
Definition apply_count {A} (count : option Z) (l : list A) : list A :=
  match count with
  | Some count => slice_to l count
  | None => l
  end.

(** [tuple(matches) if matches else None] *)
Definition tuple_or_none (matches : list Z) : option (list Z) :=
  match matches with [] => None | _ => Some matches end.

(** [all_results.sort(key=lambda x: x[0])]: Python's sort is stable, which
    determines its result; it is the result of a stable insertion sort. *)
Fixpoint insert_by_pos (x : Z * str) (l : list (Z * str)) : list (Z * str) :=
  match l with
  | [] => [x]
  | y :: l' => if decide (x.1 ≤ y.1) then x :: l else y :: insert_by_pos x l'
  end.

Definition sort_by_pos (l : list (Z * str)) : list (Z * str) :=
  foldr insert_by_pos [] l.

(** The (position, pattern) pairs of the automaton's result, in the order
    of [all_matches.items()]. *)
Definition collect_results (all_matches : dict str (list Z)) : list (Z * str) :=
  mbind (M := list) (λ '(pattern, positions), (λ pos, (pos, pattern)) <$> positions)
        all_matches.

(** [[pos for pos, p in all_results if p == pattern]] *)
Definition positions_of (pattern : str) (all_results : list (Z * str)) : list Z :=
  fst <$> filter (λ x, x.2 = pattern) all_results.

(** The regrouping loop [for original_pattern in sub_string]. *)
Definition regroup (case_sensitivity : bool) (sub_string : list str)
    (all_results : list (Z * str)) : dict str (option (list Z)) :=
  foldl (λ result original_pattern,
           let pattern := fold_case case_sensitivity original_pattern in
           let matches := positions_of pattern all_results in
           dict_set original_pattern (tuple_or_none matches) result)
        [] sub_string.

(** [result if any(v is not None for v in result.values()) else None] *)
Definition dict_or_none (result : dict str (option (list Z)))
    : option (dict str (option (list Z))) :=
  if bool_decide (Exists (λ kv, kv.2 ≠ None) result) then Some result else None.

(** The merged, position-sorted sequence of the multi-pattern path, after
    direction and count. *)
Definition select_results (method : string) (count : option Z)
    (all_matches : dict str (list Z)) : list (Z * str) :=
  apply_count count (apply_method method (sort_by_pos (collect_results all_matches))).

(** [search], as the value it returns: the decorator [timing_decorator]
    around it prints the time taken and returns the value unchanged.
    [sub_strings] covers the two kinds of argument the function handles, a
    string and a list (or tuple) of strings. *)
Definition search (string : str) (sub_string : sub_strings)
    (case_sensitivity : bool) (method : String.string) (count : option Z)
    : py (option found) :=
  if decide (string = []) then Ret None
  else
    let search_string := fold_case case_sensitivity string in
    match sub_string with
    | Single sub_string =>
        if decide (sub_string = []) then Ret None
        else
          let pattern := fold_case case_sensitivity sub_string in
          matches ← kmp_search search_string pattern;
          if decide (matches = []) then Ret None
          else
            let matches := apply_method method matches in
            let matches := apply_count count matches in
            Ret (Positions <$> tuple_or_none matches)
    | Multi sub_string =>
        if decide (sub_string = []) then Ret None
        else
          let patterns := fold_patterns case_sensitivity sub_string in
          if decide (patterns = []) then Ret None
          else
            ac ← build_automaton ac_init patterns;
            all_matches ← ac_search ac search_string;
            let all_results := select_results method count all_matches in
            let result := regroup case_sensitivity sub_string all_results in
            Ret (Mapping <$> dict_or_none result)
    end.
End program.

(** ** Specification of the matchers: the occurrences of a pattern *)

Section occurrences.
Context {char : Type} `{EqDecision char}.

(** [pattern] occurs in [text] at position [s]. *)
Definition occurs_at (text pattern : list char) (s : Z) : Prop :=
  0 ≤ s ∧ take (length pattern) (drop (Z.to_nat s) text) = pattern.

#[global] Instance occurs_at_dec text pattern s : Decision (occurs_at text pattern s).
Proof. unfold occurs_at. apply _. Defined.

(** The occurrences that start before position [b], in ascending order. *)
Definition occurrences_below (text pattern : list char) (b : Z) : list Z :=
  filter (occurs_at text pattern) (seqZ 0 b).

(** All occurrences of a pattern, in ascending order; the empty pattern has
    none. *)
Definition occurrences (text pattern : list char) : list Z :=
  if decide (pattern = []) then []
  else occurrences_below text pattern (len text).
End occurrences.

(** ** The console utility (main.py)

    The strings of the utility are lists of Unicode code points. *)

(** The code points of a literal of ASCII characters. *)
Definition code_points (s : string) : list Z :=
  (λ c, Z.of_nat (nat_of_ascii c)) <$> list_ascii_of_string s.

(** [class Colors]; ['\033'] is the character 27. *)
Module Colors.
Definition RESET : list Z := 27 :: code_points "[0m".

Definition COLORS : list (list Z) :=
  [ 27 :: code_points "[91m";
    27 :: code_points "[92m";
    27 :: code_points "[93m";
    27 :: code_points "[94m";
    27 :: code_points "[95m";
    27 :: code_points "[96m" ].

(** [cls.COLORS[index % len(cls.COLORS)]] *)
Definition get_color (index : Z) : py (list Z) :=
  getitem COLORS (index `mod` len COLORS).
End Colors.

(** [if positions:] is false for [None] and for the empty tuple. *)
Definition truthy (positions : option (list Z)) : bool :=
  match positions with
  | Some (_ :: _) => true
  | _ => false
  end.

(** An entry [(start, end, color, pattern)] of [highlights]. *)
Abbreviation highlight := (Z * Z * list Z * list Z)%type.

(** The body of [for pattern, positions in matches_dict.items()]; the
    dictionary [color_map] that the loop also fills is never read. *)
Definition add_highlights (st : list highlight * Z)
    (item : list Z * option (list Z)) : py (list highlight * Z) :=
  let '(highlights, color_index) := st in
  let '(pattern, positions) := item in
  if truthy positions then
    color ← Colors.get_color color_index;
    let highlights :=
      highlights ++
        ((λ pos, (pos, pos + len pattern, color, pattern)) <$> default [] positions) in
    Ret (highlights, color_index + 1)
  else Ret (highlights, color_index).

(** [highlights.sort(key=lambda x: x[0])]: the stable sort, as an insertion
    sort. *)
Fixpoint insert_by_start (h : highlight) (l : list highlight) : list highlight :=
  match l with
  | [] => [h]
  | h' :: l' =>
      if decide (h.1.1.1 ≤ h'.1.1.1) then h :: l else h' :: insert_by_start h l'
  end.

Definition sort_by_start (l : list highlight) : list highlight :=
  foldr insert_by_start [] l.

(** [l[lo:]] *)
Definition slice_from {A} (l : list A) (lo : Z) : list A :=
  drop (Z.to_nat (clamp_index l lo)) l.

(** The body of [for start, end, color, pattern in highlights]. *)
Definition paint (text : list Z) (st : list Z * Z) (h : highlight)
    : list Z * Z :=
  let '(result, last_pos) := st in
  let '(start, end_, color, pattern) := h in
  if decide (start >= last_pos) then
    let result := result ++ slice text last_pos start in
    let result := result ++ ((color ++ slice text start end_) ++ Colors.RESET) in
    (result, end_)
  else (result, last_pos).

(** The text with the highlights applied, the rest of the text appended. *)
Definition paint_all (text : list Z) (highlights : list highlight) : list Z :=
  let '(result, last_pos) := foldl (paint text) ([], 0) highlights in
  result ++ slice_from text last_pos.

(** [s.split(sep)] for a separator of one character. *)
Fixpoint split_on (sep : Z) (s : list Z) : list (list Z) :=
  match s with
  | [] => [[]]
  | c :: s =>
      if decide (c = sep) then [] :: split_on sep s
      else match split_on sep s with
           | line :: lines => (c :: line) :: lines
           | [] => [[c]]
           end
  end.

(** [sep.join(lines)] *)
Fixpoint join (sep : list Z) (lines : list (list Z)) : list Z :=
  match lines with
  | [] => []
  | line :: lines =>
      match lines with
      | [] => line
      | _ => line ++ sep ++ join sep lines
      end
  end.

(** The characters that [str.split()] takes as white space. *)
Definition isspace (c : Z) : bool :=
  bool_decide (9 ≤ c ≤ 13 ∨ 28 ≤ c ≤ 32 ∨ c = 133 ∨ c = 160 ∨ c = 5760 ∨
               8192 ≤ c ≤ 8202 ∨ c = 8232 ∨ c = 8233 ∨ c = 8239 ∨
               c = 8287 ∨ c = 12288).

(** [s.split()]: the words between runs of white space; [word] is the word
    being read. *)
Fixpoint split_words (s : list Z) (word : list Z) : list (list Z) :=
  match s with
  | [] => match word with [] => [] | _ => [word] end
  | c :: s =>
      if isspace c then
        match word with
        | [] => split_words s []
        | _ => word :: split_words s []
        end
      else split_words s (word ++ [c])
  end.

Definition split (s : list Z) : list (list Z) := split_words s [].

(** [str(n)] of an integer. *)
Definition str_of_int (n : Z) : list Z := code_points (pretty n).

(** [f"... (показано {max_lines} из {words} строк)"] *)
Definition shown_note (max_lines words : Z) : list Z :=
  code_points "... (" ++ [1087; 1086; 1082; 1072; 1079; 1072; 1085; 1086; 32] ++
  str_of_int max_lines ++ [32; 1080; 1079; 32] ++
  str_of_int words ++ [32; 1089; 1090; 1088; 1086; 1082] ++ code_points ")".

(** The lines of the result, cut to [max_lines] with a note added when there
    are more. *)
Definition limit_lines (result : list Z) (max_lines : Z) : list Z :=
  let lines := split_on 10 result in
  if decide (len lines > max_lines) then
    let lines := slice_to lines max_lines in
    let lines := lines ++ [shown_note max_lines (len (split result))] in
    join [10] lines
  else join [10] lines.

Definition highlight_matches (text : list Z)
    (matches_dict : dict (list Z) (option (list Z))) (max_lines : Z)
    : py (list Z) :=
  match matches_dict with
  | [] => Ret text
  | _ =>
      '(highlights, _) ← for_each matches_dict add_highlights ([], 0);
      let highlights := sort_by_start highlights in
      let result := paint_all text highlights in
      Ret (limit_lines result max_lines)
  end.

(** * The notions of the specification *)

(** ** Notions used to state the properties *)

(** The element at an integer index, when the index is in range. *)
Definition zget {A} (l : list A) (k : Z) : option A :=
  if decide (0 ≤ k) then l !! Z.to_nat k else None.

(** [x[s..e)] agrees with [p[0..e-s)]: the pattern [p], laid at position [s]
    of [x], matches up to (excluding) position [e]. *)
Definition agree {A} (x p : list A) (s e : Z) : Prop :=
  ∀ k, s ≤ k < e → ∃ c, zget x k = Some c ∧ zget p (k - s) = Some c.

(** [b] is the length of the longest border of [w]: the longest prefix of
    [w], shorter than [w], that is also a suffix of [w]. *)
Definition longest_border {A} (w : list A) (b : Z) : Prop :=
  0 ≤ b < len w ∧ take (Z.to_nat b) w `suffix_of` w ∧
  ∀ k, 0 ≤ k < len w → take (Z.to_nat k) w `suffix_of` w → k ≤ b.

(** Entry [j - 1] of the table [lps] is the length [b] of the longest border
    of the first [j] characters of [p], in terms of alignments: [p] laid on
    itself at distance [j - b] agrees up to [j], and at no smaller positive
    distance. *)
Definition lps_entry {A} (p : list A) (lps : list Z) (j : Z) : Prop :=
  ∃ b, zget lps (j - 1) = Some b ∧ 0 ≤ b < j ∧ agree p p (j - b) j ∧
       ∀ d, 1 ≤ d < j - b → ¬ agree p p d j.

(** The table is right for every prefix of [p]. *)
Definition lps_table {A} (p : list A) (lps : list Z) : Prop :=
  len lps = len p ∧ ∀ j, 1 ≤ j ≤ len p → lps_entry p lps j.

(** The invariant of the loop of [compute_lps], on its state
    [(length, i, lps)]: the table is right below [i], [length] is a border
    of the first [i] characters, and no longer border of them extends by
    the next character. *)
Definition lps_inv {A} (pattern : list A) (st : Z * Z * list Z) : Prop :=
  let '(length, i, lps) := st in
  0 ≤ length < i ∧ i ≤ len pattern ∧ len lps = len pattern ∧
  (∀ j, 1 ≤ j ≤ i → lps_entry pattern lps j) ∧
  agree pattern pattern (i - length) i ∧
  ∀ d, 1 ≤ d < i - length → ¬ agree pattern pattern d (i + 1).

(** The invariant of the loop of [kmp_search], on its state
    [(i, j, matches)]: the pattern laid at [i - j] agrees with the text up
    to [i], and the occurrences before [i - j] are recorded. *)
Definition kmp_inv {A} `{EqDecision A} (text pattern : list A)
    (st : Z * Z * list Z) : Prop :=
  let '(i, j, matches) := st in
  0 ≤ j < len pattern ∧ j ≤ i ≤ len text ∧
  agree text pattern (i - j) i ∧
  matches = occurrences_below text pattern (i - j).

(** A table built by [for i in range(k): table[p[i]] = f(i)] holds, for each
    character, [f] of its last index below [k]. *)
Definition last_index_table {A} `{EqDecision A} (p : list A) (f : Z → Z) (k : Z)
    (table : dict A Z) : Prop :=
  ∀ c, match dict_get c table with
       | Some v => ∃ i, v = f i ∧ 0 ≤ i < k ∧ zget p i = Some c ∧
                        ∀ i', i < i' < k → zget p i' ≠ Some c
       | None => ∀ i', 0 ≤ i' < k → zget p i' ≠ Some c
       end.

(** What both backward comparisons of a window establish: everything right
    of [j] matches, and [j] is [-1] or a mismatch. *)
Definition compared {A} (text pattern : list A) (shift j : Z) : Prop :=
  -1 ≤ j < len pattern ∧
  (∀ k, j < k < len pattern →
     ∃ c, zget pattern k = Some c ∧ zget text (shift + k) = Some c) ∧
  (0 ≤ j → ∃ pj tj, zget pattern j = Some pj ∧ zget text (shift + j) = Some tj ∧
                   pj ≠ tj).

(** The window of [m] characters of [text] that starts at position [i]. *)
Definition window {A} (text : list A) (m i : Z) : list A :=
  take (Z.to_nat m) (drop (Z.to_nat i) text).

(** The invariant of the loop of [rabin_karp_search], on its state
    [(text_hash, matches)] before window [i]: the hash is that of the
    window, and the occurrences before [i] are recorded. *)
Definition rabin_karp_inv {char} `{!Alphabet char} (text pattern : list char)
    (i : Z) (st : Z * list Z) : Prop :=
  (i ≤ len text - len pattern →
     st.1 = rolling_hash (window text (len pattern) i) 256 101) ∧
  st.2 = occurrences_below text pattern i.

Section trie_defs.
Context {char : Type} `{EqDecision char}.

(** Following the transitions of [goto] from state [s] along a word. *)
Fixpoint walk (goto : dict (Z * char) Z) (s : Z) (w : list char) : option Z :=
  match w with
  | [] => Some s
  | c :: w =>
      match dict_get (s, c) goto with
      | Some s' => walk goto s' w
      | None => None
      end
  end.

(** State [s] is the node of the word [w]. *)
Definition node (goto : dict (Z * char) Z) (w : list char) (s : Z) : Prop :=
  walk goto 0 w = Some s.

(** The word [w] is in the trie. *)
Definition in_trie (goto : dict (Z * char) Z) (w : list char) : Prop :=
  is_Some (walk goto 0 w).

(** The transitions form a trie over the states [0 .. len goto]: every
    transition leads to a larger state, and no state is entered twice. *)
Record trie (goto : dict (Z * char) Z) : Prop := {
  trie_edge : ∀ s c v, dict_get (s, c) goto = Some v → 0 ≤ s < v ∧ v ≤ len goto;
  trie_inj : ∀ s c s' c' v,
    dict_get (s, c) goto = Some v → dict_get (s', c') goto = Some v →
    s = s' ∧ c = c'
}.

(** [goto'] has every transition of [goto]. *)
Definition extends (goto goto' : dict (Z * char) Z) : Prop :=
  ∀ k v, dict_get k goto = Some v → dict_get k goto' = Some v.

(** [None] for the empty list: how an [output] or [result] entry holds a
    list. *)
Definition nonempty_opt {A} (l : list A) : option (list A) :=
  match l with [] => None | _ => Some l end.

(** The patterns equal to the word [w], in the order of the list. *)
Definition own (patterns : list (list char)) (w : list char) : list (list char) :=
  filter (λ p, p = w) patterns.

(** The patterns that are non-empty suffixes of [w], longest first. *)
Fixpoint suffix_pats (patterns : list (list char)) (w : list char)
    : list (list char) :=
  match w with
  | [] => []
  | _ :: w' => own patterns w ++ suffix_pats patterns w'
  end.

(** After the patterns are entered, [output] holds for each node the
    patterns that spell it. *)
Definition own_output (patterns : list (list char)) (goto : dict (Z * char) Z)
    (output : dict Z (list (list char))) : Prop :=
  (∀ v w, node goto w v → dict_get v output = nonempty_opt (own patterns w)) ∧
  (∀ v, is_Some (dict_get v output) → ∃ w, node goto w v).
End trie_defs.

Section ac_defs.
Context {char : Type} `{EqDecision char}.

(** [z] is the longest suffix of [x] that is a word of the trie. *)
Definition lsw (goto : dict (Z * char) Z) (x z : list char) : Prop :=
  z `suffix_of` x ∧ in_trie goto z ∧
  ∀ z', z' `suffix_of` x → in_trie goto z' → (length z' ≤ length z)%nat.

(** The failure link of the node [v] of the word [w] leads to the node of
    the longest proper suffix of [w] that is in the trie. *)
Definition fail_link (goto : dict (Z * char) Z) (fail : dict Z Z) (v : Z)
    (w : list char) : Prop :=
  ∃ z f, dict_get v fail = Some f ∧ node goto z f ∧ lsw goto (tail w) z.
End ac_defs.

Section bfs_defs.
Context {char : Type} `{!Alphabet char, !SetOrder char}.

(** What the breadth-first loop of [build_automaton] maintains.  The
    discovered states are the keys of [fail]; [d] is the depth of the states
    at the front of the queue; [pending v c] marks the transitions of the
    state being expanded that are still to be visited. *)
Record bfs_inv (goto : dict (Z * char) Z) (patterns : list (list char))
    (pending : Z → char → Prop) (d : Z)
    (queue : list Z) (fail : dict Z Z) (output : dict Z (list (list char)))
    : Prop := {
  bi_fail_nodup : NoDup fail.*1;
  bi_queue_nodup : NoDup queue;
  bi_queue_disc : ∀ v, v ∈ queue → is_Some (dict_get v fail);
  bi_disc : ∀ v, is_Some (dict_get v fail) →
    ∃ w, node goto w v ∧ w ≠ [] ∧ fail_link goto fail v w ∧
         dict_get v output = nonempty_opt (suffix_pats patterns w);
  bi_undisc : ∀ v w, node goto w v → dict_get v fail = None →
    dict_get v output = nonempty_opt (own patterns w);
  bi_depth : 1 ≤ d;
  bi_level : ∃ q1 q2, queue = q1 ++ q2 ∧
    (∀ v w, v ∈ q1 → node goto w v → len w = d) ∧
    (∀ v w, v ∈ q2 → node goto w v → len w = d + 1);
  bi_low : ∀ v w, node goto w v → 1 ≤ len w ≤ d → is_Some (dict_get v fail);
  bi_high : ∀ v w, is_Some (dict_get v fail) → node goto w v → len w ≤ d + 1;
  bi_expanded : ∀ v c u,
    is_Some (dict_get v fail) → v ∉ queue → dict_get (v, c) goto = Some u →
    ¬ pending v c → is_Some (dict_get u fail);
  bi_parent : ∀ v c u,
    is_Some (dict_get u fail) → dict_get (v, c) goto = Some u →
    v = 0 ∨ (is_Some (dict_get v fail) ∧ v ∉ queue ∧ ¬ pending v c)
}.

(** The finished automaton for a list of patterns. *)
Record automaton_ok (patterns : list (list char)) (ac : AhoCorasick) : Prop := {
  ao_trie : trie (goto ac);
  ao_patterns : Forall (in_trie (goto ac)) patterns;
  ao_fail : ∀ v w, node (goto ac) w v → w ≠ [] → fail_link (goto ac) (fail ac) v w;
  ao_output : ∀ v w, node (goto ac) w v →
    dict_get v (output ac) = nonempty_opt (suffix_pats patterns w)
}.
End bfs_defs.

(** How many times [p] is in the list. *)
Definition multiplicity {A} `{EqDecision A} (p : A) (l : list A) : nat :=
  length (filter (λ q, q = p) l).

(** Every element repeated [k] times, in order. *)
Definition repeat_each {A} (k : nat) (l : list A) : list A :=
  l ≫= replicate k.

(** The invariant of the loop of [AhoCorasick.search], after the characters
    [l1] of the text: the state is the node of the longest suffix of what
    was read that is in the trie, and the result holds under every pattern
    its occurrences that end in what was read, each as many times as the
    pattern is in the list. *)
Definition ac_search_inv {char} `{!Alphabet char}
    (patterns : list (list char)) (ac : AhoCorasick) (text : list char)
    (l1 : list (Z * char)) (st : dict (list char) (list Z) * Z) : Prop :=
  (∃ z, node (goto ac) z st.2 ∧ lsw (goto ac) l1.*2 z) ∧
  NoDup st.1.*1 ∧
  ∀ p, dict_get p st.1 =
       nonempty_opt (repeat_each (multiplicity p patterns)
                       (occurrences_below text p (len l1 - len p + 1))).

(** The order of [all_results.sort(key=lambda x: x[0])]. *)
Definition pos_le {A} (x y : Z * A) : Prop := x.1 ≤ y.1.


(** A result with every tuple of positions reversed. *)
Definition reverse_values {K} (d : dict K (option (list Z)))
    : dict K (option (list Z)) :=
  (λ kv : K * option (list Z), (kv.1, reverse <$> kv.2)) <$> d.

Definition reverse_found {char} (r : @found char) : @found char :=
  match r with
  | Positions t => Positions (reverse t)
  | Mapping d => Mapping (reverse_values d)
  end.

(** Every (position, pattern) pair of a list of patterns in a text: the
    occurrences of each entry of the list, in the order of the list. *)
Definition all_pairs {char} `{EqDecision char} (text : list char)
    (patterns : list (list char)) : list (Z * list char) :=
  patterns ≫= λ p, (λ pos, (pos, p)) <$> occurrences text p.

(** ** An instance: 8-bit characters

    [str.lower] on ASCII letters, and sets iterated in the order of first
    insertion. *)

Definition lower_ascii (c : ascii) : ascii :=
  let n := nat_of_ascii c in
  if decide (65 ≤ n ≤ 90)%nat then ascii_of_nat (n + 32) else c.

#[global] Instance ascii_alphabet : Alphabet ascii.
Proof.
  refine {| ord c := Z.of_nat (nat_of_ascii c);
            lower s := lower_ascii <$> s |}.
  - done.
  - by intros [|c s].
Defined.

#[global] Instance ascii_set_order : SetOrder ascii := {|
  set_order l := l;
  set_order_perm l := reflexivity l
|}.

(** The characters of a string literal. *)
Definition chars (x : string) : list ascii := list_ascii_of_string x.

(** The value of a string read as a number in base [base], the most
    significant character first. *)
Definition horner {char} `{!Alphabet char} (s : list char) (base : Z) : Z :=
  foldl (λ value c, value * base + ord c) 0 s.

(** The number of matches a search has to choose from: the occurrences of
    the folded pattern, or all the pairs of the folded patterns. *)
Definition match_count {char} `{!Alphabet char} (cs : bool) (text : list char)
    (sub_string : @sub_strings char) : Z :=
  match sub_string with
  | Single pattern => len (occurrences (fold_case cs text) (fold_case cs pattern))
  | Multi subs => len (all_pairs (fold_case cs text) (fold_patterns cs subs))
  end.

(** The elements of a list, each once, in the order in which they first
    appear: the order of the keys of a dictionary filled from the list. *)
Fixpoint first_seen {A} `{EqDecision A} (l : list A) : list A :=
  match l with
  | [] => []
  | x :: l => x :: filter (λ y, y ≠ x) (first_seen l)
  end.




(** A piece of a highlighted text: a stretch of characters, plain or in a
    colour. *)
Abbreviation piece := (option (list Z) * list Z)%type.

(** The pieces as the console gets them: a coloured piece between its colour
    code and the reset code. *)
Definition render (pieces : list piece) : list Z :=
  pieces ≫= λ '(color, s),
    match color with
    | Some c => (c ++ s) ++ Colors.RESET
    | None => s
    end.

(** The characters of the pieces, without the codes. *)
Definition plain (pieces : list piece) : list Z := pieces ≫= snd.

(** What [highlight_matches] needs of an entry of [highlights]: it ends
    where its pattern ends, its colour is one of the six, and it is a
    position the dictionary holds for its pattern. *)
Definition from_dict (matches_dict : dict (list Z) (option (list Z)))
    (h : highlight) : Prop :=
  h.1.1.2 = h.1.1.1 + len h.2 ∧ h.1.2 ∈ Colors.COLORS ∧
  ∃ positions, (h.2, Some positions) ∈ matches_dict ∧ h.1.1.1 ∈ positions.

(** An alphabet of code points, to evaluate the search on the strings of the
    utility: the number of a code point is the code point, and the lower
    case is taken of the letters A to Z only. *)
Definition lower_code_point (c : Z) : Z :=
  if decide (65 ≤ c ≤ 90) then c + 32 else c.

Definition code_point_alphabet : Alphabet Z.
Proof.
  refine {| ord c := c;
            lower s := lower_code_point <$> s |}.
  - done.
  - by intros [|c s].
Defined.

Definition code_point_set_order : SetOrder Z := {|
  set_order l := l;
  set_order_perm l := reflexivity l
|}.

(** * The proofs *)

(** ** The result type and the loops *)

Lemma while_inv {S} (I : S → Prop) (V : S → nat) fuel cond body (s : S) :
  (∀ s, I s → ∃ b, cond s = Ret b ∧
     (b = true → ∃ s', body s = Ret s' ∧ I s' ∧ (V s' < V s)%nat)) →
  I s → (V s < fuel)%nat →
  ∃ s', while fuel cond body s = Ret s' ∧ I s' ∧ cond s' = Ret false.
Proof.
  intros Hstep. revert s. induction fuel as [|fuel IH]; intros s HI HV; [lia|].
  destruct (Hstep s HI) as (b & Hc & Hb). simpl. rewrite Hc. simpl.
  destruct b.
  - destruct (Hb eq_refl) as (s' & Hbody & HI' & HV'). rewrite Hbody. simpl.
    apply IH; [done|lia].
  - eauto.
Qed.

Lemma for_each_inv {A S} (I : list A → S → Prop) (l : list A) body (s : S) :
  I [] s →
  (∀ l1 x l2 s, l = l1 ++ x :: l2 → I l1 s →
     ∃ s', body s x = Ret s' ∧ I (l1 ++ [x]) s') →
  ∃ s', for_each l body s = Ret s' ∧ I l s'.
Proof.
  intros H0 Hstep.
  cut (∀ l2 l1 s, l = l1 ++ l2 → I l1 s →
         ∃ s', for_each l2 body s = Ret s' ∧ I l s').
  { intros Hc. apply (Hc l [] s); done. }
  induction l2 as [|x l2 IH]; intros l1 s1 Hl HI; simpl.
  - rewrite app_nil_r in Hl. subst. eauto.
  - destruct (Hstep l1 x l2 s1 Hl HI) as (s' & Hb & HI'). rewrite Hb. simpl.
    apply (IH (l1 ++ [x])); [|done]. by rewrite <- app_assoc.
Qed.

Lemma for_range_inv {S} (I : Z → S → Prop) (n : Z) body (s : S) :
  0 ≤ n → I 0 s →
  (∀ i s, 0 ≤ i < n → I i s → ∃ s', body s i = Ret s' ∧ I (i + 1) s') →
  ∃ s', for_each (range n) body s = Ret s' ∧ I n s'.
Proof.
  intros Hn H0 Hstep.
  destruct (for_each_inv (λ l1 s, I (len l1) s) (range n) body s) as (s' & Hr & HI).
  - done.
  - intros l1 x l2 s1 Hl HI.
    assert (x = len l1 ∧ 0 ≤ len l1 < n) as [-> Hi].
    { assert (range n !! length l1 = Some x) as Hx.
      { rewrite Hl. rewrite lookup_app_r by lia.
        by replace (length l1 - length l1)%nat with 0%nat by lia. }
      unfold range in Hx. apply lookup_seqZ in Hx. unfold len. lia. }
    destruct (Hstep (len l1) s1 Hi HI) as (s' & Hb & HI').
    exists s'. split; [done|]. unfold len in *. rewrite length_app. simpl.
    by replace (Z.of_nat (length l1 + 1)) with (Z.of_nat (length l1) + 1) by lia.
  - exists s'. split; [done|]. unfold len, range in HI.
    rewrite length_seqZ in HI. by rewrite Z2Nat.id in HI.
Qed.

(** ** Subscripts *)

Lemma zget_Some {A} (l : list A) k x :
  zget l k = Some x ↔ 0 ≤ k ∧ l !! Z.to_nat k = Some x.
Proof. unfold zget. case_decide; [tauto|]. split; [done|]. intros [? _]. lia. Qed.

Lemma norm_index_nonneg {A} (l : list A) k : 0 ≤ k → norm_index l k = k.
Proof. intros. unfold norm_index. by rewrite decide_False by lia. Qed.

Lemma zget_range {A} (l : list A) k x : zget l k = Some x → 0 ≤ k < len l.
Proof.
  rewrite zget_Some. intros [? Hl]. apply lookup_lt_Some in Hl. unfold len. lia.
Qed.

Lemma zget_is_Some {A} (l : list A) k : 0 ≤ k < len l → is_Some (zget l k).
Proof.
  intros Hk. unfold zget. rewrite decide_True by lia.
  apply lookup_lt_is_Some. unfold len in Hk. lia.
Qed.

Lemma zget_None {A} (l : list A) k : ¬ (0 ≤ k < len l) → zget l k = None.
Proof.
  intros Hk. destruct (zget l k) eqn:E; [|done].
  apply zget_range in E. lia.
Qed.

Lemma getitem_zget {A} (l : list A) k x : zget l k = Some x → getitem l k = Ret x.
Proof.
  intros H. pose proof (zget_range _ _ _ H) as Hr. apply zget_Some in H as [? H].
  unfold getitem. rewrite norm_index_nonneg by lia.
  rewrite decide_True by lia. by rewrite H.
Qed.

Lemma setitem_ok {A} (l : list A) k x :
  0 ≤ k < len l → setitem l k x = Ret (<[Z.to_nat k := x]> l).
Proof.
  intros H. unfold setitem. rewrite norm_index_nonneg by lia.
  by rewrite decide_True by lia.
Qed.

Lemma zget_insert_eq {A} (l : list A) k x :
  0 ≤ k < len l → zget (<[Z.to_nat k := x]> l) k = Some x.
Proof.
  intros H. apply zget_Some. split; [lia|].
  apply list_lookup_insert_eq. unfold len in H. lia.
Qed.

Lemma zget_insert_ne {A} (l : list A) k j x :
  0 ≤ k → j ≠ k → zget (<[Z.to_nat k := x]> l) j = zget l j.
Proof.
  intros Hk Hne. unfold zget. case_decide; [|done].
  apply list_lookup_insert_ne. lia.
Qed.

Lemma len_nonneg {A} (l : list A) : 0 ≤ len l.
Proof. unfold len. lia. Qed.

Lemma len_nil_inv {A} (l : list A) : len l = 0 → l = [].
Proof. unfold len. destruct l; [done|simpl; lia]. Qed.

Lemma len_pos {A} (l : list A) : l ≠ [] → 0 < len l.
Proof. destruct l; [done|]. unfold len. simpl. lia. Qed.

Lemma len_app {A} (l k : list A) : len (l ++ k) = len l + len k.
Proof. unfold len. rewrite length_app. lia. Qed.

Lemma zget_take {A} (l : list A) n k :
  k < n → zget (take (Z.to_nat n) l) k = zget l k.
Proof.
  intros H. unfold zget. case_decide; [|done]. apply lookup_take_lt. lia.
Qed.

Lemma zget_drop {A} (l : list A) n k :
  0 ≤ n → 0 ≤ k → zget (drop (Z.to_nat n) l) k = zget l (n + k).
Proof.
  intros Hn Hk. unfold zget. rewrite !decide_True by lia.
  rewrite lookup_drop. f_equal. lia.
Qed.

Lemma list_eq_zget {A} (l k : list A) :
  len l = len k → (∀ i, 0 ≤ i < len l → zget l i = zget k i) → l = k.
Proof.
  intros Hlen H. apply list_eq. intros i.
  destruct (decide (i < length l)%nat) as [Hi|Hi].
  - specialize (H (Z.of_nat i)). unfold zget in H.
    rewrite !decide_True, Nat2Z.id in H by lia. apply H. unfold len. lia.
  - rewrite !lookup_ge_None_2; [done| |]; unfold len in Hlen; lia.
Qed.

(** ** Agreement of a pattern with a text at a position *)

Section agree.
Context {A : Type}.
Implicit Types x p : list A.

Lemma agree_empty x p s e : e ≤ s → agree x p s e.
Proof. intros ? k ?. lia. Qed.

Lemma agree_mono x p s e e' : e' ≤ e → agree x p s e → agree x p s e'.
Proof. intros ? H k ?. apply H. lia. Qed.

Lemma agree_extend x p s e c :
  agree x p s e → zget x e = Some c → zget p (e - s) = Some c →
  agree x p s (e + 1).
Proof.
  intros H Hx Hp k Hk. destruct (decide (k = e)) as [->|]; [eauto|].
  apply H. lia.
Qed.

Lemma agree_last x p s e c c' :
  s ≤ e → agree x p s (e + 1) → zget x e = Some c → zget p (e - s) = Some c' →
  c = c'.
Proof.
  intros ? H Hx Hp. destruct (H e) as (d & Hd1 & Hd2); [lia|]. congruence.
Qed.

Lemma agree_bound_x x p s e : s < e → agree x p s e → e ≤ len x.
Proof.
  intros ? H. destruct (H (e - 1)) as (c & Hc & _); [lia|].
  apply zget_range in Hc. lia.
Qed.

Lemma agree_bound_p x p s e : s < e → agree x p s e → e - s ≤ len p.
Proof.
  intros ? H. destruct (H (e - 1)) as (c & _ & Hc); [lia|].
  apply zget_range in Hc. lia.
Qed.

(** Shifting an alignment by a period of the pattern. *)
Lemma agree_compose x p s e d :
  0 ≤ d → agree x p s e → agree p p d (e - s) → agree x p (s + d) e.
Proof.
  intros Hd H1 H2 k Hk.
  destruct (H1 k) as (c & Hc1 & Hc2); [lia|].
  destruct (H2 (k - s)) as (c' & Hc1' & Hc2'); [lia|].
  exists c. split; [done|].
  replace (k - (s + d)) with (k - s - d) by lia. congruence.
Qed.

(** Two alignments that agree with the same stretch of text give a period
    of the pattern. *)
Lemma agree_decompose x p s s' e :
  s ≤ s' → agree x p s e → agree x p s' e → agree p p (s' - s) (e - s).
Proof.
  intros Hs H1 H2 k Hk.
  destruct (H1 (k + s)) as (c & Hc1 & Hc2); [lia|].
  destruct (H2 (k + s)) as (c' & Hc1' & Hc2'); [lia|].
  exists c. replace (k + s - s) with k in Hc2 by lia.
  split; [done|].
  replace (k - (s' - s)) with (k + s - s') by lia. congruence.
Qed.

Lemma agree_take_x x p s e n : e ≤ n → agree (take (Z.to_nat n) x) p s e ↔ agree x p s e.
Proof.
  intros Hn. split; intros H k Hk; destruct (H k Hk) as (c & Hc1 & Hc2);
    exists c; (split; [|done]).
  - rewrite zget_take in Hc1 by lia. done.
  - rewrite zget_take by lia. done.
Qed.

Lemma agree_take_p x p s e n :
  e - s ≤ n → agree x (take (Z.to_nat n) p) s e ↔ agree x p s e.
Proof.
  intros Hn. split; intros H k Hk; destruct (H k Hk) as (c & Hc1 & Hc2);
    exists c; (split; [done|]).
  - rewrite zget_take in Hc2 by lia. done.
  - rewrite zget_take by lia. done.
Qed.
End agree.

(** Occurrence, pointwise. *)
Lemma occurs_at_agree {A} (x p : list A) s :
  occurs_at x p s ↔ 0 ≤ s ∧ agree x p s (s + len p).
Proof.
  unfold occurs_at. split.
  - intros [Hs Heq]. split; [done|]. intros k Hk.
    assert (is_Some (zget p (k - s))) as [c Hc].
    { apply zget_is_Some. lia. }
    exists c. split; [|done].
    rewrite <- Heq in Hc. unfold len in Hk.
    rewrite <- (Nat2Z.id (length p)) in Hc.
    rewrite zget_take in Hc by lia.
    rewrite zget_drop in Hc by lia. by replace (s + (k - s)) with k in Hc by lia.
  - intros [Hs Hag]. split; [done|].
    destruct (decide (len p = 0)) as [Hz|Hz].
    { apply len_nil_inv in Hz. by subst. }
    pose proof (len_nonneg p).
    assert (s + len p ≤ len x) as Hb by (apply (agree_bound_x x p s); [lia|done]).
    apply list_eq_zget.
    + unfold len in *. rewrite length_take, length_drop. lia.
    + intros i Hi.
      assert (i < len p) as Hi'.
      { unfold len in *. rewrite length_take in Hi. lia. }
      unfold len in Hi'. rewrite <- (Nat2Z.id (length p)).
      rewrite zget_take by lia. rewrite zget_drop by lia.
      destruct (Hag (s + i)) as (c & Hc1 & Hc2); [unfold len; lia|].
      replace (s + i - s) with i in Hc2 by lia. congruence.
Qed.

(** ** Lists *)

Lemma filter_none {A} (P : A → Prop) `{∀ x, Decision (P x)} (l : list A) :
  Forall (λ x, ¬ P x) l → filter P l = [].
Proof.
  induction 1 as [|x l Hx _ IH]; [done|]. by rewrite filter_cons_False.
Qed.

Lemma StronglySorted_filter {A} (R : relation A) (P : A → Prop)
    `{∀ x, Decision (P x)} (l : list A) :
  StronglySorted R l → StronglySorted R (filter P l).
Proof.
  induction 1 as [|x l Hl IH Hx]; [constructor|].
  rewrite filter_cons. case_decide; [|done].
  constructor; [done|]. apply Forall_forall. intros y Hy%list_elem_of_filter.
  rewrite Forall_forall in Hx. naive_solver.
Qed.

Lemma seqZ_sorted m n : StronglySorted Z.lt (seqZ m n).
Proof.
  unfold seqZ. generalize 0%nat.
  induction (Z.to_nat n) as [|k IH]; intros a; simpl; constructor.
  - apply IH.
  - apply Forall_fmap, Forall_forall. intros i Hi%elem_of_seq. simpl. lia.
Qed.

(** ** Occurrences below a bound *)

Section occurrences_below.
Context {A : Type} `{EqDecision A}.
Implicit Types text pattern : list A.

Lemma occurrences_below_0 text pattern : occurrences_below text pattern 0 = [].
Proof. done. Qed.

Lemma occurrences_below_succ text pattern b :
  0 ≤ b →
  occurrences_below text pattern (b + 1) =
    occurrences_below text pattern b ++
      (if decide (occurs_at text pattern b) then [b] else []).
Proof.
  intros Hb. unfold occurrences_below.
  rewrite seqZ_app by lia. rewrite filter_app. f_equal.
Qed.

Lemma occurrences_below_skip text pattern b b' :
  0 ≤ b ≤ b' → (∀ s, b ≤ s < b' → ¬ occurs_at text pattern s) →
  occurrences_below text pattern b' = occurrences_below text pattern b.
Proof.
  intros Hb Hno. unfold occurrences_below.
  replace b' with (b + (b' - b)) by lia.
  rewrite seqZ_app by lia. rewrite filter_app.
  rewrite (filter_none _ (seqZ (0 + b) _)); [by rewrite app_nil_r|].
  apply Forall_seqZ. intros s Hs. apply Hno. lia.
Qed.

Lemma occurs_at_bound text pattern s :
  pattern ≠ [] → occurs_at text pattern s → 0 ≤ s ∧ s + len pattern ≤ len text.
Proof.
  intros Hne Hocc. apply occurs_at_agree in Hocc as [Hs Hag].
  split; [done|]. pose proof (len_pos _ Hne).
  apply (agree_bound_x text pattern s); [lia|done].
Qed.

Lemma occurrences_below_end text pattern b :
  pattern ≠ [] → 0 ≤ b → len text - len pattern < b →
  occurrences_below text pattern b = occurrences text pattern.
Proof.
  intros Hne Hb Hlt. unfold occurrences. rewrite decide_False by done.
  pose proof (len_nonneg text). pose proof (len_pos _ Hne).
  destruct (decide (b ≤ len text)).
  - symmetry. apply occurrences_below_skip; [lia|].
    intros s Hs Hocc. apply occurs_at_bound in Hocc; [lia|done].
  - apply occurrences_below_skip; [lia|].
    intros s Hs Hocc. apply occurs_at_bound in Hocc; [lia|done].
Qed.

Lemma elem_of_occurrences text pattern s :
  s ∈ occurrences text pattern ↔ pattern ≠ [] ∧ occurs_at text pattern s.
Proof.
  unfold occurrences. case_decide as Hp.
  - split; [by intros ?%elem_of_nil|naive_solver].
  - unfold occurrences_below. rewrite list_elem_of_filter, elem_of_seqZ.
    split; [naive_solver|]. intros [_ Hocc]. split; [done|].
    apply occurs_at_bound in Hocc; [|done]. pose proof (len_pos _ Hp). lia.
Qed.

Lemma occurrences_below_sorted text pattern b :
  StronglySorted Z.lt (occurrences_below text pattern b).
Proof.
  unfold occurrences_below. apply StronglySorted_filter, seqZ_sorted.
Qed.

Lemma occurrences_sorted text pattern :
  StronglySorted Z.lt (occurrences text pattern).
Proof.
  unfold occurrences. case_decide; [constructor|apply occurrences_below_sorted].
Qed.
End occurrences_below.

Lemma bind_Ret {A B} (a : A) (f : A → py B) : (Ret a ≫= f) = f a.
Proof. done. Qed.

Ltac py_simpl :=
  cbv zeta;
  repeat first
    [ rewrite bind_Ret
    | match goal with
      | H : zget ?l ?k = Some ?x |- context [getitem ?l ?k] =>
          rewrite (getitem_zget l k x H)
      end
    | rewrite setitem_ok by lia ].

Section kmp.
Context {char : Type} `{!Alphabet char}.
Implicit Types text pattern : list char.

(** *** The prefix table *)

Lemma lps_entry_insert pattern lps i x j :
  0 ≤ i → j ≤ i → lps_entry pattern lps j →
  lps_entry pattern (<[Z.to_nat i := x]> lps) j.
Proof.
  intros Hi Hj (b & Hb & ?). exists b. split; [|done].
  rewrite zget_insert_ne by lia. done.
Qed.

Lemma compute_lps_step pattern st :
  lps_inv pattern st → st.1.2 < len pattern →
  ∃ st', compute_lps_body pattern st = Ret st' ∧ lps_inv pattern st' ∧
    (Z.to_nat (2 * (len pattern - st'.1.2) + st'.1.1) <
     Z.to_nat (2 * (len pattern - st.1.2) + st.1.1))%nat.
Proof.
  destruct st as [[length i] lps]. simpl.
  intros (Hlen & Hi & Hlps & Hent & Hag & Hmax) Him.
  destruct (zget_is_Some pattern i) as [pi Hpi]; [lia|].
  destruct (zget_is_Some pattern length) as [pl Hpl]; [lia|].
  unfold compute_lps_body. py_simpl.
  assert (agree pattern pattern (i - length) (i + 1) ↔ pi = pl) as Hext.
  { split.
    - intros H. eapply (agree_last pattern pattern (i - length) i); [lia|done..|].
      by replace (i - (i - length)) with length by lia.
    - intros ->. eapply agree_extend; [done..|].
      by replace (i - (i - length)) with length by lia. }
  destruct (decide (pi = pl)) as [Heq|Heq].
  - (* the characters match: the border grows *)
    pose proof (proj2 Hext Heq) as Hag1. py_simpl.
    eexists. split; [done|]. simpl.
    split; [|lia]. repeat split; try lia.
    + unfold len in *. rewrite length_insert. lia.
    + intros j Hj. destruct (decide (j = i + 1)) as [->|].
      * exists (length + 1). replace (i + 1 - 1) with i by lia.
        rewrite zget_insert_eq by lia. repeat split; try lia.
        -- by replace (i + 1 - (length + 1)) with (i - length) by lia.
        -- intros d Hd. apply Hmax. lia.
      * apply lps_entry_insert; [lia..|]. apply Hent. lia.
    + by replace (i + 1 - (length + 1)) with (i - length) by lia.
    + intros d Hd Hagd. apply (Hmax d); [lia|].
      eapply agree_mono; [|done]. lia.
  - destruct (decide (length ≠ 0)) as [Hl0|Hl0].
    + (* mismatch with a non-empty border: fall back *)
      destruct (Hent length) as (b & Hb & Hbl & Hagb & Hmaxb); [lia|].
      py_simpl. eexists. split; [done|]. simpl.
      split; [|lia]. repeat split; try lia; [done| |].
      * replace (i - b) with (i - length + (length - b)) by lia.
        apply agree_compose; [lia|done|].
        by replace (i - (i - length)) with length by lia.
      * intros d Hd Hagd.
        destruct (decide (d < i - length)); [by apply (Hmax d); [lia|]|].
        destruct (decide (d = i - length)) as [->|]; [by apply Heq, Hext|].
        apply (Hmaxb (d - (i - length))); [lia|].
        replace length with (i - (i - length)) at 2 by lia.
        apply (agree_decompose pattern pattern); [lia|done|].
        eapply agree_mono; [|done]. lia.
    + (* mismatch with the empty border *)
      assert (length = 0) as -> by lia.
      assert (∀ d, 1 ≤ d < i + 1 → ¬ agree pattern pattern d (i + 1)) as Hno.
      { intros d Hd Hagd. destruct (decide (d = i)) as [->|].
        - apply Heq, Hext. by replace (i - 0) with i by lia.
        - apply (Hmax d); [lia|done]. }
      py_simpl. eexists. split; [done|]. simpl.
      split; [|lia]. repeat split; try lia.
      * unfold len in *. rewrite length_insert. lia.
      * intros j Hj. destruct (decide (j = i + 1)) as [->|].
        -- exists 0. replace (i + 1 - 1) with i by lia.
           rewrite zget_insert_eq by lia. repeat split; try lia.
           ++ apply agree_empty. lia.
           ++ intros d Hd. apply Hno. lia.
        -- apply lps_entry_insert; [lia..|]. apply Hent. lia.
      * apply agree_empty. lia.
      * intros d Hd Hagd. apply (Hno d); [lia|].
        eapply agree_mono; [|done]. lia.
Qed.

Lemma compute_lps_correct pattern :
  pattern ≠ [] → ∃ lps, compute_lps pattern = Ret lps ∧ lps_table pattern lps.
Proof.
  intros Hne. pose proof (len_pos _ Hne) as Hm. unfold compute_lps.
  destruct (while_inv (lps_inv pattern)
              (λ st, Z.to_nat (2 * (len pattern - st.1.2) + st.1.1))
              (2 * length pattern + 1)
              (λ '(_, i, _), Ret (bool_decide (i < len pattern)))
              (compute_lps_body pattern)
              (0, 1, replicate (Z.to_nat (len pattern)) 0))
    as ([[length i] lps] & Hrun & Hinv & Hexit).
  - intros [[length i] lps] Hinv. eexists. split; [done|].
    intros Hc%bool_decide_eq_true. by apply compute_lps_step.
  - simpl. repeat split; try lia.
    + unfold len. rewrite length_replicate. unfold len. lia.
    + intros j Hj. assert (j = 1) as -> by lia. exists 0.
      repeat split; try lia.
      * apply zget_Some. split; [lia|]. apply lookup_replicate_2. unfold len in *. lia.
      * apply agree_empty. lia.
    + apply agree_empty. lia.
  - simpl. unfold len. lia.
  - rewrite Hrun. exists lps. split; [done|].
    simpl in Hinv. destruct Hinv as (? & ? & ? & Hent & _).
    injection Hexit as Hexit. apply bool_decide_eq_false in Hexit.
    split; [done|]. intros j Hj. apply Hent. lia.
Qed.

(** *** The scan *)

(** Falling back through the table keeps the alignment and skips no
    occurrence. *)
Lemma kmp_fallback text pattern lps i j :
  lps_table pattern lps → 1 ≤ j ≤ len pattern → j ≤ i →
  agree text pattern (i - j) i →
  ∃ b, zget lps (j - 1) = Some b ∧ 0 ≤ b < j ∧ agree text pattern (i - b) i ∧
    occurrences_below text pattern (i - b) =
    occurrences_below text pattern (i - j + 1).
Proof.
  intros [_ Hent] Hj Hi Hag.
  destruct (Hent j) as (b & Hb & Hbj & Hagb & Hmaxb); [lia|].
  exists b. repeat split; try done; try lia.
  - replace (i - b) with (i - j + (j - b)) by lia.
    apply agree_compose; [lia|done|].
    by replace (i - (i - j)) with j by lia.
  - apply occurrences_below_skip; [lia|].
    intros s Hs [_ Hocc]%occurs_at_agree.
    apply (Hmaxb (s - (i - j))); [lia|].
    replace j with (i - (i - j)) at 2 by lia.
    apply (agree_decompose text pattern); [lia|done|].
    eapply agree_mono; [|done]. lia.
Qed.

Lemma kmp_mismatch text pattern i j pj ti :
  0 ≤ j ≤ i → agree text pattern (i - j) i →
  zget pattern j = Some pj → zget text i = Some ti → pj ≠ ti →
  occurrences_below text pattern (i - j + 1) =
  occurrences_below text pattern (i - j).
Proof.
  intros Hj Hag Hpj Hti Hne. rewrite occurrences_below_succ by lia.
  rewrite decide_False; [by rewrite app_nil_r|].
  intros [_ Hocc]%occurs_at_agree. apply Hne. symmetry.
  apply (agree_last text pattern (i - j) i); [lia| |done|].
  - eapply agree_mono; [|done]. apply zget_range in Hpj. lia.
  - by replace (i - (i - j)) with j by lia.
Qed.

Lemma kmp_step text pattern lps st :
  lps_table pattern lps → kmp_inv text pattern st → st.1.1 < len text →
  ∃ st', kmp_body text pattern lps st = Ret st' ∧ kmp_inv text pattern st' ∧
    (Z.to_nat (2 * (len text - st'.1.1) + st'.1.2) <
     Z.to_nat (2 * (len text - st.1.1) + st.1.2))%nat.
Proof.
  destruct st as [[i j] matches]. simpl.
  intros Hlps (Hj & Hi & Hag & ->) Hin.
  destruct (zget_is_Some pattern j) as [pj Hpj]; [lia|].
  destruct (zget_is_Some text i) as [ti Hti]; [lia|].
  unfold kmp_body. py_simpl.
  (* the state after the first conditional *)
  assert (∀ i' j', 0 ≤ j' < len pattern → j' ≤ i' ≤ len text →
            agree text pattern (i' - j') i' → i' - j' = i - j →
            2 * (len text - i') + j' ≤ 2 * (len text - i) + j →
            (i' < len text → 2 * (len text - i') + j' < 2 * (len text - i) + j ∨
               ∃ pj' ti', zget pattern j' = Some pj' ∧ zget text i' = Some ti' ∧
                          pj' ≠ ti') →
            ∃ st', (if decide (i' < len text) then
                      pj ← getitem pattern j'; ti ← getitem text i';
                      if decide (pj ≠ ti) then
                        if decide (j' ≠ 0) then
                          b ← getitem lps (j' - 1);
                          Ret (i', b, occurrences_below text pattern (i - j))
                        else Ret (i' + 1, j', occurrences_below text pattern (i - j))
                      else Ret (i', j', occurrences_below text pattern (i - j))
                    else Ret (i', j', occurrences_below text pattern (i - j))) = Ret st' ∧
                   kmp_inv text pattern st' ∧
                   (Z.to_nat (2 * (len text - st'.1.1) + st'.1.2) <
                    Z.to_nat (2 * (len text - i) + j))%nat) as Helif.
  { intros i' j' Hj' Hi' Hag' Hs HV Hprog.
    destruct (decide (i' < len text)) as [Hlt|Hlt].
    - destruct (zget_is_Some pattern j') as [pj' Hpj']; [lia|].
      destruct (zget_is_Some text i') as [ti' Hti']; [lia|].
      py_simpl. destruct (decide (pj' ≠ ti')) as [Hne|Hne].
      + destruct (decide (j' ≠ 0)) as [Hj0|Hj0].
        * destruct (kmp_fallback text pattern lps i' j') as (b & Hb & Hbj & Hagb & Hocc);
            [done|lia|lia|done|].
          py_simpl. eexists. split; [done|]. simpl. split; [|lia].
          repeat split; try done; try lia.
          rewrite Hocc. rewrite (kmp_mismatch text pattern i' j' pj' ti'); try done; [|lia].
          by rewrite Hs.
        * assert (j' = 0) as -> by lia. eexists. split; [done|]. simpl. split; [|lia].
          repeat split; try lia.
          -- apply agree_empty. lia.
          -- replace (i' + 1 - 0) with (i' - 0 + 1) by lia.
             rewrite (kmp_mismatch text pattern i' 0 pj' ti'); try done; [|lia].
             by rewrite Hs.
      + eexists. split; [done|]. simpl.
        destruct (Hprog Hlt) as [?|(pj'' & ti'' & ? & ? & ?)]; [|exfalso; apply Hne; congruence].
        split; [|lia]. repeat split; try done; try lia. by rewrite Hs.
    - eexists. split; [done|]. simpl.
      assert (i' = len text) as -> by lia.
      assert (i < len text) by lia.
      split; [|lia]. repeat split; try done; try lia. by rewrite Hs. }
  destruct (decide (pj = ti)) as [Heq|Heq].
  - (* the characters match: both cursors advance *)
    subst ti.
    assert (agree text pattern (i - j) (i + 1)) as Hag1.
    { eapply agree_extend; [done..|]. by replace (i - (i - j)) with j by lia. }
    destruct (decide (j + 1 = len pattern)) as [Hfull|Hfull].
    + (* a full match is recorded, then the pattern cursor falls back *)
      destruct (kmp_fallback text pattern lps (i + 1) (j + 1)) as (b & Hb & Hbj & Hagb & Hocc);
        [done|lia|lia|by replace (i + 1 - (j + 1)) with (i - j) by lia|].
      replace (j + 1 - 1) with j in * by lia.
      py_simpl. eexists. split; [done|]. simpl. split; [|lia].
      repeat split; try done; try lia.
      rewrite Hocc. replace (i + 1 - (j + 1)) with (i - j) by lia.
      rewrite occurrences_below_succ by lia. rewrite decide_True; [done|].
      apply occurs_at_agree. split; [lia|].
      by replace (i - j + len pattern) with (i + 1) by lia.
    + apply Helif; try lia.
      * by replace (i + 1 - (j + 1)) with (i - j) by lia.
  - (* no match here: the second conditional sees the same characters *)
    rewrite decide_False by lia. apply Helif; try done; try lia.
    intros _. right. eauto.
Qed.

Lemma kmp_search_correct text pattern :
  kmp_search text pattern = Ret (occurrences text pattern).
Proof.
  unfold kmp_search. case_decide as Hne.
  { unfold occurrences. by rewrite decide_True. }
  destruct (compute_lps_correct pattern Hne) as (lps & -> & Hlps). py_simpl.
  pose proof (len_pos _ Hne) as Hm.
  destruct (while_inv (kmp_inv text pattern)
              (λ st, Z.to_nat (2 * (len text - st.1.1) + st.1.2))
              (2 * length text + 1)
              (λ '(i, _, _), Ret (bool_decide (i < len text)))
              (kmp_body text pattern lps)
              (0, 0, []))
    as ([[i j] matches] & Hrun & Hinv & Hexit).
  - intros [[i j] matches] Hinv. eexists. split; [done|].
    intros Hc%bool_decide_eq_true. by apply kmp_step.
  - simpl. pose proof (len_nonneg text). repeat split; try lia.
    apply agree_empty. lia.
  - simpl. unfold len. lia.
  - rewrite Hrun. py_simpl. f_equal.
    simpl in Hinv. destruct Hinv as (? & ? & _ & ->).
    injection Hexit as Hexit. apply bool_decide_eq_false in Hexit.
    apply occurrences_below_end; [done|lia..].
Qed.
End kmp.

(** ** Dictionaries *)

Section dict_facts.
Context {K V : Type} `{EqDecision K}.
Implicit Types d : dict K V.

Lemma dict_get_set k k' v d :
  dict_get k' (dict_set k v d) = if decide (k' = k) then Some v else dict_get k' d.
Proof.
  induction d as [|[k0 v0] d IH]; simpl.
  - done.
  - destruct (decide (k = k0)) as [->|Hne]; simpl.
    + by destruct (decide (k' = k0)).
    + rewrite IH. destruct (decide (k' = k0)) as [->|]; [|done].
      by rewrite decide_False by done.
Qed.

Lemma dict_get_set_eq k v d : dict_get k (dict_set k v d) = Some v.
Proof. rewrite dict_get_set. by rewrite decide_True. Qed.

Lemma dict_get_set_ne k k' v d : k' ≠ k → dict_get k' (dict_set k v d) = dict_get k' d.
Proof. intros. rewrite dict_get_set. by rewrite decide_False. Qed.

Lemma dict_mem_true k d : dict_mem k d = true ↔ is_Some (dict_get k d).
Proof. unfold dict_mem. destruct (dict_get k d); split; (done || by intros []). Qed.

Lemma dict_mem_false k d : dict_mem k d = false ↔ dict_get k d = None.
Proof. unfold dict_mem. by destruct (dict_get k d). Qed.

Lemma dict_getitem_Some k v d : dict_get k d = Some v → dict_getitem k d = Ret v.
Proof. unfold dict_getitem. by intros ->. Qed.

Lemma dict_get_Some_elem k v d : dict_get k d = Some v → (k, v) ∈ d.
Proof.
  induction d as [|[k0 v0] d IH]; simpl; [done|].
  case_decide; [|set_solver]. intros [= ->]. subst. set_solver.
Qed.

Lemma dict_get_None k d : dict_get k d = None ↔ k ∉ d.*1.
Proof.
  induction d as [|[k0 v0] d IH]; simpl; [set_solver|].
  case_decide; [set_solver|]. rewrite IH. set_solver.
Qed.

Lemma dict_set_keys_mem k v d :
  is_Some (dict_get k d) → (dict_set k v d).*1 = d.*1.
Proof.
  induction d as [|[k0 v0] d IH]; simpl; [by intros []|].
  case_decide; [by subst|]. intros ?. simpl. f_equal. by apply IH.
Qed.

Lemma dict_set_fresh k v d : dict_get k d = None → dict_set k v d = d ++ [(k, v)].
Proof.
  induction d as [|[k0 v0] d IH]; simpl; [done|].
  case_decide; [done|]. intros ?. f_equal. by apply IH.
Qed.
End dict_facts.

Section scanners.
Context {char : Type} `{!Alphabet char}.
Implicit Types text pattern : list char.

(** ** The two shift tables *)

Lemma last_index_table_build pattern (f : Z → Z) (k : Z) :
  0 ≤ k ≤ len pattern →
  ∃ table,
    for_each (range k)
      (λ table i, c ← getitem pattern i; Ret (dict_set c (f i) table)) [] = Ret table ∧
    last_index_table pattern f k table.
Proof.
  intros Hk. apply (for_range_inv (last_index_table pattern f)); [lia| |].
  - intros c. simpl. lia.
  - intros i table Hi Htab.
    destruct (zget_is_Some pattern i) as [ci Hci]; [lia|].
    py_simpl. eexists. split; [done|].
    intros c. rewrite dict_get_set. case_decide as Hc.
    + subst c. exists i. repeat split; try done; try lia.
    + specialize (Htab c). destruct (dict_get c table) as [v|].
      * destruct Htab as (i0 & -> & Hi0 & Hpi0 & Hlast).
        exists i0. repeat split; try done; try lia.
        intros i' Hi'. destruct (decide (i' = i)) as [->|]; [congruence|].
        apply Hlast. lia.
      * intros i' Hi'. destruct (decide (i' = i)) as [->|]; [congruence|].
        apply Htab. lia.
Qed.

(** ** Comparing a window from right to left *)

Lemma compared_full text pattern shift :
  0 ≤ shift → compared text pattern shift (-1) → occurs_at text pattern shift.
Proof.
  intros Hs (_ & Hall & _). apply occurs_at_agree. split; [done|].
  intros k Hk. destruct (Hall (k - shift)) as (c & Hc1 & Hc2); [lia|].
  exists c. by replace (shift + (k - shift)) with k in Hc2 by lia.
Qed.

Lemma compared_mismatch text pattern shift j :
  0 ≤ j → compared text pattern shift j → ¬ occurs_at text pattern shift.
Proof.
  intros Hj (Hjm & _ & Hmis) [_ Hocc]%occurs_at_agree.
  destruct (Hmis Hj) as (pj & tj & Hpj & Htj & Hne).
  destruct (Hocc (shift + j)) as (c & Hc1 & Hc2); [lia|].
  replace (shift + j - shift) with j in Hc2 by lia. congruence.
Qed.

Lemma compare_loop_spec text pattern shift (cond : Z → py bool) :
  0 ≤ shift → shift + len pattern ≤ len text →
  (∀ j pj tj, zget pattern j = Some pj → zget text (shift + j) = Some tj →
     cond j = Ret (bool_decide (pj = tj))) →
  (∀ j, j < 0 → cond j = Ret false) →
  ∃ j, while (S (length pattern)) cond (λ j, Ret (j - 1)) (len pattern - 1) = Ret j ∧
       compared text pattern shift j.
Proof.
  intros Hs Hfit Hcond Hneg.
  destruct (while_inv
              (λ j, -1 ≤ j < len pattern ∧
                    ∀ k, j < k < len pattern →
                      ∃ c, zget pattern k = Some c ∧ zget text (shift + k) = Some c)
              (λ j, Z.to_nat (j + 1))
              (S (length pattern)) cond (λ j, Ret (j - 1)) (len pattern - 1))
    as (j & Hrun & [Hj Hall] & Hexit).
  - intros j [Hj Hall]. destruct (decide (j < 0)) as [Hlt|Hge].
    + exists false. split; [by apply Hneg|done].
    + destruct (zget_is_Some pattern j) as [pj Hpj]; [lia|].
      destruct (zget_is_Some text (shift + j)) as [tj Htj]; [lia|].
      eexists. split; [by eapply Hcond|].
      intros Heq%bool_decide_eq_true. subst tj.
      eexists. split; [done|]. split; [|lia]. split; [lia|].
      intros k Hk. destruct (decide (k = j)) as [->|]; [eauto|]. apply Hall. lia.
  - pose proof (len_nonneg pattern). split; [lia|]. intros k Hk. lia.
  - unfold len. lia.
  - exists j. split; [done|]. split; [done|]. split; [done|].
    intros Hj0.
    destruct (zget_is_Some pattern j) as [pj Hpj]; [lia|].
    destruct (zget_is_Some text (shift + j)) as [tj Htj]; [lia|].
    exists pj, tj. repeat split; try done.
    rewrite (Hcond j pj tj Hpj Htj) in Hexit. injection Hexit as Hexit.
    by apply bool_decide_eq_false in Hexit.
Qed.

(** ** Boyer-Moore *)

Lemma compare_backwards_spec text pattern shift :
  0 ≤ shift → shift + len pattern ≤ len text →
  ∃ j, compare_backwards text pattern shift (len pattern - 1) = Ret j ∧
       compared text pattern shift j.
Proof.
  intros Hs Hfit. apply compare_loop_spec; [done..| |].
  - intros j pj tj Hpj Htj. pose proof (zget_range _ _ _ Hpj).
    rewrite decide_True by lia. by py_simpl.
  - intros j Hj. by rewrite decide_False by lia.
Qed.

(** The bad-character shift passes over no occurrence. *)
Lemma bad_char_shift_sound text pattern bad_char shift j c :
  last_index_table pattern (λ i, i) (len pattern) bad_char →
  0 ≤ shift → 0 ≤ j < len pattern → zget text (shift + j) = Some c →
  ∀ s, shift < s < shift + Z.max 1 (j - dict_get_default c (-1) bad_char) →
       ¬ occurs_at text pattern s.
Proof.
  intros Htab Hs Hj Hc s Hrange [_ Hocc]%occurs_at_agree.
  specialize (Htab c). unfold dict_get_default in Hrange.
  destruct (dict_get c bad_char) as [v|].
  - destruct Htab as (i0 & -> & Hi0 & _ & Hlast).
    destruct (Hocc (shift + j)) as (c' & Hc1 & Hc2); [lia|].
    assert (c' = c) as -> by congruence.
    apply (Hlast (shift + j - s)); [|done]. lia.
  - destruct (Hocc (shift + j)) as (c' & Hc1 & Hc2); [lia|].
    assert (c' = c) as -> by congruence.
    apply (Htab (shift + j - s)); [|done]. lia.
Qed.

Lemma boyer_moore_step text pattern bad_char st :
  pattern ≠ [] →
  last_index_table pattern (λ i, i) (len pattern) bad_char →
  0 ≤ st.1 ∧ st.2 = occurrences_below text pattern st.1 →
  st.1 ≤ len text - len pattern →
  ∃ st', boyer_moore_body text pattern bad_char st = Ret st' ∧
    (0 ≤ st'.1 ∧ st'.2 = occurrences_below text pattern st'.1) ∧
    (Z.to_nat (len text - len pattern + 1 - st'.1) <
     Z.to_nat (len text - len pattern + 1 - st.1))%nat.
Proof.
  destruct st as [shift matches]. simpl. intros Hne Htab [Hs ->] Hfit.
  unfold boyer_moore_body.
  destruct (compare_backwards_spec text pattern shift) as (j & -> & Hcmp); [lia..|].
  py_simpl. destruct (decide (j < 0)) as [Hj|Hj].
  - assert (j = -1) as -> by (destruct Hcmp; lia).
    eexists. split; [done|]. simpl. split; [|lia]. split; [lia|].
    rewrite occurrences_below_succ by lia.
    by rewrite decide_True by by apply compared_full.
  - destruct Hcmp as (Hjm & Hall & Hmis).
    destruct (Hmis ltac:(lia)) as (pj & tj & Hpj & Htj & Hneq).
    py_simpl. eexists. split; [done|]. simpl. split; [|lia]. split; [lia|].
    symmetry. apply occurrences_below_skip; [lia|].
    intros s Hrange. destruct (decide (s = shift)) as [->|].
    + apply (compared_mismatch text pattern shift j); [lia|done].
    + eapply bad_char_shift_sound; [done|done| |done|]; lia.
Qed.

Lemma boyer_moore_search_correct text pattern :
  boyer_moore_search text pattern = Ret (occurrences text pattern).
Proof.
  unfold boyer_moore_search. case_decide as Hne.
  { unfold occurrences. by rewrite decide_True. }
  pose proof (len_pos _ Hne) as Hm. pose proof (len_nonneg text) as Hn.
  destruct (last_index_table_build pattern (λ i, i) (len pattern))
    as (bad_char & Hbuild & Htab); [lia|].
  unfold bad_char_table. rewrite Hbuild. py_simpl.
  destruct (while_inv
              (λ st : Z * list Z, 0 ≤ st.1 ∧ st.2 = occurrences_below text pattern st.1)
              (λ st, Z.to_nat (len text - len pattern + 1 - st.1))
              (S (length text))
              (λ '(shift, _), Ret (bool_decide (shift ≤ len text - len pattern)))
              (boyer_moore_body text pattern bad_char)
              (0, []))
    as ([shift matches] & Hrun & [Hs Hmatches] & Hexit).
  - intros [shift matches] Hinv. eexists. split; [done|].
    intros Hc%bool_decide_eq_true. by apply boyer_moore_step.
  - done.
  - simpl. unfold len in *. lia.
  - rewrite Hrun. py_simpl. f_equal. simpl in *. subst matches.
    injection Hexit as Hexit. apply bool_decide_eq_false in Hexit.
    apply occurrences_below_end; [done|lia..].
Qed.

(** ** Boyer-Moore-Horspool *)

Lemma horspool_compare_spec text pattern i :
  0 ≤ i → i + len pattern ≤ len text →
  ∃ j, horspool_compare text pattern i (len pattern - 1) = Ret j ∧
       compared text pattern i j.
Proof.
  intros Hs Hfit. apply compare_loop_spec; [done..| |].
  - intros j pj tj Hpj Htj. pose proof (zget_range _ _ _ Hpj).
    rewrite decide_True by lia. py_simpl. f_equal.
    apply bool_decide_ext. split; congruence.
  - intros j Hj. by rewrite decide_False by lia.
Qed.

(** The Horspool shift is positive and passes over no occurrence. *)
Lemma horspool_shift_sound text pattern skip i c :
  last_index_table pattern (λ k, len pattern - k - 1) (len pattern - 1) skip →
  1 ≤ len pattern → 0 ≤ i → zget text (i + len pattern - 1) = Some c →
  1 ≤ dict_get_default c (len pattern) skip ∧
  ∀ s, i < s < i + dict_get_default c (len pattern) skip →
       ¬ occurs_at text pattern s.
Proof.
  intros Htab Hm Hi Hc. specialize (Htab c). unfold dict_get_default.
  pose proof (zget_range _ _ _ Hc) as Hr.
  destruct (dict_get c skip) as [v|].
  - destruct Htab as (i0 & -> & Hi0 & _ & Hlast). split; [lia|].
    intros s Hrange [_ Hocc]%occurs_at_agree.
    destruct (Hocc (i + len pattern - 1)) as (c' & Hc1 & Hc2); [lia|].
    assert (c' = c) as -> by congruence.
    apply (Hlast (i + len pattern - 1 - s)); [|done]. lia.
  - split; [lia|].
    intros s Hrange [_ Hocc]%occurs_at_agree.
    destruct (Hocc (i + len pattern - 1)) as (c' & Hc1 & Hc2); [lia|].
    assert (c' = c) as -> by congruence.
    apply (Htab (i + len pattern - 1 - s)); [|done]. lia.
Qed.

Lemma horspool_step text pattern skip st :
  pattern ≠ [] →
  last_index_table pattern (λ k, len pattern - k - 1) (len pattern - 1) skip →
  0 ≤ st.1 ∧ st.2 = occurrences_below text pattern st.1 →
  st.1 ≤ len text - len pattern →
  ∃ st', horspool_body text pattern skip st = Ret st' ∧
    (0 ≤ st'.1 ∧ st'.2 = occurrences_below text pattern st'.1) ∧
    (Z.to_nat (len text - len pattern + 1 - st'.1) <
     Z.to_nat (len text - len pattern + 1 - st.1))%nat.
Proof.
  destruct st as [i matches]. simpl. intros Hne Htab [Hs ->] Hfit.
  pose proof (len_pos _ Hne) as Hm.
  unfold horspool_body.
  destruct (horspool_compare_spec text pattern i) as (j & -> & Hcmp); [lia..|].
  py_simpl. destruct (decide (j < 0)) as [Hj|Hj].
  - assert (j = -1) as -> by (destruct Hcmp; lia).
    eexists. split; [done|]. simpl. split; [|lia]. split; [lia|].
    rewrite occurrences_below_succ by lia.
    by rewrite decide_True by by apply compared_full.
  - destruct (zget_is_Some text (i + len pattern - 1)) as [c Hc]; [lia|].
    destruct (horspool_shift_sound text pattern skip i c) as [Hpos Hskip]; [done|lia|done..|].
    py_simpl. eexists. split; [done|]. simpl. split; [|lia]. split; [lia|].
    symmetry. apply occurrences_below_skip; [lia|].
    intros s Hrange. destruct (decide (s = i)) as [->|].
    + apply (compared_mismatch text pattern i j); [lia|done].
    + apply Hskip. lia.
Qed.

Lemma boyer_moore_horspool_search_correct text pattern :
  boyer_moore_horspool_search text pattern = Ret (occurrences text pattern).
Proof.
  unfold boyer_moore_horspool_search. case_decide as Hne.
  { unfold occurrences. by rewrite decide_True. }
  pose proof (len_pos _ Hne) as Hm. pose proof (len_nonneg text) as Hn.
  destruct (last_index_table_build pattern (λ k, len pattern - k - 1) (len pattern - 1))
    as (skip & Hbuild & Htab); [lia|].
  unfold horspool_skip_table. rewrite Hbuild. py_simpl.
  destruct (while_inv
              (λ st : Z * list Z, 0 ≤ st.1 ∧ st.2 = occurrences_below text pattern st.1)
              (λ st, Z.to_nat (len text - len pattern + 1 - st.1))
              (S (length text))
              (λ '(i, _), Ret (bool_decide (i ≤ len text - len pattern)))
              (horspool_body text pattern skip)
              (0, []))
    as ([i matches] & Hrun & [Hs Hmatches] & Hexit).
  - intros [i matches] Hinv. eexists. split; [done|].
    intros Hc%bool_decide_eq_true. by apply horspool_step.
  - done.
  - simpl. unfold len in *. lia.
  - rewrite Hrun. py_simpl. f_equal. simpl in *. subst matches.
    injection Hexit as Hexit. apply bool_decide_eq_false in Hexit.
    apply occurrences_below_end; [done|lia..].
Qed.
End scanners.

(** ** Slices and windows *)

Lemma slice_window {A} (text : list A) m i :
  0 ≤ i → 0 ≤ m → i + m ≤ len text → slice text i (i + m) = window text m i.
Proof.
  intros Hi Hm Hfit. unfold slice, window, clamp_index.
  rewrite !decide_False by lia. rewrite !Z.min_l by lia.
  by replace (i + m - i) with m by lia.
Qed.

Lemma slice_to_window {A} (text : list A) m :
  0 ≤ m ≤ len text → slice_to text m = window text m 0.
Proof.
  intros Hm. unfold slice_to, window, clamp_index.
  rewrite decide_False by lia. rewrite Z.min_l by lia. done.
Qed.

Lemma slice_to_nonneg {A} (l : list A) k : 0 ≤ k → slice_to l k = take (Z.to_nat k) l.
Proof.
  intros Hk. unfold slice_to, clamp_index. rewrite decide_False by lia.
  destruct (decide (k ≤ len l)).
  - by rewrite Z.min_l by lia.
  - rewrite Z.min_r by lia. unfold len. rewrite Nat2Z.id.
    rewrite !take_ge; [done|unfold len in *; lia|lia].
Qed.

Lemma slice_to_neg {A} (l : list A) k :
  k < 0 → slice_to l k = take (length l - Z.to_nat (- k)) l.
Proof.
  intros Hk. unfold slice_to, clamp_index. rewrite decide_True by lia.
  f_equal. unfold len. lia.
Qed.

Lemma occurs_at_window {A} (text pattern : list A) i :
  occurs_at text pattern i ↔ 0 ≤ i ∧ window text (len pattern) i = pattern.
Proof. unfold occurs_at, window, len. by rewrite Nat2Z.id. Qed.

Lemma window_shift {A} (text : list A) m i x y :
  1 ≤ m → 0 ≤ i → zget text i = Some x → zget text (i + m) = Some y →
  ∃ w, len w = m - 1 ∧ window text m i = x :: w ∧ window text m (i + 1) = w ++ [y].
Proof.
  intros Hm Hi [_ Hx]%zget_Some Hy. pose proof (zget_range _ _ _ Hy) as Hr.
  apply zget_Some in Hy as [_ Hy].
  exists (take (Z.to_nat (m - 1)) (drop (Z.to_nat (i + 1)) text)).
  unfold window. repeat split.
  - unfold len in *. rewrite length_take, length_drop. lia.
  - rewrite (drop_S _ _ _ Hx).
    replace (Z.to_nat m) with (S (Z.to_nat (m - 1))) by lia. simpl.
    do 2 f_equal. f_equal. lia.
  - replace (Z.to_nat m) with (S (Z.to_nat (m - 1))) by lia.
    apply take_S_r. rewrite lookup_drop. rewrite <- Hy. f_equal. lia.
Qed.

(** ** The rolling hash *)

Section rolling_hash.
Context {char : Type} `{!Alphabet char}.
Implicit Types text pattern w : list char.

Lemma mod_eq_of_diff a b q : (∃ k, a = b + k * q) → a `mod` q = b `mod` q.
Proof. intros [k ->]. apply Z_mod_plus_full. Qed.

Lemma rolling_hash_snoc w y b q :
  rolling_hash (w ++ [y]) b q = (rolling_hash w b q * b + ord y) `mod` q.
Proof. unfold rolling_hash. by rewrite foldl_app. Qed.

Lemma rolling_hash_cons x w b q :
  q ≠ 0 →
  rolling_hash (x :: w) b q = (ord x * b ^ len w + rolling_hash w b q) `mod` q.
Proof.
  intros Hq. induction w as [|y w IH] using rev_ind.
  - unfold rolling_hash, len. simpl. f_equal. rewrite Z.pow_0_r. lia.
  - rewrite app_comm_cons, !rolling_hash_snoc, IH.
    rewrite len_app. change (len [y]) with 1.
    rewrite Z.pow_add_r by (pose proof (len_nonneg w); lia).
    apply mod_eq_of_diff.
    exists (b * (- ((ord x * b ^ len w + rolling_hash w b q) / q))
            + (rolling_hash w b q * b + ord y) / q).
    rewrite !Z.mod_eq by done. ring.
Qed.

(** Sliding the window by one position updates the hash. *)
Lemma rolling_hash_slide x w y b q :
  0 < q →
  let h := (b ^ len w) `mod` q in
  let text_hash := rolling_hash (x :: w) b q in
  let text_hash := (text_hash - ord x * h) `mod` q in
  let text_hash := (text_hash * b + ord y) `mod` q in
  (text_hash + q) `mod` q = rolling_hash (w ++ [y]) b q.
Proof.
  intros Hq. cbv zeta. rewrite rolling_hash_snoc, rolling_hash_cons by lia.
  transitivity (((rolling_hash w b q * b + ord y) `mod` q) `mod` q);
    [|by rewrite Z.mod_mod by lia].
  apply mod_eq_of_diff. exists 1. rewrite Z.mul_1_l. f_equal.
  apply mod_eq_of_diff.
  set (A := ord x * b ^ len w + rolling_hash w b q).
  set (B := A `mod` q - ord x * (b ^ len w `mod` q)).
  exists (b * (ord x * (b ^ len w / q) - A / q - B / q)).
  rewrite (Z.mod_eq B) by lia. unfold B, A.
  rewrite !Z.mod_eq by lia. ring.
Qed.

(** ** Rabin-Karp *)

Lemma rabin_karp_step text pattern st i :
  pattern ≠ [] → 0 ≤ i ≤ len text - len pattern →
  rabin_karp_inv text pattern i st →
  ∃ st',
    rabin_karp_body text pattern 256 101 ((256 ^ (len pattern - 1)) `mod` 101)
      (rolling_hash pattern 256 101) st i = Ret st' ∧
    rabin_karp_inv text pattern (i + 1) st' ∧
    (* a position is recorded exactly when the hashes are equal and the
       window equals the pattern *)
    st'.2 = st.2 ++
      (if decide (rolling_hash pattern 256 101 = st.1) then
         if decide (slice text i (i + len pattern) = pattern) then [i] else []
       else []).
Proof.
  destruct st as [text_hash matches]. intros Hne Hi [Hhash Hm]. simpl in *.
  pose proof (len_pos _ Hne) as Hpos. specialize (Hhash ltac:(lia)).
  unfold rabin_karp_body.
  set (matches' := if decide (rolling_hash pattern 256 101 = text_hash) then _ else _).
  assert (matches' = occurrences_below text pattern (i + 1) ∧
          matches' = matches ++
            (if decide (rolling_hash pattern 256 101 = text_hash) then
               if decide (slice text i (i + len pattern) = pattern) then [i] else []
             else [])) as [Hm' Hrec].
  { unfold matches'. rewrite occurrences_below_succ by lia. rewrite <- Hm.
    rewrite slice_window by lia.
    destruct (decide (rolling_hash pattern 256 101 = text_hash)) as [Heq|Hneq].
    - destruct (decide (window text (len pattern) i = pattern)) as [Hw|Hw].
      + rewrite decide_True; [done|]. apply occurs_at_window. split; [lia|done].
      + rewrite decide_False; [by rewrite app_nil_r|].
        intros [_ ?]%occurs_at_window. done.
    - rewrite decide_False; [by rewrite app_nil_r|].
      intros [_ Hw]%occurs_at_window. apply Hneq. by rewrite Hhash, Hw. }
  clearbody matches'. cbv zeta.
  destruct (decide (i < len text - len pattern)) as [Hlt|Hlast].
  - destruct (zget_is_Some text i) as [x Hx]; [lia|].
    destruct (zget_is_Some text (i + len pattern)) as [y Hy]; [lia|].
    py_simpl. eexists. split; [done|]. split; [|done]. split; [|done].
    intros _. simpl.
    destruct (window_shift text (len pattern) i x y) as (w & Hlen & Hw & Hw');
      [lia|lia|done..|].
    rewrite Hw'. rewrite Hhash, Hw. rewrite <- Hlen.
    by apply rolling_hash_slide.
  - eexists. split; [done|]. split; [|done]. split; [|done].
    intros ?. simpl. lia.
Qed.

Lemma rabin_karp_search_correct text pattern :
  rabin_karp_search text pattern = Ret (occurrences text pattern).
Proof.
  unfold rabin_karp_search. case_decide as Hne.
  { unfold occurrences. by rewrite decide_True. }
  pose proof (len_pos _ Hne) as Hm. pose proof (len_nonneg text) as Hn.
  cbv zeta. destruct (decide (len pattern > len text)) as [Hlong|Hfit].
  { f_equal. rewrite <- (occurrences_below_end text pattern 0) by (done || lia). done. }
  destruct (for_range_inv (rabin_karp_inv text pattern)
              (len text - len pattern + 1)
              (rabin_karp_body text pattern 256 101
                 ((256 ^ (len pattern - 1)) `mod` 101) (rolling_hash pattern 256 101))
              (rolling_hash (slice_to text (len pattern)) 256 101, []))
    as ([text_hash matches] & Hrun & [_ Hmatches]).
  - lia.
  - split; [|done]. intros _. simpl. by rewrite slice_to_window by lia.
  - intros i st Hi Hinv.
    destruct (rabin_karp_step text pattern st i) as (st' & ? & ? & _); [done|lia|done|].
    eauto.
  - rewrite Hrun. py_simpl. f_equal. simpl in Hmatches. subst matches.
    apply occurrences_below_end; [done|lia..].
Qed.
End rolling_hash.

Section trie.
Context {char : Type} `{!Alphabet char}.
Implicit Types (goto : dict (Z * char) Z) (w p : list char) (s v : Z).

Lemma nonempty_opt_Some {A} (l k : list A) :
  nonempty_opt l = Some k ↔ l = k ∧ l ≠ [].
Proof. destruct l; simpl; naive_solver. Qed.

Lemma nonempty_opt_None {A} (l : list A) : nonempty_opt l = None ↔ l = [].
Proof. by destruct l. Qed.

Lemma walk_app goto s w w' :
  walk goto s (w ++ w') = walk goto s w ≫= λ s', walk goto s' w'.
Proof.
  revert s. induction w as [|c w IH]; intros s; simpl; [done|].
  destruct (dict_get (s, c) goto); [apply IH|done].
Qed.

Lemma walk_snoc goto s w c v :
  walk goto s (w ++ [c]) = Some v ↔
  ∃ s', walk goto s w = Some s' ∧ dict_get (s', c) goto = Some v.
Proof.
  rewrite walk_app. destruct (walk goto s w) as [s'|]; simpl.
  - destruct (dict_get (s', c) goto) eqn:E; naive_solver.
  - naive_solver.
Qed.

Lemma node_nil goto s : node goto [] s ↔ s = 0.
Proof. unfold node. simpl. naive_solver. Qed.

Lemma node_snoc goto w c v :
  node goto (w ++ [c]) v ↔ ∃ s, node goto w s ∧ dict_get (s, c) goto = Some v.
Proof. apply walk_snoc. Qed.

Lemma node_fun goto w s s' : node goto w s → node goto w s' → s = s'.
Proof. unfold node. congruence. Qed.

Lemma in_trie_node goto w : in_trie goto w ↔ ∃ s, node goto w s.
Proof. done. Qed.

Lemma in_trie_prefix goto w w' : in_trie goto (w ++ w') → in_trie goto w.
Proof.
  unfold in_trie. rewrite walk_app. destruct (walk goto 0 w); [done|].
  simpl. by intros [].
Qed.

Lemma node_bound goto w v : trie goto → node goto w v → len w ≤ v ∧ v ≤ len goto.
Proof.
  intros Ht. revert v. induction w as [|c w IH] using rev_ind; intros v.
  - intros ->%node_nil. pose proof (len_nonneg goto). split; [done|lia].
  - intros (s & Hs & Hv)%node_snoc. apply IH in Hs.
    apply (trie_edge _ Ht) in Hv. rewrite len_app. change (len [c]) with 1. lia.
Qed.

Lemma node_root goto w : trie goto → node goto w 0 → w = [].
Proof.
  intros Ht Hw. apply node_bound in Hw; [|done]. apply len_nil_inv.
  pose proof (len_nonneg w). lia.
Qed.

Lemma node_inj goto w w' v : trie goto → node goto w v → node goto w' v → w = w'.
Proof.
  intros Ht. revert w' v. induction w as [|c w IH] using rev_ind; intros w' v.
  - intros ->%node_nil Hw'. symmetry. by eapply node_root.
  - intros (s & Hs & Hv)%node_snoc Hw'.
    destruct w' as [|c' w' _] using rev_ind.
    + apply node_nil in Hw' as ->. apply (trie_edge _ Ht) in Hv. lia.
    + apply node_snoc in Hw' as (s' & Hs' & Hv').
      destruct (trie_inj _ Ht _ _ _ _ _ Hv Hv') as [-> ->].
      f_equal. by eapply IH.
Qed.

Lemma extends_refl goto : extends goto goto.
Proof. by intros ??. Qed.

Lemma extends_trans goto1 goto2 goto3 :
  extends goto1 goto2 → extends goto2 goto3 → extends goto1 goto3.
Proof. intros H1 H2 k v ?. by apply H2, H1. Qed.

Lemma extends_walk goto goto' s w v :
  extends goto goto' → walk goto s w = Some v → walk goto' s w = Some v.
Proof.
  intros Hext. revert s. induction w as [|c w IH]; intros s; simpl; [done|].
  destruct (dict_get (s, c) goto) as [s'|] eqn:E; [|done].
  rewrite (Hext _ _ E). apply IH.
Qed.

Lemma extends_node goto goto' w v : extends goto goto' → node goto w v → node goto' w v.
Proof. apply extends_walk. Qed.

Lemma extends_in_trie goto goto' w : extends goto goto' → in_trie goto w → in_trie goto' w.
Proof. intros Hext [v Hv]. exists v. by eapply extends_walk. Qed.

(** A word of the old trie keeps its node. *)
Lemma extends_node_inv goto goto' w v :
  extends goto goto' → in_trie goto w → node goto' w v → node goto w v.
Proof.
  intros Hext [v' Hv'] Hv. pose proof (extends_node _ _ _ _ Hext Hv') as Hv''.
  by rewrite (node_fun _ _ _ _ Hv Hv'').
Qed.

(** *** Entering a pattern *)

Lemma trie_step_spec goto cur c :
  trie goto → 0 ≤ cur ≤ len goto →
  ∃ goto' cur',
    trie_step (goto, cur) c = Ret (goto', cur') ∧
    trie goto' ∧ extends goto goto' ∧
    dict_get (cur, c) goto' = Some cur' ∧ 0 ≤ cur' ≤ len goto'.
Proof.
  intros Ht Hcur. unfold trie_step.
  destruct (dict_mem (cur, c) goto) eqn:Hmem.
  - apply dict_mem_true in Hmem as [v Hv].
    rewrite (dict_getitem_Some _ _ _ Hv). py_simpl.
    exists goto, v. split; [done|]. split; [done|].
    split; [apply extends_refl|]. split; [done|].
    apply (trie_edge _ Ht) in Hv. lia.
  - apply dict_mem_false in Hmem. cbv zeta.
    rewrite (dict_getitem_Some _ (len goto + 1)) by apply dict_get_set_eq. py_simpl.
    assert (len (dict_set (cur, c) (len goto + 1) goto) = len goto + 1) as Hlen.
    { rewrite dict_set_fresh by done. rewrite len_app. done. }
    eexists _, _. split; [done|]. split; [split|].
    + intros s c' v. rewrite Hlen, dict_get_set. case_decide as Hk.
      * intros [= <-]. injection Hk as -> ->. lia.
      * intros Hv%(trie_edge _ Ht). lia.
    + intros s c1 s' c2 v. rewrite !dict_get_set.
      destruct (decide ((s, c1) = (cur, c))) as [Hk1|Hk1];
        destruct (decide ((s', c2) = (cur, c))) as [Hk2|Hk2].
      * by simplify_eq.
      * intros [= <-] Hv%(trie_edge _ Ht). lia.
      * intros Hv%(trie_edge _ Ht) [= <-]. lia.
      * apply (trie_inj _ Ht).
    + split; [|split; [apply dict_get_set_eq|lia]].
      intros k v Hv. rewrite dict_get_set_ne; [done|]. intros ->. congruence.
Qed.

Lemma trie_insert_spec goto pattern :
  trie goto →
  ∃ goto' cur,
    for_each pattern trie_step (goto, 0) = Ret (goto', cur) ∧
    trie goto' ∧ extends goto goto' ∧ node goto' pattern cur.
Proof.
  intros Ht.
  destruct (for_each_inv
              (λ l1 (st : dict (Z * char) Z * Z),
                 trie st.1 ∧ extends goto st.1 ∧ node st.1 l1 st.2)
              pattern trie_step (goto, 0))
    as ([goto' cur] & Hrun & Ht' & Hext & Hnode).
  - simpl. split; [done|]. split; [apply extends_refl|done].
  - intros l1 c l2 [goto1 cur1] _ (Ht1 & Hext1 & Hnode1). simpl in *.
    destruct (trie_step_spec goto1 cur1 c) as (goto2 & cur2 & Hstep & Ht2 & Hext2 & Hget & _).
    { done. } { apply node_bound in Hnode1; [|done]. pose proof (len_nonneg l1). lia. }
    eexists. split; [done|]. simpl. split; [done|].
    split; [by eapply extends_trans|].
    apply node_snoc. exists cur1. split; [|done]. by eapply extends_node.
  - by exists goto', cur.
Qed.

(** *** The [goto] and [output] tables after all patterns are entered *)

Lemma output_append_spec state pattern (output : dict Z (list (list char))) :
  ∃ output',
    output_append state pattern output = Ret output' ∧
    dict_get state output' =
      Some (default [] (dict_get state output) ++ [pattern]) ∧
    ∀ v, v ≠ state → dict_get v output' = dict_get v output.
Proof.
  unfold output_append. destruct (dict_mem state output) eqn:Hmem.
  - apply dict_mem_true in Hmem as [l Hl].
    rewrite (dict_getitem_Some _ _ _ Hl). py_simpl. eexists. split; [done|].
    rewrite Hl. simpl. split; [apply dict_get_set_eq|].
    intros v Hv. by apply dict_get_set_ne.
  - apply dict_mem_false in Hmem.
    rewrite (dict_getitem_Some _ []) by apply dict_get_set_eq. py_simpl.
    eexists. split; [done|]. rewrite Hmem. simpl.
    split; [apply dict_get_set_eq|].
    intros v Hv. by rewrite !dict_get_set_ne.
Qed.

Lemma own_app patterns p w :
  own (patterns ++ [p]) w = own patterns w ++ (if decide (p = w) then [p] else []).
Proof. unfold own. rewrite filter_app. f_equal. Qed.

Lemma own_nil_not_in patterns w : w ∉ patterns → own patterns w = [].
Proof.
  intros Hw. apply filter_none. apply Forall_forall. intros p Hp ->. done.
Qed.

Lemma insert_pattern_spec patterns goto output pattern :
  trie goto → Forall (in_trie goto) patterns → own_output patterns goto output →
  ∃ goto' output',
    insert_pattern (goto, output) pattern = Ret (goto', output') ∧
    trie goto' ∧ extends goto goto' ∧
    Forall (in_trie goto') (patterns ++ [pattern]) ∧
    own_output (patterns ++ [pattern]) goto' output'.
Proof.
  intros Ht Hin [Hown Hkeys]. unfold insert_pattern.
  destruct (trie_insert_spec goto pattern Ht) as (goto' & cur & -> & Ht' & Hext & Hcur).
  py_simpl.
  destruct (output_append_spec cur pattern output) as (output' & -> & Hget & Hother).
  py_simpl. exists goto', output'. split; [done|]. split; [done|]. split; [done|].
  assert (∀ v w, node goto' w v → ¬ node goto w v →
            dict_get v output = None ∧ own patterns w = []) as Hnew.
  { intros v w Hw Hnw. split.
    - destruct (dict_get v output) eqn:E; [|done]. exfalso.
      destruct (Hkeys v) as [w' Hw']; [by rewrite E|].
      pose proof (extends_node _ _ _ _ Hext Hw') as Hw''.
      by rewrite (node_inj _ _ _ _ Ht' Hw Hw'') in Hnw.
    - apply own_nil_not_in. intros Hp. rewrite Forall_forall in Hin.
      apply Hnw. eapply extends_node_inv; [done|by apply Hin|done]. }
  assert (∀ v w, node goto' w v → dict_get v output = nonempty_opt (own patterns w))
    as Hown'.
  { intros v w Hw. destruct (decide (walk goto 0 w = Some v)) as [?|Hnw]; [by apply Hown|].
    destruct (Hnew v w Hw Hnw) as [-> ->]. done. }
  split; [|split].
  - apply Forall_app. split.
    + eapply Forall_impl; [done|]. intros p. by apply extends_in_trie.
    + apply Forall_singleton. by exists cur.
  - intros v w Hw. rewrite own_app. destruct (decide (v = cur)) as [->|Hv].
    + rewrite (node_inj _ _ _ _ Ht' Hw Hcur). rewrite decide_True by done.
      rewrite Hget. rewrite (Hown' _ _ Hcur).
      destruct (own patterns pattern); done.
    + rewrite Hother by done. rewrite decide_False.
      * rewrite app_nil_r. by apply Hown'.
      * intros ->. apply Hv. by eapply node_fun.
  - intros v Hv. destruct (decide (v = cur)) as [->|Hne]; [by exists pattern|].
    rewrite Hother in Hv by done. destruct (Hkeys v Hv) as [w Hw].
    exists w. by eapply extends_node.
Qed.

Lemma trie_empty : trie ([] : dict (Z * char) Z).
Proof. split; intros; done. Qed.

Lemma build_tables_spec (patterns : list (list char)) :
  ∃ goto output,
    for_each patterns insert_pattern ([], []) = Ret (goto, output) ∧
    trie goto ∧ Forall (in_trie goto) patterns ∧ own_output patterns goto output.
Proof.
  destruct (for_each_inv
              (λ l1 (st : dict (Z * char) Z * dict Z (list (list char))),
                 trie st.1 ∧ Forall (in_trie st.1) l1 ∧ own_output l1 st.1 st.2)
              patterns insert_pattern ([], []))
    as ([goto output] & Hrun & Ht & Hin & Hown).
  - simpl. split; [apply trie_empty|]. split; [done|]. split.
    + intros v w Hw. done.
    + intros v [? ?]. done.
  - intros l1 p l2 [goto1 output1] _ (Ht1 & Hin1 & Hown1). simpl in *.
    destruct (insert_pattern_spec l1 goto1 output1 p) as (g & o & ? & ? & ? & ? & ?);
      [done..|].
    eexists. split; [done|]. done.
  - by exists goto, output.
Qed.
End trie.

Lemma while_inv_ghost {S} (I : nat → S → Prop) fuel cond body (s : S) n :
  (∀ n s, I n s → ∃ b, cond s = Ret b ∧
     (b = true → ∃ s' n', body s = Ret s' ∧ I n' s' ∧ (n' < n)%nat)) →
  I n s → (n < fuel)%nat →
  ∃ s' n', while fuel cond body s = Ret s' ∧ I n' s' ∧ cond s' = Ret false.
Proof.
  intros Hstep. revert s n. induction fuel as [|fuel IH]; intros s n HI Hn; [lia|].
  destruct (Hstep n s HI) as (b & Hc & Hb). simpl. rewrite Hc. py_simpl.
  destruct b.
  - destruct (Hb eq_refl) as (s' & n' & Hbody & HI' & Hn'). rewrite Hbody. py_simpl.
    apply (IH s' n'); [done|lia].
  - eauto.
Qed.

(** ** Suffixes *)

Section suffix.
Context {A : Type}.
Implicit Types x z : list A.

Lemma suffix_shorter z1 z2 x :
  z1 `suffix_of` x → z2 `suffix_of` x → (length z1 ≤ length z2)%nat →
  z1 `suffix_of` z2.
Proof.
  intros H1 H2 Hlen. destruct (suffix_weak_total z1 z2 x H1 H2) as [?|H]; [done|].
  by rewrite (suffix_length_eq _ _ H Hlen).
Qed.

Lemma suffix_tail z x : z `suffix_of` x → z ≠ x → z `suffix_of` tail x.
Proof.
  intros [k ->] Hne. destruct k as [|a k]; [done|]. simpl. by apply suffix_app_r.
Qed.

Lemma suffix_of_tail z x : z `suffix_of` tail x → z `suffix_of` x.
Proof. destruct x; [done|]. simpl. apply suffix_cons_r. Qed.

Lemma suffix_snoc_inv z x c :
  z `suffix_of` x ++ [c] → z = [] ∨ ∃ z', z = z' ++ [c] ∧ z' `suffix_of` x.
Proof.
  intros Hz. destruct z as [|a z _] using rev_ind; [by left|]. right.
  pose proof (suffix_snoc_inv_1 _ _ _ _ Hz) as ->.
  exists z. split; [done|]. by eapply suffix_snoc_inv_2.
Qed.

Lemma tail_snoc x c : x ≠ [] → tail (x ++ [c]) = tail x ++ [c].
Proof. by destruct x. Qed.

Lemma length_tail_lt x : x ≠ [] → (length (tail x) < length x)%nat.
Proof. destruct x; [done|]. simpl. lia. Qed.
End suffix.

Section ac_spec.
Context {char : Type} `{!Alphabet char, !SetOrder char}.
Implicit Types (goto : dict (Z * char) Z) (fail : dict Z Z).
Implicit Types (w x z p : list char) (s v : Z) (patterns : list (list char)).

(** ** The longest suffix in the trie *)

Lemma lsw_nil goto : lsw goto [] [].
Proof.
  split; [done|]. split; [by exists 0|].
  intros z' ->%suffix_nil_inv _. done.
Qed.

Lemma suffix_pats_cons patterns w :
  w ≠ [] → suffix_pats patterns w = own patterns w ++ suffix_pats patterns (tail w).
Proof. by destruct w. Qed.

(** Only suffixes in the trie can be patterns. *)
Lemma suffix_pats_lsw goto patterns x z :
  Forall (in_trie goto) patterns → lsw goto x z →
  suffix_pats patterns x = suffix_pats patterns z.
Proof.
  intros Hin. induction x as [|a x IH]; intros (Hsuf & Hz & Hmax).
  - by apply suffix_nil_inv in Hsuf as ->.
  - destruct (decide (z = a :: x)) as [->|Hne]; [done|].
    apply suffix_tail in Hsuf; [|done]. simpl in Hsuf.
    assert (own patterns (a :: x) = []) as Hown.
    { apply own_nil_not_in. intros Hp. rewrite Forall_forall in Hin.
      specialize (Hmax (a :: x) ltac:(done) (Hin _ Hp)).
      apply suffix_length in Hsuf. simpl in Hmax. lia. }
    simpl. rewrite Hown. simpl. apply IH. split; [done|]. split; [done|].
    intros z' Hz' ?. apply Hmax; [|done]. by apply suffix_cons_r.
Qed.

(** The patterns equal to [p] among the suffixes of [w]. *)
Lemma filter_suffix_pats patterns w p :
  filter (λ q, q = p) (suffix_pats patterns w) =
  if decide (p ≠ [] ∧ p `suffix_of` w) then own patterns p else [].
Proof.
  induction w as [|a w IH].
  - simpl. case_decide as H; [|done]. destruct H as [? ->%suffix_nil_inv]. done.
  - simpl. rewrite filter_app, IH. clear IH.
    destruct (decide (p = a :: w)) as [->|Hne].
    + rewrite (decide_False (P := _ ∧ a :: w `suffix_of` w));
        [|intros [_ ?]; by eapply suffix_cons_not].
      rewrite decide_True by done.
      rewrite app_nil_r. unfold own. rewrite list_filter_filter.
      apply list_filter_iff. naive_solver.
    + replace (filter (λ q, q = p) (own patterns (a :: w))) with (@nil (list char)).
      * simpl. apply decide_ext. split.
        -- intros [? ?]. split; [done|]. by apply suffix_cons_r.
        -- intros [? ?]. split; [done|].
           by apply (suffix_tail p (a :: w)).
      * symmetry. apply filter_none. apply Forall_forall.
        intros q [-> _]%list_elem_of_filter. done.
Qed.

(** ** Following failure links *)

Lemma in_trie_snoc goto x s c :
  node goto x s → in_trie goto (x ++ [c]) ↔ is_Some (dict_get (s, c) goto).
Proof.
  intros Hx. split.
  - intros [v (s' & Hs' & Hv)%node_snoc].
    rewrite (node_fun _ _ _ _ Hx Hs'). by exists v.
  - intros [v Hv]. exists v. apply node_snoc. by exists s.
Qed.

Lemma follow_fail_spec goto fail c X x s :
  trie goto → node goto x s → x `suffix_of` X →
  (∀ z', z' `suffix_of` X → in_trie goto (z' ++ [c]) → (length z' ≤ length x)%nat) →
  (∀ v w, node goto w v → w ≠ [] → (length w ≤ length x)%nat →
          fail_link goto fail v w) →
  ∃ s' x',
    follow_fail goto fail c s = Ret s' ∧
    node goto x' s' ∧ x' `suffix_of` X ∧
    (∀ z', z' `suffix_of` X → in_trie goto (z' ++ [c]) →
           (length z' ≤ length x')%nat) ∧
    (s' = 0 ∨ is_Some (dict_get (s', c) goto)).
Proof.
  intros Ht Hx Hsuf Hmax Hfail. unfold follow_fail.
  destruct (while_inv_ghost
              (λ n s, ∃ x1, node goto x1 s ∧ x1 `suffix_of` X ∧
                 (length x1 ≤ length x)%nat ∧ length x1 = n ∧
                 ∀ z', z' `suffix_of` X → in_trie goto (z' ++ [c]) →
                       (length z' ≤ length x1)%nat)
              (S (length goto))
              (λ state, Ret (bool_decide (state ≠ 0) && negb (dict_mem (state, c) goto)))
              (λ state, dict_getitem state fail) s (length x))
    as (s' & n' & Hrun & (x' & Hx' & Hsuf' & _ & _ & Hmax') & Hexit).
  - intros n s1 (x1 & Hx1 & Hsuf1 & Hlen1 & <- & Hmax1).
    eexists. split; [done|].
    intros [Hs1%bool_decide_eq_true Hmem%negb_true_iff]%andb_true_iff.
    apply dict_mem_false in Hmem.
    assert (x1 ≠ []) as Hne by (intros ->; by apply node_nil in Hx1).
    destruct (Hfail s1 x1 Hx1 Hne Hlen1) as (z & f & Hf & Hz & Hzsuf & Hzin & Hzmax).
    exists f, (length z). split; [by apply dict_getitem_Some|].
    pose proof (length_tail_lt x1 Hne) as Hlt.
    pose proof (suffix_length _ _ Hzsuf) as Hzlen.
    split; [|lia]. exists z. split; [done|].
    split. { etrans; [|done]. by apply suffix_of_tail. }
    split; [lia|]. split; [done|].
    intros z' Hz' Hz'c. apply Hzmax.
    + apply suffix_tail.
      * eapply suffix_shorter; [done..|]. by apply Hmax1.
      * intros ->. apply (in_trie_snoc goto x1 s1 c Hx1) in Hz'c as [? ?]. congruence.
    + by eapply in_trie_prefix.
  - exists x. done.
  - apply node_bound in Hx; [|done]. unfold len in Hx. lia.
  - exists s', x'. split; [done|]. split; [done|]. split; [done|]. split; [done|].
    injection Hexit as Hexit. apply andb_false_iff in Hexit as [He|He].
    + left. apply bool_decide_eq_false in He. by destruct (decide (s' = 0)).
    + right. apply negb_false_iff, dict_mem_true in He. done.
Qed.

(** The state entered after following the failure links. *)
Lemma goto_after_fail goto c X x s :
  trie goto → node goto x s → x `suffix_of` X →
  (∀ z', z' `suffix_of` X → in_trie goto (z' ++ [c]) → (length z' ≤ length x)%nat) →
  (s = 0 ∨ is_Some (dict_get (s, c) goto)) →
  match dict_get (s, c) goto with
  | Some v => ∃ z, node goto z v ∧ lsw goto (X ++ [c]) z
  | None => s = 0 ∧ lsw goto (X ++ [c]) []
  end.
Proof.
  intros Ht Hx Hsuf Hmax Hexit.
  destruct (dict_get (s, c) goto) as [v|] eqn:Hv.
  - exists (x ++ [c]). split; [apply node_snoc; by exists s|].
    split; [by apply suffix_snoc|]. split; [exists v; apply node_snoc; by exists s|].
    intros z' [->|(z'' & -> & Hz'')]%suffix_snoc_inv Hin; [simpl; lia|].
    rewrite !length_app. simpl. specialize (Hmax z'' Hz'' Hin). lia.
  - destruct Hexit as [->|[? ?]]; [|done]. split; [done|].
    split; [apply suffix_nil|]. split; [by exists 0|].
    intros z' [->|(z'' & -> & Hz'')]%suffix_snoc_inv Hin; [done|].
    exfalso. apply node_root in Hx as ->; [|done].
    specialize (Hmax z'' Hz'' Hin). destruct z''; [|simpl in Hmax; lia].
    destruct Hin as [v' Hv']. unfold node in Hv'. simpl in Hv'.
    rewrite Hv in Hv'. done.
Qed.

(** ** The characters leaving a state *)

Lemma children_spec goto r c :
  c ∈ children goto r ↔ is_Some (dict_get (r, c) goto).
Proof.
  unfold children, set_iter. rewrite set_order_perm, elem_of_remove_dups.
  rewrite list_elem_of_omap. split.
  - intros ([[s c'] v] & Hin & Hf). case_decide; [|done]. simplify_eq.
    destruct (dict_get (r, c) goto) eqn:E; [done|].
    apply dict_get_None in E. exfalso. apply E.
    apply list_elem_of_fmap. by exists (r, c, v).
  - intros [v Hv]. exists (r, c, v). split; [by apply dict_get_Some_elem|].
    by rewrite decide_True.
Qed.

Lemma children_nodup goto r : NoDup (children goto r).
Proof.
  unfold children, set_iter. rewrite set_order_perm. apply NoDup_remove_dups.
Qed.
End ac_spec.

Section dict_more.
Context {K V : Type} `{EqDecision K}.
Implicit Types d : dict K V.

Lemma dict_set_nodup k v d : NoDup d.*1 → NoDup (dict_set k v d).*1.
Proof.
  intros Hd. destruct (dict_get k d) eqn:E.
  - by rewrite dict_set_keys_mem by by rewrite E.
  - rewrite dict_set_fresh by done. rewrite fmap_app. simpl.
    apply NoDup_app. split; [done|]. split; [|apply NoDup_singleton].
    intros k' Hk' ->%list_elem_of_singleton. by apply dict_get_None in E.
Qed.

Lemma dict_set_len_fresh k v d : dict_get k d = None → len (dict_set k v d) = len d + 1.
Proof. intros E. rewrite dict_set_fresh by done. by rewrite len_app. Qed.

Lemma dict_get_is_Some_key k d : is_Some (dict_get k d) ↔ k ∈ d.*1.
Proof.
  destruct (dict_get k d) eqn:E.
  - split; [|done]. intros _. apply dict_get_Some_elem in E.
    apply list_elem_of_fmap. by eexists (_, _).
  - apply dict_get_None in E. split; [by intros []|done].
Qed.
End dict_more.

Section bfs.
Context {char : Type} `{!Alphabet char, !SetOrder char}.
Variable goto : dict (Z * char) Z.
Variable patterns : list (list char).
Hypothesis Htrie : trie goto.
Hypothesis Hpatterns : Forall (in_trie goto) patterns.
Hypothesis Hnonempty : [] ∉ patterns.

Implicit Types (fail : dict Z Z) (output : dict Z (list (list char))).
Implicit Types (queue : list Z) (w x z : list char) (v r u : Z).

Lemma own_empty_word : own patterns [] = [].
Proof. by apply own_nil_not_in. Qed.

Lemma node_len_ne w v w' v' : node goto w v → node goto w' v' → len w ≠ len w' → v ≠ v'.
Proof. intros Hw Hw' Hlen ->. apply Hlen. f_equal. by eapply node_inj. Qed.

Lemma bfs_inv_pending pending pending' d queue fail output :
  (∀ v c, is_Some (dict_get (v, c) goto) → (pending v c ↔ pending' v c)) →
  bfs_inv goto patterns pending d queue fail output →
  bfs_inv goto patterns pending' d queue fail output.
Proof.
  intros Hp Hinv. destruct Hinv as [Hfail_nd Hqueue_nd Hqueue_disc Hdisc Hundisc Hdepth Hlevel Hlow Hhigh Hexpanded Hparent].
  split; try done.
  - intros v c u ??? Hnp. eapply Hexpanded; [done..|].
    intros ?. apply Hnp. by apply Hp.
  - intros v c u ? Hu. destruct (Hparent v c u) as [?|(? & ? & Hnp)]; [done..|by left|].
    right. split; [done|]. split; [done|]. intros ?. apply Hnp. by apply Hp.
Qed.

(** The number of discovered states is bounded by the number of states. *)
Lemma bfs_inv_size pending d queue fail output :
  bfs_inv goto patterns pending d queue fail output → len fail ≤ len goto.
Proof.
  intros Hinv. destruct Hinv as [Hfail_nd Hqueue_nd Hqueue_disc Hdisc Hundisc Hdepth Hlevel Hlow Hhigh Hexpanded Hparent].
  assert (fail.*1 ⊆+ seqZ 1 (len goto)) as Hsub.
  { apply NoDup_submseteq; [done|]. intros v Hv%dict_get_is_Some_key.
    destruct (Hdisc v Hv) as (w & Hw & Hne & _).
    pose proof (node_bound _ _ _ Htrie Hw) as Hb.
    pose proof (len_pos _ Hne). apply elem_of_seqZ. lia. }
  apply submseteq_length in Hsub. rewrite length_fmap, length_seqZ in Hsub.
  unfold len in *. lia.
Qed.

(** *** Visiting one child of the state being expanded *)

Lemma bfs_child_spec r w_r d cs1 c u queue fail output :
  node goto w_r r → len w_r = d →
  bfs_inv goto patterns (λ v c', v = r ∧ c' ∉ cs1) d queue fail output →
  is_Some (dict_get r fail) → r ∉ queue →
  c ∉ cs1 → dict_get (r, c) goto = Some u →
  ∃ queue' fail' output',
    bfs_child goto r (queue, fail, output) c = Ret (queue', fail', output') ∧
    bfs_inv goto patterns (λ v c', v = r ∧ c' ∉ cs1 ++ [c]) d queue' fail' output' ∧
    is_Some (dict_get r fail') ∧ r ∉ queue' ∧
    len queue' - len fail' = len queue - len fail.
Proof.
  intros Hr Hd Hinv HrD Hrq Hc Hu. pose proof Hinv as [Hfail_nd Hqueue_nd Hqueue_disc Hdisc Hundisc Hdepth Hlevel Hlow Hhigh Hexpanded Hparent].
  assert (w_r ≠ []) as Hrne.
  { intros ->. change (len []) with 0 in Hd. lia. }
  assert (node goto (w_r ++ [c]) u) as Hwu by (apply node_snoc; by exists r).
  assert (len (w_r ++ [c]) = d + 1) as Hdu by (rewrite len_app; change (len [c]) with 1; lia).
  assert (r ≠ 0) as Hr0 by (intros ->; by apply node_root in Hr).
  assert (dict_get u fail = None) as HuD.
  { destruct (dict_get u fail) eqn:E; [|done]. exfalso.
    destruct (Hparent r c u) as [?|(_ & _ & Hnp)]; [by rewrite E|done|done|].
    by apply Hnp. }
  assert (u ≠ r) as Hur by (intros ->; rewrite HuD in HrD; by destruct HrD).
  destruct (Hdisc r HrD) as (w & Hw & _ & (z & f & Hf & Hz & Hlsw) & _).
  rewrite (node_inj _ _ _ _ Htrie Hw Hr) in Hlsw. clear w Hw.
  assert (len (tail w_r) = d - 1) as Htl.
  { destruct w_r; [done|]. unfold len in *. simpl in *. lia. }
  destruct Hlsw as (Hzsuf & Hzin & Hzmax).
  pose proof (suffix_length _ _ Hzsuf) as Hzlen.
  destruct (follow_fail_spec goto fail c (tail w_r) z f)
    as (s' & x' & Hrun & Hx' & Hsuf' & Hmax' & Hexit); [done..| | |].
  { intros z' Hz' Hin. apply Hzmax; [done|]. by eapply in_trie_prefix. }
  { intros v w Hw Hwne Hlen. pose proof (len_pos _ Hwne).
    destruct (Hlow v w Hw) as [fv Hfv]; [unfold len in *; lia|].
    destruct (Hdisc v) as (w' & Hw' & _ & Hlink & _); [by rewrite Hfv|].
    by rewrite (node_inj _ _ _ _ Htrie Hw' Hw) in Hlink. }
  pose proof (goto_after_fail goto c (tail w_r) x' s' Htrie Hx' Hsuf' Hmax' Hexit) as Hnext.
  rewrite <- tail_snoc in Hnext by done.
  (* the failure link of [u] *)
  assert (∃ fu zz,
            (if dict_mem (s', c) goto then
               f ← dict_getitem (s', c) goto; Ret (dict_set u f fail)
             else Ret (dict_set u 0 fail)) = Ret (dict_set u fu fail) ∧
            node goto zz fu ∧ lsw goto (tail (w_r ++ [c])) zz)
    as (fu & zz & Hfail' & Hzz & Hlzz).
  { unfold dict_mem, dict_getitem. destruct (dict_get (s', c) goto) as [fu|].
    - destruct Hnext as (zz & ? & ?). by exists fu, zz.
    - destruct Hnext as [-> ?]. by exists 0, []. }
  assert (len zz ≤ d) as Hzzlen.
  { destruct Hlzz as (Hs & _). apply suffix_length in Hs.
    rewrite tail_snoc in Hs by done. rewrite length_app in Hs. simpl in Hs.
    unfold len in *. lia. }
  assert (fu ≠ u) as Hfu by (eapply node_len_ne; [done..|lia]).
  (* the output lists of [fu] and [u] *)
  assert (dict_get fu output = nonempty_opt (suffix_pats patterns zz)) as Hofu.
  { destruct (decide (zz = [])) as [->|Hzzne].
    - apply node_nil in Hzz as ->.
      rewrite (Hundisc 0 []); [by rewrite own_empty_word|done|].
      destruct (dict_get 0 fail) eqn:E; [|done].
      destruct (Hdisc 0) as (w & Hw & Hne & _); [by rewrite E|].
      by apply node_root in Hw.
    - pose proof (len_pos _ Hzzne).
      destruct (Hlow fu zz Hzz) as [ffu Hffu]; [lia|].
      destruct (Hdisc fu) as (w' & Hw' & _ & _ & Hout); [by rewrite Hffu|].
      by rewrite (node_inj _ _ _ _ Htrie Hw' Hzz) in Hout. }
  pose proof (Hundisc u _ Hwu HuD) as Hou.
  assert (suffix_pats patterns (w_r ++ [c]) =
          own patterns (w_r ++ [c]) ++ suffix_pats patterns zz) as Hsp.
  { rewrite suffix_pats_cons by by destruct w_r.
    f_equal. by eapply suffix_pats_lsw. }
  assert (∃ output',
            (if dict_mem fu output then
               let output := if dict_mem u output then output
                             else dict_set u [] output in
               lu ← dict_getitem u output;
               fu' ← dict_getitem u (dict_set u fu fail);
               lf ← dict_getitem fu' output;
               Ret (queue ++ [u], dict_set u fu fail, dict_set u (lu ++ lf) output)
             else Ret (queue ++ [u], dict_set u fu fail, output)) =
            Ret (queue ++ [u], dict_set u fu fail, output') ∧
            dict_get u output' = nonempty_opt (suffix_pats patterns (w_r ++ [c])) ∧
            ∀ v, v ≠ u → dict_get v output' = dict_get v output)
    as (output' & Hprog & Hou' & Hother).
  { rewrite Hsp. unfold dict_mem at 1. rewrite Hofu.
    destruct (suffix_pats patterns zz) as [|p0 l0] eqn:Hl; simpl.
    - exists output. rewrite app_nil_r. done.
    - rewrite (dict_getitem_Some u fu) by apply dict_get_set_eq.
      unfold dict_mem. rewrite Hou.
      destruct (own patterns (w_r ++ [c])) as [|p1 l1] eqn:Hown; simpl.
      + rewrite (dict_getitem_Some u []) by apply dict_get_set_eq. py_simpl.
        rewrite (dict_getitem_Some fu (p0 :: l0))
          by (rewrite dict_get_set_ne by done; by rewrite Hofu).
        py_simpl. eexists. split; [done|]. split; [by rewrite dict_get_set_eq|].
        intros v Hv. by rewrite !dict_get_set_ne.
      + rewrite (dict_getitem_Some u (p1 :: l1)) by done. py_simpl.
        rewrite (dict_getitem_Some fu (p0 :: l0)) by by rewrite Hofu.
        py_simpl. eexists. split; [done|]. split; [by rewrite dict_get_set_eq|].
        intros v Hv. by rewrite !dict_get_set_ne. }
  (* running the body *)
  unfold bfs_child.
  rewrite (dict_getitem_Some _ _ _ Hu). py_simpl.
  rewrite (dict_getitem_Some _ _ _ Hf). py_simpl.
  rewrite Hrun. py_simpl. rewrite Hfail'. py_simpl.
  exists (queue ++ [u]), (dict_set u fu fail), output'.
  split.
  { rewrite (dict_getitem_Some u fu (dict_set u fu fail)) at 1
      by apply dict_get_set_eq.
    py_simpl. cbv zeta in Hprog. exact Hprog. }
  assert (∀ v, is_Some (dict_get v (dict_set u fu fail)) ↔
               v = u ∨ is_Some (dict_get v fail)) as Hdisc'.
  { intros v. rewrite dict_get_set. case_decide; [|naive_solver].
    split; [by left|by eexists]. }
  assert (∀ v w, v ≠ u → fail_link goto fail v w →
                 fail_link goto (dict_set u fu fail) v w) as Hlink'.
  { intros v w Hv (z1 & f1 & ? & ?). exists z1, f1.
    by rewrite dict_get_set_ne. }
  split; [|split; [|split]].
  - destruct Hlevel as (q1 & q2 & Hq & Hq1 & Hq2). split.
    + by apply dict_set_nodup.
    + apply NoDup_app. split; [done|]. split; [|apply NoDup_singleton].
      intros v Hv ->%list_elem_of_singleton.
      apply Hqueue_disc in Hv. rewrite HuD in Hv. by destruct Hv.
    + intros v [Hv| ->%list_elem_of_singleton]%elem_of_app; apply Hdisc'; auto.
    + intros v [->|Hv]%Hdisc'.
      * exists (w_r ++ [c]). split; [done|]. split; [by destruct w_r|].
        split; [|done]. exists zz, fu. by rewrite dict_get_set_eq.
      * assert (v ≠ u) by (intros ->; rewrite HuD in Hv; by destruct Hv).
        destruct (Hdisc v Hv) as (w & ? & ? & ? & ?). exists w.
        split; [done|]. split; [done|]. split; [by apply Hlink'|].
        by rewrite Hother.
    + intros v w Hw Hv. rewrite dict_get_set in Hv. case_decide; [done|].
      rewrite Hother by done. by apply Hundisc.
    + done.
    + exists q1, (q2 ++ [u]). split; [by rewrite Hq, app_assoc|]. split; [done|].
      intros v w [Hv| ->%list_elem_of_singleton]%elem_of_app Hw; [by eapply Hq2|].
      by rewrite (node_inj _ _ _ _ Htrie Hw Hwu).
    + intros v w Hw Hlen. apply Hdisc'. right. by eapply Hlow.
    + intros v w [->|Hv]%Hdisc' Hw.
      * rewrite (node_inj _ _ _ _ Htrie Hw Hwu). lia.
      * by eapply Hhigh.
    + intros v c' u' [->|Hv]%Hdisc' Hvq Hu' Hnp.
      { exfalso. apply Hvq, elem_of_app. right. by apply list_elem_of_singleton. }
      apply Hdisc'. destruct (decide (v = r ∧ c' ∉ cs1)) as [[-> Hc']|Hnp'].
      * left. destruct (decide (c' = c)) as [->|Hcc]; [congruence|].
        exfalso. apply Hnp. split; [done|].
        intros [?| ->%list_elem_of_singleton]%elem_of_app; done.
      * right. eapply Hexpanded; [done| |done|done].
        intros ?. apply Hvq, elem_of_app. by left.
    + intros v c' u' [->|Hu']%Hdisc' Hedge.
      * destruct (trie_inj _ Htrie _ _ _ _ _ Hedge Hu) as [-> ->]. right.
        split; [apply Hdisc'; by right|]. split.
        -- intros [?| ->%list_elem_of_singleton]%elem_of_app; done.
        -- intros [_ Hnc]. apply Hnc, elem_of_app. right.
           by apply list_elem_of_singleton.
      * destruct (Hparent v c' u' Hu' Hedge) as [?|(Hv & Hvq & Hnp)]; [by left|].
        right. split; [apply Hdisc'; by right|]. split.
        -- intros [?| ->%list_elem_of_singleton]%elem_of_app; [done|].
           rewrite HuD in Hv. by destruct Hv.
        -- intros [-> Hnc]. apply Hnp. split; [done|].
           intros ?. apply Hnc, elem_of_app. by left.
  - apply Hdisc'. by right.
  - intros [?| ->%list_elem_of_singleton]%elem_of_app; done.
  - rewrite len_app, dict_set_len_fresh by done. change (len [u]) with 1. lia.
Qed.
End bfs.

Section build.
Context {char : Type} `{!Alphabet char, !SetOrder char}.
Variable goto : dict (Z * char) Z.
Variable patterns : list (list char).
Hypothesis Htrie : trie goto.
Hypothesis Hpatterns : Forall (in_trie goto) patterns.
Hypothesis Hnonempty : [] ∉ patterns.

Implicit Types (fail : dict Z Z) (output : dict Z (list (list char))).
Implicit Types (queue : list Z) (w x z : list char) (v r u : Z).

Abbreviation no_pending := (λ (_ : Z) (_ : char), False).

(** *** Expanding the state at the front of the queue *)

(** When the front of the queue is one level deeper, every state of that
    level has been discovered. *)
Lemma bfs_inv_relevel d queue fail output :
  bfs_inv goto patterns no_pending d queue fail output →
  (∀ v w, v ∈ queue → node goto w v → len w = d + 1) →
  bfs_inv goto patterns no_pending (d + 1) queue fail output.
Proof.
  intros Hinv Hdeep. destruct Hinv as [Hfail_nd Hqueue_nd Hqueue_disc Hdisc Hundisc Hdepth Hlevel Hlow Hhigh Hexpanded Hparent].
  split; try done.
  - lia.
  - exists queue, []. rewrite app_nil_r. split; [done|]. split; [done|].
    intros v w Hv. by apply elem_of_nil in Hv.
  - intros v w Hw Hlen.
    destruct (decide (len w ≤ d)) as [|Hgt]; [eapply Hlow; [done|lia]|].
    destruct w as [|c w _] using rev_ind; [change (len []) with 0 in Hlen; lia|].
    rewrite len_app in Hlen, Hgt. change (len [c]) with 1 in Hlen, Hgt.
    apply node_snoc in Hw as (v0 & Hw0 & Hedge).
    eapply (Hexpanded v0 c v); [|  |done|tauto].
    + eapply Hlow; [done|lia].
    + intros Hv0. specialize (Hdeep _ _ Hv0 Hw0). lia.
  - intros v w Hv Hw. specialize (Hhigh v w Hv Hw). lia.
Qed.

Lemma bfs_inv_pop d r rest fail output :
  bfs_inv goto patterns no_pending d (r :: rest) fail output →
  ∃ d' w_r,
    node goto w_r r ∧ len w_r = d' ∧
    bfs_inv goto patterns (λ v c, v = r ∧ c ∉ []) d' rest fail output ∧
    is_Some (dict_get r fail) ∧ r ∉ rest.
Proof.
  intros Hinv.
  assert (∃ d' q1, bfs_inv goto patterns no_pending d' (r :: rest) fail output ∧
            (∃ q2, rest = q1 ++ q2 ∧
               (∀ v w, v ∈ r :: q1 → node goto w v → len w = d') ∧
               (∀ v w, v ∈ q2 → node goto w v → len w = d' + 1)))
    as (d' & q1 & Hinv1 & q2 & Hrest & Hq1 & Hq2).
  { pose proof Hinv as [Hfail_nd Hqueue_nd Hqueue_disc Hdisc Hundisc Hdepth Hlevel Hlow Hhigh Hexpanded Hparent]. destruct Hlevel as (q1 & q2 & Hq & Hq1 & Hq2).
    destruct q1 as [|r' q1].
    - simpl in Hq. exists (d + 1), rest. split.
      + apply bfs_inv_relevel; [done|]. rewrite Hq. done.
      + exists []. rewrite app_nil_r. split; [done|]. split; [by rewrite Hq in *|].
        intros v w Hv. by apply elem_of_nil in Hv.
    - simpl in Hq. injection Hq as <- ->. exists d, q1. split; [done|].
      by exists q2. }
  destruct Hinv1 as [Hfail_nd Hqueue_nd Hqueue_disc Hdisc Hundisc Hdepth Hlevel Hlow Hhigh Hexpanded Hparent].
  assert (is_Some (dict_get r fail)) as HrD by (apply Hqueue_disc; set_solver).
  destruct (Hdisc r HrD) as (w_r & Hr & _).
  apply NoDup_cons in Hqueue_nd as [Hrq Hnd].
  exists d', w_r. split; [done|]. split; [apply (Hq1 r); [set_solver|done]|].
  split; [|done]. split; try done.
  - intros v Hv. apply Hqueue_disc. set_solver.
  - exists q1, q2. split; [done|]. split; [|done].
    intros v w Hv. apply Hq1. set_solver.
  - intros v c u Hv Hvq Hedge Hnp. eapply Hexpanded; [done| |done|tauto].
    intros [->|?]%elem_of_cons; [|done]. apply Hnp. split; [done|]. set_solver.
  - intros v c u Hu Hedge.
    destruct (Hparent v c u Hu Hedge) as [?|(Hv & Hvq & _)]; [by left|].
    right. split; [done|]. split; [set_solver|]. intros [-> _]. set_solver.
Qed.

Lemma bfs_body_spec d queue fail output :
  queue ≠ [] →
  bfs_inv goto patterns no_pending d queue fail output →
  ∃ queue' fail' output' d',
    bfs_body goto (queue, fail, output) = Ret (queue', fail', output') ∧
    bfs_inv goto patterns no_pending d' queue' fail' output' ∧
    len queue' - len fail' = len queue - 1 - len fail.
Proof.
  intros Hq Hinv. destruct queue as [|r rest]; [done|]. clear Hq.
  destruct (bfs_inv_pop _ _ _ _ _ Hinv) as (d' & w_r & Hr & Hd' & Hinv' & HrD & Hrq).
  unfold bfs_body.
  destruct (for_each_inv
              (λ cs1 (st : list Z * dict Z Z * dict Z (list (list char))),
                 bfs_inv goto patterns (λ v c, v = r ∧ c ∉ cs1) d' st.1.1 st.1.2 st.2 ∧
                 is_Some (dict_get r st.1.2) ∧ r ∉ st.1.1 ∧
                 len st.1.1 - len st.1.2 = len rest - len fail)
              (children goto r) (bfs_child goto r) (rest, fail, output))
    as ([[queue' fail'] output'] & Hrun & Hinv'' & _ & _ & Hlen).
  - done.
  - intros cs1 c cs2 [[queue1 fail1] output1] Hcs (Hinv1 & HrD1 & Hrq1 & Hlen1).
    simpl in *.
    assert (c ∈ children goto r) as Hc by (rewrite Hcs; set_solver).
    apply children_spec in Hc as [u Hu].
    assert (c ∉ cs1) as Hfresh.
    { pose proof (children_nodup goto r) as Hnd. rewrite Hcs in Hnd.
      apply NoDup_app in Hnd as (_ & Hnd & _). intros ?. apply (Hnd c); set_solver. }
    destruct (bfs_child_spec goto patterns Htrie Hpatterns Hnonempty
                r w_r d' cs1 c u queue1 fail1 output1)
      as (queue2 & fail2 & output2 & Hstep & ? & ? & ? & ?); [done..|].
    eexists. split; [done|]. simpl.
    split; [done|]. split; [done|]. split; [done|]. lia.
  - exists queue', fail', output', d'. split; [done|]. simpl in *.
    split; [|unfold len in *; simpl; lia].
    eapply bfs_inv_pending; [|done].
    intros v c Hedge. split; [|done]. intros [-> Hc]. by apply Hc, children_spec.
Qed.

(** *** The whole construction *)

Lemma bfs_init_spec output :
  own_output patterns goto output →
  ∃ queue fail,
    for_each (children goto 0)
      (λ '(queue, fail) c,
         state ← dict_getitem (0, c) goto;
         Ret (queue ++ [state], dict_set state 0 fail))
      ([], []) = Ret (queue, fail) ∧
    bfs_inv goto patterns no_pending 1 queue fail output ∧
    len queue = len fail.
Proof.
  intros [Hown _].
  destruct (for_each_inv
              (λ cs1 (st : list Z * dict Z Z),
                 NoDup st.2.*1 ∧ NoDup st.1 ∧
                 (∀ v, v ∈ st.1 ↔ is_Some (dict_get v st.2)) ∧
                 (∀ v, is_Some (dict_get v st.2) ↔
                       ∃ c, c ∈ cs1 ∧ dict_get (0, c) goto = Some v) ∧
                 (∀ v f, dict_get v st.2 = Some f → f = 0) ∧
                 len st.1 = len st.2)
              (children goto 0)
              (λ '(queue, fail) c,
                 state ← dict_getitem (0, c) goto;
                 Ret (queue ++ [state], dict_set state 0 fail))
              ([], []))
    as ([queue fail] & Hrun & Hnf & Hnq & Hqd & Hdisc & Hzero & Hlen).
  - simpl. split; [constructor|]. split; [constructor|].
    split; [intros v; split; [by intros ?%elem_of_nil|by intros []]|].
    split; [|done]. intros v. split; [by intros []|]. by intros (c & ?%elem_of_nil & _).
  - intros cs1 c cs2 [queue1 fail1] Hcs (Hnf & Hnq & Hqd & Hdisc & Hzero & Hlen).
    simpl in *.
    assert (c ∈ children goto 0) as Hc by (rewrite Hcs; set_solver).
    apply children_spec in Hc as [v Hv].
    assert (c ∉ cs1) as Hfresh.
    { pose proof (children_nodup goto 0) as Hnd. rewrite Hcs in Hnd.
      apply NoDup_app in Hnd as (_ & Hnd & _). intros ?. apply (Hnd c); set_solver. }
    assert (dict_get v fail1 = None) as Hnew.
    { destruct (dict_get v fail1) eqn:E; [|done]. exfalso.
      destruct (proj1 (Hdisc v)) as (c' & Hc' & Hv'); [by rewrite E|].
      destruct (trie_inj _ Htrie _ _ _ _ _ Hv Hv') as [_ ->]. done. }
    rewrite (dict_getitem_Some _ _ _ Hv). py_simpl. eexists. split; [done|]. simpl.
    assert (∀ v', is_Some (dict_get v' (dict_set v 0 fail1)) ↔
                  v' = v ∨ is_Some (dict_get v' fail1)) as Hdisc'.
    { intros v'. rewrite dict_get_set. case_decide; [|naive_solver].
      split; [by left|by eexists]. }
    split; [by apply dict_set_nodup|]. split.
    { apply NoDup_app. split; [done|]. split; [|apply NoDup_singleton].
      intros v' Hv' ->%list_elem_of_singleton.
      apply Hqd in Hv'. rewrite Hnew in Hv'. by destruct Hv'. }
    split.
    { intros v'. rewrite Hdisc', elem_of_app, list_elem_of_singleton, Hqd. tauto. }
    split.
    { intros v'. rewrite Hdisc', Hdisc. split.
      - intros [->|(c' & ? & ?)]; [exists c|exists c']; set_solver.
      - intros (c' & [?| ->%list_elem_of_singleton]%elem_of_app & Hc').
        + right. by exists c'.
        + left. congruence. }
    split.
    { intros v' f. rewrite dict_get_set. case_decide; [congruence|apply Hzero]. }
    rewrite len_app, dict_set_len_fresh by done. change (len [v]) with 1. lia.
  - exists queue, fail. split; [done|]. simpl in *. split; [|done].
    assert (∀ v, is_Some (dict_get v fail) ↔ ∃ c, node goto [c] v) as Hdepth1.
    { intros v. rewrite Hdisc. split.
      - intros (c & _ & Hc). exists c. apply (node_snoc goto [] c v).
        exists 0. by split.
      - intros (c & (s & ->%node_nil & Hc)%(node_snoc goto [] c v)).
        exists c. split; [|done]. apply children_spec. by rewrite Hc. }
    assert (∀ v w, is_Some (dict_get v fail) → node goto w v → len w = 1) as Hlen1.
    { intros v w [c Hc]%Hdepth1 Hw. by rewrite (node_inj _ _ _ _ Htrie Hw Hc). }
    split; try done.
    + intros v Hv. by apply Hqd.
    + intros v Hv. pose proof Hv as [c Hc]%Hdepth1. exists [c].
      split; [done|]. split; [done|]. split.
      * destruct Hv as [f Hf]. exists [], f. split; [done|].
        rewrite (Hzero _ _ Hf). split; [done|]. apply lsw_nil.
      * rewrite (Hown _ _ Hc). simpl. by rewrite app_nil_r.
    + intros v w Hw _. by apply Hown.
    + exists queue, []. rewrite app_nil_r. split; [done|]. split.
      * intros v w Hv%Hqd. by apply Hlen1.
      * intros v w Hv. by apply elem_of_nil in Hv.
    + intros v w Hw Hl. apply Hdepth1.
      destruct w as [|c [|c' w]]; unfold len in Hl; simpl in Hl; try lia.
      by exists c.
    + intros v w Hv Hw. rewrite (Hlen1 v w Hv Hw). lia.
    + intros v c u Hv Hvq. by apply Hqd in Hv.
    + intros v c u [c' (s & ->%node_nil & Hc')%(node_snoc goto [] c' u)]%Hdepth1 Hedge.
      left. by destruct (trie_inj _ Htrie _ _ _ _ _ Hedge Hc').
Qed.

Lemma bfs_loop_spec queue fail output :
  bfs_inv goto patterns no_pending 1 queue fail output → len queue = len fail →
  ∃ queue' fail' output',
    while (S (length goto))
      (λ '(queue, _, _), Ret (bool_decide (queue ≠ [])))
      (bfs_body goto) (queue, fail, output) = Ret (queue', fail', output') ∧
    automaton_ok patterns (Build_AhoCorasick goto fail' output').
Proof.
  intros Hinv Hlen.
  destruct (while_inv
              (λ st : list Z * dict Z Z * dict Z (list (list char)),
                 ∃ d, bfs_inv goto patterns no_pending d st.1.1 st.1.2 st.2)
              (λ st, Z.to_nat (len goto - len st.1.2 + len st.1.1))
              (S (length goto))
              (λ '(queue, _, _), Ret (bool_decide (queue ≠ [])))
              (bfs_body goto) (queue, fail, output))
    as ([[queue' fail'] output'] & Hrun & [d Hfin] & Hexit).
  - intros [[queue1 fail1] output1] [d1 Hinv1]. simpl in *.
    eexists. split; [done|]. intros Hq%bool_decide_eq_true.
    destruct (bfs_body_spec d1 queue1 fail1 output1 Hq Hinv1)
      as (queue2 & fail2 & output2 & d2 & Hstep & Hinv2 & Hlen2).
    eexists. split; [done|]. simpl. split; [by exists d2|].
    pose proof (bfs_inv_size goto patterns Htrie _ _ _ _ _ Hinv1).
    assert (0 < len queue1) by by apply len_pos. lia.
  - by exists 1.
  - simpl. unfold len in *. lia.
  - exists queue', fail', output'. split; [done|]. simpl in *.
    injection Hexit as Hexit. apply bool_decide_eq_false in Hexit.
    assert (queue' = []) as -> by (by destruct queue'; [|exfalso; apply Hexit]).
    destruct Hfin as [Hfail_nd Hqueue_nd Hqueue_disc Hdisc Hundisc Hdepth Hlevel Hlow Hhigh Hexpanded Hparent].
    assert (∀ v w, node goto w v → w ≠ [] → is_Some (dict_get v fail')) as Hall.
    { intros v w. revert v. induction w as [|c w IH] using rev_ind; [done|].
      intros v (v0 & Hw0 & Hedge)%node_snoc _.
      destruct (decide (w = [])) as [->|Hne].
      - eapply Hlow; [apply node_snoc; by exists v0|].
        change (len ([] ++ [c])) with 1. lia.
      - eapply (Hexpanded v0 c v); [by apply IH| |done|tauto].
        by intros ?%elem_of_nil. }
    split; simpl; try done.
    + intros v w Hw Hne. destruct (Hdisc v (Hall v w Hw Hne)) as (w' & Hw' & _ & Hlink & _).
      by rewrite (node_inj _ _ _ _ Htrie Hw' Hw) in Hlink.
    + intros v w Hw. destruct (decide (w = [])) as [->|Hne].
      * apply node_nil in Hw as ->.
        rewrite (Hundisc 0 []); [by rewrite (own_empty_word patterns Hnonempty)|done|].
        destruct (dict_get 0 fail') eqn:E; [|done].
        destruct (Hdisc 0) as (w & Hw & Hwne & _); [by rewrite E|].
        by apply node_root in Hw.
      * destruct (Hdisc v (Hall v w Hw Hne)) as (w' & Hw' & _ & _ & Hout).
        by rewrite (node_inj _ _ _ _ Htrie Hw' Hw) in Hout.
Qed.
End build.

Section build_automaton.
Context {char : Type} `{!Alphabet char, !SetOrder char}.

Lemma build_automaton_spec (patterns : list (list char)) :
  [] ∉ patterns →
  ∃ ac, build_automaton ac_init patterns = Ret ac ∧ automaton_ok patterns ac.
Proof.
  intros Hne. unfold build_automaton, ac_init. cbn [goto fail output].
  destruct (build_tables_spec patterns) as (goto & output & -> & Htrie & Hin & Hown).
  py_simpl.
  edestruct (bfs_init_spec goto patterns) as (queue & fail & Hinit & Hinv & Hlen);
    [done..|].
  rewrite Hinit. py_simpl.
  edestruct (bfs_loop_spec goto patterns) as (queue' & fail' & output' & Hloop & Hok);
    [done..|].
  rewrite Hloop. py_simpl. eauto.
Qed.
End build_automaton.

Lemma repeat_each_nil {A} k : repeat_each k (@nil A) = [].
Proof. done. Qed.

Lemma repeat_each_app {A} k (l1 l2 : list A) :
  repeat_each k (l1 ++ l2) = repeat_each k l1 ++ repeat_each k l2.
Proof. unfold repeat_each. apply bind_app. Qed.

Lemma repeat_each_singleton {A} k (x : A) : repeat_each k [x] = replicate k x.
Proof. unfold repeat_each. simpl. apply app_nil_r. Qed.

Lemma repeat_each_0 {A} (l : list A) : repeat_each 0 l = [].
Proof. induction l as [|x l IH]; [done|]. unfold repeat_each in *. simpl. done. Qed.

Lemma repeat_each_1 {A} (l : list A) : repeat_each 1 l = l.
Proof.
  induction l as [|x l IH]; [done|]. unfold repeat_each in *.
  rewrite bind_cons, IH. done.
Qed.

Lemma replicate_snoc {A} k (x : A) : replicate (S k) x = replicate k x ++ [x].
Proof. induction k as [|k IH]; [done|]. simpl. by rewrite <- IH. Qed.

Lemma multiplicity_not_in {A} `{EqDecision A} (p : A) (l : list A) :
  p ∉ l → multiplicity p l = 0%nat.
Proof.
  intros Hp. unfold multiplicity. rewrite filter_none; [done|].
  apply Forall_forall. by intros q Hq ->.
Qed.

(** ** Occurrences, by the position where they end *)

Section occurrences_end.
Context {A : Type} `{EqDecision A}.
Implicit Types text p : list A.

Lemma occurrences_below_step text p b :
  occurrences_below text p (b + 1) =
  occurrences_below text p b ++ (if decide (occurs_at text p b) then [b] else []).
Proof.
  destruct (decide (0 ≤ b)); [by apply occurrences_below_succ|].
  unfold occurrences_below. rewrite !seqZ_nil by lia.
  rewrite decide_False; [done|]. intros [? _]. lia.
Qed.

Lemma occurrences_below_fit text p :
  p ≠ [] → occurrences_below text p (len text - len p + 1) = occurrences text p.
Proof.
  intros Hne. destruct (decide (0 ≤ len text - len p + 1)).
  - apply occurrences_below_end; [done|lia..].
  - unfold occurrences. rewrite decide_False by done.
    transitivity (occurrences_below text p 0).
    { unfold occurrences_below. by rewrite !seqZ_nil by lia. }
    symmetry. apply occurrences_below_skip; [pose proof (len_nonneg text); lia|].
    intros s Hs Hocc. apply occurs_at_bound in Hocc; [lia|done].
Qed.

Lemma suffix_take_occurs text p i :
  0 ≤ i < len text → p ≠ [] →
  p `suffix_of` take (Z.to_nat (i + 1)) text ↔ occurs_at text p (i + 1 - len p).
Proof.
  intros Hi Hne. unfold occurs_at, len in *. split.
  - intros [k Hk].
    assert (length k + length p = Z.to_nat (i + 1))%nat as Hlen.
    { rewrite <- length_app, <- Hk, length_take. lia. }
    split; [lia|].
    replace (Z.to_nat (i + 1 - Z.of_nat (length p))) with (length k) by lia.
    rewrite <- (take_drop (Z.to_nat (i + 1)) text), Hk, <- app_assoc.
    rewrite drop_app_length. by rewrite take_app_length.
  - intros [Hs Heq].
    exists (take (Z.to_nat (i + 1 - Z.of_nat (length p))) text).
    rewrite <- Heq at 2.
    replace (Z.to_nat (i + 1)) with (Z.to_nat (i + 1 - Z.of_nat (length p)) + length p)%nat by lia.
    rewrite <- (take_drop (Z.to_nat (i + 1 - Z.of_nat (length p))) text) at 1.
    rewrite take_app_add'; [done|].
    rewrite length_take. lia.
Qed.
End occurrences_end.

Section ac_search.
Context {char : Type} `{!Alphabet char, !SetOrder char}.
Implicit Types (text p w x z : list char) (patterns : list (list char)).
Implicit Types (result : dict (list char) (list Z)).

Lemma enumerate_split text (l1 l2 : list (Z * char)) i c :
  enumerate text = l1 ++ (i, c) :: l2 →
  i = len l1 ∧ 0 ≤ i < len text ∧ l1.*2 = take (Z.to_nat i) text ∧
  (l1 ++ [(i, c)]).*2 = take (Z.to_nat (i + 1)) text.
Proof.
  intros Hl. unfold enumerate in Hl.
  assert ((zip (seqZ 0 (len text)) text).*2 = text) as Hsnd.
  { apply snd_zip. rewrite length_seqZ. unfold len. lia. }
  assert ((zip (seqZ 0 (len text)) text).*1 = seqZ 0 (len text)) as Hfst.
  { apply fst_zip. rewrite length_seqZ. unfold len. lia. }
  rewrite Hl in Hsnd, Hfst. rewrite fmap_app in Hsnd. rewrite fmap_app in Hfst.
  simpl in *.
  assert (seqZ 0 (len text) !! length l1 = Some i) as Hi.
  { rewrite <- Hfst. rewrite lookup_app_r by (rewrite length_fmap; lia).
    rewrite length_fmap. by replace (length l1 - length l1)%nat with 0%nat by lia. }
  apply lookup_seqZ in Hi as [-> Hi]. unfold len in *.
  split; [lia|]. split; [lia|].
  replace (Z.to_nat (0 + Z.of_nat (length l1))) with (length l1) by lia.
  replace (Z.to_nat (0 + Z.of_nat (length l1) + 1)) with (S (length l1)) by lia.
  assert (take (length l1) text = l1.*2) as Htake.
  { rewrite <- Hsnd. rewrite <- (length_fmap snd l1). by rewrite take_app_length. }
  assert (text !! length l1 = Some c) as Hlook.
  { rewrite <- Hsnd. rewrite <- (length_fmap snd l1). by rewrite list_lookup_middle. }
  split; [done|].
  rewrite fmap_app. simpl. by rewrite (take_S_r _ _ c Hlook), Htake.
Qed.

(** *** Recording the patterns that end at a position *)

Lemma for_each_cons {B S} (x : B) (l : list B) (body : S → B → py S) (s : S) :
  for_each (x :: l) body s = body s x ≫= for_each l body.
Proof. done. Qed.

Lemma record_match_spec i result q (L : list char → list Z) :
  NoDup result.*1 →
  (∀ p, dict_get p result = nonempty_opt (L p)) →
  ∃ result',
    record_match i result q = Ret result' ∧
    NoDup result'.*1 ∧
    ∀ p, dict_get p result' =
         nonempty_opt (L p ++ if decide (q = p) then [i - len p + 1] else []).
Proof.
  intros Hnd HL. unfold record_match, dict_mem. pose proof (HL q) as Hq.
  destruct (dict_get q result) as [lq|] eqn:E.
  - rewrite (dict_getitem_Some _ _ _ E). py_simpl.
    eexists. split; [done|]. split; [by apply dict_set_nodup|].
    intros p. rewrite dict_get_set. destruct (decide (p = q)) as [->|Hp].
    + rewrite decide_True by done.
      symmetry in Hq. apply nonempty_opt_Some in Hq as [-> _].
      by destruct lq.
    + rewrite decide_False by done. by rewrite app_nil_r.
  - rewrite (dict_getitem_Some q []) by apply dict_get_set_eq. py_simpl.
    eexists. split; [done|]. split; [by do 2 apply dict_set_nodup|].
    intros p. rewrite !dict_get_set. destruct (decide (p = q)) as [->|Hp].
    + rewrite decide_True by done.
      symmetry in Hq. apply nonempty_opt_None in Hq as ->. done.
    + rewrite decide_False by done. by rewrite app_nil_r.
Qed.

Lemma record_matches_spec (l : list (list char)) i result (L : list char → list Z) :
  NoDup result.*1 →
  (∀ p, dict_get p result = nonempty_opt (L p)) →
  ∃ result',
    for_each l (record_match i) result = Ret result' ∧
    NoDup result'.*1 ∧
    ∀ p, dict_get p result' =
         nonempty_opt (L p ++ replicate (multiplicity p l) (i - len p + 1)).
Proof.
  revert result L. induction l as [|q l IH]; intros result L Hnd HL.
  - exists result. split; [done|]. split; [done|].
    intros p. by rewrite app_nil_r.
  - rewrite for_each_cons.
    destruct (record_match_spec i result q L Hnd HL) as (result1 & -> & Hnd1 & HL1).
    py_simpl.
    destruct (IH result1 _ Hnd1 HL1) as (result' & -> & Hnd' & HL').
    exists result'. split; [done|]. split; [done|].
    intros p. rewrite HL'. f_equal. rewrite <- app_assoc. f_equal.
    unfold multiplicity. rewrite filter_cons.
    destruct (decide (q = p)) as [->|Hne]; done.
Qed.

(** *** The scan *)

Lemma ac_step_spec patterns ac text l1 i c l2 st :
  [] ∉ patterns → automaton_ok patterns ac →
  enumerate text = l1 ++ (i, c) :: l2 →
  ac_search_inv patterns ac text l1 st →
  ∃ st', ac_step ac st (i, c) = Ret st' ∧
         ac_search_inv patterns ac text (l1 ++ [(i, c)]) st'.
Proof.
  intros Hne [Htrie Hin Hfail Hout] Hl ((z & Hz & Hzsuf & Hzin & Hzmax) & Hnd & Hres).
  destruct st as [result state]. simpl in *.
  destruct (enumerate_split _ _ _ _ _ Hl) as (Hi & Hirange & Hx & Hx').
  unfold ac_step.
  destruct (follow_fail_spec (goto ac) (fail ac) c l1.*2 z state)
    as (s' & x' & -> & Hnx' & Hsuf' & Hmax' & Hexit); [done..| | |].
  { intros z' Hz' Hc. apply Hzmax; [done|]. by eapply in_trie_prefix. }
  { intros v w Hw Hwne _. by apply Hfail. }
  py_simpl.
  pose proof (goto_after_fail (goto ac) c l1.*2 x' s' Htrie Hnx' Hsuf' Hmax' Hexit)
    as Hnext.
  assert (∃ state' zz,
            (if dict_mem (s', c) (goto ac)
             then dict_getitem (s', c) (goto ac) else Ret s') = Ret state' ∧
            node (goto ac) zz state' ∧ lsw (goto ac) (l1.*2 ++ [c]) zz)
    as (state' & zz & -> & Hzz & Hlzz).
  { unfold dict_mem, dict_getitem. destruct (dict_get (s', c) (goto ac)) as [v|].
    - destruct Hnext as (zz & ? & ?). by exists v, zz.
    - destruct Hnext as [-> ?]. by exists 0, []. }
  py_simpl.
  assert ((l1 ++ [(i, c)]).*2 = l1.*2 ++ [c]) as Hsnoc by by rewrite fmap_app.
  pose proof (Hout _ _ Hzz) as Hou.
  rewrite <- (suffix_pats_lsw _ _ _ _ Hin Hlzz) in Hou.
  (* what the recording loop adds for each pattern *)
  assert (∀ p, repeat_each (multiplicity p patterns)
                 (occurrences_below text p (len (l1 ++ [(i, c)]) - len p + 1)) =
               repeat_each (multiplicity p patterns)
                 (occurrences_below text p (len l1 - len p + 1)) ++
               replicate (multiplicity p (suffix_pats patterns (l1.*2 ++ [c])))
                 (i - len p + 1)) as Hadd.
  { intros p. rewrite len_app. change (len [(i, c)]) with 1.
    replace (len l1 + 1 - len p + 1) with (len l1 - len p + 1 + 1) by lia.
    rewrite occurrences_below_step, repeat_each_app. f_equal.
    unfold multiplicity at 2. rewrite filter_suffix_pats.
    destruct (decide (p = [])) as [->|Hp].
    - rewrite (decide_False (P := _ ∧ _)) by (by intros [? _]). simpl.
      rewrite multiplicity_not_in by done. apply repeat_each_0.
    - rewrite <- Hsnoc, Hx', <- Hi.
      replace (i - len p + 1) with (i + 1 - len p) by lia.
      destruct (decide (occurs_at text p (i + 1 - len p))) as [Hocc|Hocc].
      + rewrite decide_True by (split; [done|]; by apply suffix_take_occurs).
        by rewrite repeat_each_singleton.
      + rewrite decide_False; [done|]. intros [_ Hs]. apply Hocc.
        by apply suffix_take_occurs in Hs. }
  unfold dict_mem, dict_getitem. rewrite Hou.
  destruct (suffix_pats patterns (l1.*2 ++ [c])) as [|q0 l0] eqn:Hsp;
    cbn [nonempty_opt].
  - eexists. split; [done|]. split; [by exists zz; rewrite Hsnoc|].
    split; [done|]. intros p. rewrite Hadd. simpl. rewrite app_nil_r. apply Hres.
  - py_simpl.
    destruct (record_matches_spec (q0 :: l0) i result _ Hnd Hres)
      as (result' & -> & Hnd' & Hres').
    py_simpl. eexists. split; [done|]. split; [by exists zz; rewrite Hsnoc|].
    split; [done|]. intros p. rewrite Hadd. apply Hres'.
Qed.

Lemma ac_search_spec patterns ac text :
  [] ∉ patterns → automaton_ok patterns ac →
  ∃ result,
    ac_search ac text = Ret result ∧ NoDup result.*1 ∧
    ∀ p, dict_get p result =
         nonempty_opt (repeat_each (multiplicity p patterns) (occurrences text p)).
Proof.
  intros Hne Hok. unfold ac_search.
  destruct (for_each_inv (ac_search_inv patterns ac text)
              (enumerate text) (ac_step ac) ([], 0))
    as ([result state] & -> & _ & Hnd & Hres).
  - split; [exists []; split; [done|apply lsw_nil]|]. split; [constructor|].
    intros p. simpl. destruct (decide (p = [])) as [->|Hp].
    + rewrite multiplicity_not_in by done. by rewrite repeat_each_0.
    + unfold occurrences_below.
      rewrite seqZ_nil by (change (len []) with 0; pose proof (len_pos p Hp); lia).
      done.
  - intros l1 [i c] l2 st Hl Hinv. by eapply ac_step_spec.
  - py_simpl. exists result. split; [done|]. split; [done|].
    intros p. simpl in Hres. rewrite Hres.
    assert (len (enumerate text) = len text) as ->.
    { unfold enumerate, len. rewrite length_zip_with, length_seqZ. lia. }
    destruct (decide (p = [])) as [->|Hp].
    + rewrite multiplicity_not_in by done. by rewrite !repeat_each_0.
    + by rewrite occurrences_below_fit.
Qed.
End ac_search.

(** ** The dispatcher: a single pattern *)

Section single.
Context {char : Type} `{!Alphabet char, !SetOrder char}.
Implicit Types (text pattern : list char).

Lemma occurrences_nil_text pattern : occurrences [] pattern = [].
Proof. unfold occurrences. by case_decide. Qed.

Lemma occurrences_nil_pattern text : occurrences text [] = [].
Proof. unfold occurrences. by rewrite decide_True. Qed.

Lemma fold_case_nil cs : fold_case cs (@nil char) = [].
Proof. destruct cs; [done|apply lower_nil]. Qed.

Lemma fold_case_nonempty cs (s : list char) : s ≠ [] → fold_case cs s ≠ [].
Proof. destruct cs; [done|apply lower_nonempty]. Qed.

Lemma apply_method_nil {A} method : apply_method method (@nil A) = [].
Proof. unfold apply_method. by case_decide. Qed.

Lemma apply_count_nil {A} count : apply_count count (@nil A) = [].
Proof. destruct count as [k|]; [|done]. simpl. unfold slice_to. apply take_nil. Qed.

Lemma apply_method_other {A} method (l : list A) :
  method ≠ "last"%string → apply_method method l = l.
Proof. intros. unfold apply_method. by rewrite decide_False. Qed.

Lemma apply_method_last {A} (l : list A) : apply_method "last" l = reverse l.
Proof. done. Qed.

Lemma apply_method_first {A} (l : list A) : apply_method "first" l = l.
Proof. done. Qed.


(** The single-pattern path: the matches of the prefix-function scan, in the
    direction asked for, cut to the count, as a tuple or [None]. *)
Lemma search_single text pattern cs method count :
  search text (Single pattern) cs method count =
    Ret (Positions <$> tuple_or_none
           (apply_count count (apply_method method
              (occurrences (fold_case cs text) (fold_case cs pattern))))).
Proof.
  unfold search. case_decide as Ht.
  { subst. by rewrite fold_case_nil, occurrences_nil_text, apply_method_nil,
      apply_count_nil. }
  case_decide as Hp.
  { subst. by rewrite fold_case_nil, occurrences_nil_pattern, apply_method_nil,
      apply_count_nil. }
  cbv zeta. rewrite kmp_search_correct, bind_Ret.
  case_decide as Hm; [|done].
  by rewrite Hm, apply_method_nil, apply_count_nil.
Qed.
End single.

(** ** Sorting by position *)

Section sort.
Context {char : Type} `{!Alphabet char, !SetOrder char}.
Implicit Types (l : list (Z * list char)) (x : Z * list char).

Lemma insert_by_pos_perm x l : insert_by_pos x l ≡ₚ x :: l.
Proof.
  induction l as [|y l IH]; simpl; [done|].
  case_decide; [done|]. rewrite IH. apply Permutation_swap.
Qed.

Lemma sort_by_pos_perm l : sort_by_pos l ≡ₚ l.
Proof.
  induction l as [|x l IH]; simpl; [done|].
  rewrite insert_by_pos_perm. by f_equiv.
Qed.

Lemma insert_by_pos_sorted x l :
  StronglySorted pos_le l → StronglySorted pos_le (insert_by_pos x l).
Proof.
  induction 1 as [|y l Hl IH Hy]; simpl.
  - repeat constructor.
  - case_decide as Hxy.
    + constructor; [by constructor|]. constructor; [done|].
      eapply Forall_impl; [exact Hy|]. unfold pos_le. intros z Hz. lia.
    + constructor; [done|]. rewrite insert_by_pos_perm.
      constructor; [|done]. unfold pos_le. lia.
Qed.

Lemma sort_by_pos_sorted l : StronglySorted pos_le (sort_by_pos l).
Proof.
  induction l as [|x l IH]; simpl; [constructor|].
  by apply insert_by_pos_sorted.
Qed.

(** Where the order of the list is already that of the positions, sorting
    changes nothing. *)
Lemma insert_by_pos_head x l :
  Forall (pos_le x) l → insert_by_pos x l = x :: l.
Proof.
  destruct 1 as [|y l Hy _]; simpl; [done|]. by rewrite decide_True.
Qed.

Lemma sort_by_pos_id l : StronglySorted pos_le l → sort_by_pos l = l.
Proof.
  induction 1 as [|x l Hl IH Hx]; simpl; [done|].
  rewrite IH. by apply insert_by_pos_head.
Qed.

(** The sort is stable: it commutes with selecting the pairs of a
    pattern. *)
Lemma filter_insert_by_pos (P : Z * list char → Prop) `{∀ x, Decision (P x)} x l :
  StronglySorted pos_le l →
  filter P (insert_by_pos x l) =
    if decide (P x) then insert_by_pos x (filter P l) else filter P l.
Proof.
  induction 1 as [|y l Hl IH Hy]; simpl.
  - rewrite filter_cons, filter_nil. by case_decide.
  - destruct (decide (x.1 ≤ y.1)) as [Hxy|Hxy].
    + rewrite filter_cons. destruct (decide (P x)) as [HP|HP]; [|done].
      symmetry. apply insert_by_pos_head.
      apply Forall_forall. intros z Hz.
      apply list_elem_of_filter in Hz as [_ Hz].
      apply elem_of_cons in Hz as [->|Hz]; [done|].
      rewrite Forall_forall in Hy. specialize (Hy z Hz).
      unfold pos_le in *. lia.
    + rewrite !(filter_cons _ y), IH.
      destruct (decide (P y)) as [HPy|HPy]; [|done].
      destruct (decide (P x)) as [HPx|HPx]; [|done].
      simpl. by rewrite decide_False.
Qed.

Lemma filter_sort_by_pos (P : Z * list char → Prop) `{∀ x, Decision (P x)} l :
  filter P (sort_by_pos l) = sort_by_pos (filter P l).
Proof.
  induction l as [|x l IH]; simpl; [done|].
  rewrite filter_insert_by_pos by apply sort_by_pos_sorted.
  rewrite filter_cons, IH. by case_decide.
Qed.

(** The pairs of one pattern among those collected from a dictionary. *)
Lemma filter_collect_results (q : list char) (R : dict (list char) (list Z)) :
  NoDup R.*1 →
  filter (λ x, x.2 = q) (collect_results R) =
    (λ pos, (pos, q)) <$> default [] (dict_get q R).
Proof.
  unfold collect_results. induction R as [|[p ps] R IH]; [done|].
  rewrite fmap_cons, bind_cons. cbn [fst dict_get].
  intros [Hp HR]%NoDup_cons. rewrite filter_app, IH by done.
  destruct (decide (q = p)) as [->|Hne].
  - assert (dict_get p R = None) as -> by by apply dict_get_None.
    simpl. rewrite app_nil_r.
    induction ps as [|z ps IHps]; [done|].
    rewrite fmap_cons, filter_cons_True by done. by rewrite IHps.
  - replace (filter _ _) with (@nil (Z * list char)); [done|].
    symmetry. apply filter_none, Forall_forall.
    intros x (z & -> & _)%list_elem_of_fmap. simpl. congruence.
Qed.

Lemma pos_le_fmap (q : list char) (ps : list Z) :
  StronglySorted Z.le ps → StronglySorted pos_le ((λ pos, (pos, q)) <$> ps).
Proof.
  induction 1 as [|z ps Hps IH Hz]; simpl; constructor; [done|].
  apply Forall_fmap. eapply Forall_impl; [exact Hz|]. done.
Qed.

(** After the sort, the positions of each pattern are those the dictionary
    holds for it, in the same order, provided these are ascending. *)
Lemma positions_of_sort (q : list char) (R : dict (list char) (list Z)) :
  NoDup R.*1 → StronglySorted Z.le (default [] (dict_get q R)) →
  positions_of q (sort_by_pos (collect_results R)) = default [] (dict_get q R).
Proof.
  intros HR Hs. unfold positions_of.
  rewrite filter_sort_by_pos, filter_collect_results by done.
  rewrite sort_by_pos_id by by apply pos_le_fmap.
  rewrite <- list_fmap_compose. apply list_fmap_id.
Qed.

Lemma positions_of_reverse (q : list char) l :
  positions_of q (reverse l) = reverse (positions_of q l).
Proof. unfold positions_of. by rewrite filter_reverse, fmap_reverse. Qed.

Lemma positions_of_nil (q : list char) : positions_of q [] = [].
Proof. done. Qed.

Lemma repeat_each_sorted k (l : list Z) :
  StronglySorted Z.lt l → StronglySorted Z.le (repeat_each k l).
Proof.
  induction 1 as [|z l Hl IH Hz]; [constructor|].
  change (z :: l) with ([z] ++ l).
  rewrite repeat_each_app, repeat_each_singleton.
  assert (Forall (Z.le z) (repeat_each k l)) as Hle.
  { apply Forall_forall. intros y Hy. unfold repeat_each in Hy.
    apply list_elem_of_bind in Hy as (y' & Hy & Hy').
    apply elem_of_replicate in Hy as [-> _].
    rewrite Forall_forall in Hz. specialize (Hz _ Hy'). lia. }
  generalize (repeat_each k l) IH Hle.
  clear. intros L HL Hle. induction k as [|k IHk]; simpl; [done|].
  constructor; [done|]. apply Forall_app. split; [|done].
  apply Forall_replicate. lia.
Qed.

Lemma default_nonempty_opt {A} (l : list A) : default [] (nonempty_opt l) = l.
Proof. by destruct l. Qed.

Lemma tuple_or_none_reverse (l : list Z) :
  tuple_or_none (reverse l) = reverse <$> tuple_or_none l.
Proof.
  destruct l as [|z l]; [done|]. simpl.
  destruct (reverse (z :: l)) eqn:E; [|done].
  apply (f_equal length) in E. rewrite length_reverse in E. done.
Qed.

Lemma tuple_or_none_nonempty_opt (l : list Z) : tuple_or_none l = nonempty_opt l.
Proof. done. Qed.

End sort.

(** ** Regrouping *)

Section regroup.
Context {char : Type} `{!Alphabet char, !SetOrder char}.
Implicit Types (S : list (Z * list char)) (subs : list (list char)).
Implicit Types (acc : dict (list char) (option (list Z))).

Lemma dict_get_elem_of {K V} `{EqDecision K} (k : K) (v : V) (d : dict K V) :
  NoDup d.*1 → (k, v) ∈ d → dict_get k d = Some v.
Proof.
  induction d as [|[k0 v0] d IH]; [by intros _ ?%elem_of_nil|].
  rewrite fmap_cons. cbn [fst dict_get].
  intros [Hk Hd]%NoDup_cons [[= -> ->]|Hin]%elem_of_cons.
  - by rewrite decide_True.
  - rewrite decide_False; [by apply IH|]. intros ->. apply Hk.
    apply list_elem_of_fmap. by exists (k0, v).
Qed.

Lemma regroup_get_acc cs S subs acc q :
  dict_get q (foldl (λ result original_pattern,
      dict_set original_pattern
        (tuple_or_none (positions_of (fold_case cs original_pattern) S)) result)
    acc subs) =
  if decide (q ∈ subs) then Some (tuple_or_none (positions_of (fold_case cs q) S))
  else dict_get q acc.
Proof.
  revert acc. induction subs as [|x subs IH]; intros acc; cbn [foldl].
  - rewrite decide_False; [done|]. apply not_elem_of_nil.
  - rewrite IH. destruct (decide (q ∈ subs)) as [Hq|Hq].
    + rewrite decide_True; [done|]. by right.
    + rewrite dict_get_set. destruct (decide (q = x)) as [->|Hne].
      * rewrite decide_True; [done|]. by left.
      * rewrite decide_False; [done|]. by intros [?|?]%elem_of_cons.
Qed.

(** The mapping has the original patterns as its keys; under each is the
    tuple of the positions paired with the pattern's folded form, or [None]
    where there is none. *)
Lemma dict_get_regroup cs subs S q :
  dict_get q (regroup cs subs S) =
    if decide (q ∈ subs)
    then Some (tuple_or_none (positions_of (fold_case cs q) S)) else None.
Proof. unfold regroup. cbv zeta. by rewrite regroup_get_acc. Qed.

Lemma regroup_keys cs subs S q : q ∈ (regroup cs subs S).*1 ↔ q ∈ subs.
Proof.
  rewrite <- dict_get_is_Some_key, dict_get_regroup.
  case_decide; split; first [done | by intros [? ?]].
Qed.

Lemma regroup_nodup cs subs S : NoDup (regroup cs subs S).*1.
Proof.
  unfold regroup. cbv zeta.
  assert (NoDup (@nil (list char * option (list Z))).*1) as Hacc by constructor.
  revert Hacc. generalize (@nil (list char * option (list Z))).
  induction subs as [|x subs IH]; intros acc Hacc; simpl; [done|].
  apply IH. by apply dict_set_nodup.
Qed.

Lemma regroup_elem_of cs subs S q v :
  (q, v) ∈ regroup cs subs S ↔
    q ∈ subs ∧ v = tuple_or_none (positions_of (fold_case cs q) S).
Proof.
  split.
  - intros Hin. apply dict_get_elem_of in Hin; [|apply regroup_nodup].
    rewrite dict_get_regroup in Hin. case_decide; naive_solver.
  - intros [Hq ->]. apply dict_get_Some_elem.
    rewrite dict_get_regroup. by rewrite decide_True.
Qed.


Lemma dict_set_reverse_values {K} `{EqDecision K} (k : K) v
    (d : dict K (option (list Z))) :
  dict_set k (reverse <$> v) (reverse_values d) = reverse_values (dict_set k v d).
Proof.
  unfold reverse_values. induction d as [|[k0 v0] d IH]; [done|].
  rewrite fmap_cons. cbn -[fmap].
  case_decide; rewrite fmap_cons; [done|]. by rewrite IH.
Qed.

(** Regrouping the reversed sequence reverses every tuple. *)
Lemma regroup_reverse cs subs S :
  regroup cs subs (reverse S) = reverse_values (regroup cs subs S).
Proof.
  unfold regroup. cbv zeta.
  change (@nil (list char * option (list Z))) with
    (reverse_values (@nil (list char * option (list Z)))) at 1.
  generalize (@nil (list char * option (list Z))).
  induction subs as [|x subs IH]; intros acc; simpl; [done|].
  rewrite positions_of_reverse, tuple_or_none_reverse, dict_set_reverse_values.
  apply IH.
Qed.

Lemma dict_or_none_reverse_values (d : dict (list char) (option (list Z))) :
  dict_or_none (reverse_values d) = reverse_values <$> dict_or_none d.
Proof.
  unfold dict_or_none.
  rewrite (bool_decide_ext _ (Exists (λ kv, kv.2 ≠ None) d)).
  { by case_bool_decide. }
  unfold reverse_values. rewrite Exists_fmap. apply Exists_proper; [|done].
  intros [k [v|]]; simpl; naive_solver.
Qed.

(** The mapping is absent exactly when no key has a position. *)
Lemma dict_or_none_regroup_None cs subs S :
  dict_or_none (regroup cs subs S) = None ↔
    ∀ q, q ∈ subs → positions_of (fold_case cs q) S = [].
Proof.
  unfold dict_or_none. case_bool_decide as Hex.
  - split; [done|]. intros Hall. exfalso.
    apply Exists_exists in Hex as ([q v] & Hin & Hv).
    apply regroup_elem_of in Hin as [Hq ->]. simpl in Hv.
    by rewrite (Hall q Hq) in Hv.
  - split; [|done]. intros _ q Hq.
    destruct (positions_of (fold_case cs q) S) as [|z zs] eqn:E; [done|].
    exfalso. apply Hex, Exists_exists.
    exists (q, Some (z :: zs)). split; [|done].
    apply regroup_elem_of. split; [done|]. by rewrite E.
Qed.

Lemma dict_or_none_Some (d d' : dict (list char) (option (list Z))) :
  dict_or_none d = Some d' → d' = d.
Proof. unfold dict_or_none. case_bool_decide; congruence. Qed.


End regroup.

(** ** The dispatcher: a list of patterns *)

Section multi.
Context {char : Type} `{!Alphabet char, !SetOrder char}.
Implicit Types (text : list char) (subs : list (list char)).

Lemma fold_patterns_nonempty cs subs : [] ∉ fold_patterns cs subs.
Proof.
  unfold fold_patterns. intros (p & Hp & Hin)%list_elem_of_fmap.
  apply list_elem_of_filter in Hin as [Hne _].
  by apply (fold_case_nonempty cs p).
Qed.

Lemma fold_patterns_elem_of cs subs p :
  p ∈ fold_patterns cs subs ↔ ∃ q, q ∈ subs ∧ q ≠ [] ∧ p = fold_case cs q.
Proof.
  unfold fold_patterns. rewrite list_elem_of_fmap. split.
  - intros (q & -> & [? ?]%list_elem_of_filter). eauto.
  - intros (q & ? & ? & ->). exists q. split; [done|].
    by apply list_elem_of_filter.
Qed.

Lemma fold_patterns_all_empty cs subs :
  Forall (λ p, p = []) subs → fold_patterns cs subs = [].
Proof.
  intros Hall. unfold fold_patterns. rewrite filter_none; [done|].
  eapply Forall_impl; [exact Hall|]. naive_solver.
Qed.

Lemma fold_patterns_nil cs : fold_patterns cs [] = [].
Proof. done. Qed.

(** Without a text or without a non-empty pattern there is no result. *)
Lemma search_multi_degenerate text subs cs method count :
  text = [] ∨ fold_patterns cs subs = [] →
  search text (Multi subs) cs method count = Ret None.
Proof.
  intros Hdeg. unfold search. case_decide; [done|]. case_decide; [done|].
  cbv zeta. case_decide; [done|]. naive_solver.
Qed.

(** The path of a list of patterns: the automaton is built and run without
    exception, its result holds under every pattern the pattern's
    occurrences in the folded text, each as many times as the pattern is in
    the list, and the mapping is regrouped from the pairs selected. *)
Lemma search_multi text subs cs :
  text ≠ [] → fold_patterns cs subs ≠ [] →
  ∃ ac all_matches,
    build_automaton ac_init (fold_patterns cs subs) = Ret ac ∧
    ac_search ac (fold_case cs text) = Ret all_matches ∧
    NoDup all_matches.*1 ∧
    (∀ p, dict_get p all_matches =
          nonempty_opt (repeat_each (multiplicity p (fold_patterns cs subs))
                          (occurrences (fold_case cs text) p))) ∧
    ∀ method count,
      search text (Multi subs) cs method count =
        Ret (Mapping <$> dict_or_none
               (regroup cs subs (select_results method count all_matches))).
Proof.
  intros Ht Hp.
  destruct (build_automaton_spec (fold_patterns cs subs)) as (ac & Hbuild & Hok);
    [apply fold_patterns_nonempty|].
  destruct (ac_search_spec (fold_patterns cs subs) ac (fold_case cs text))
    as (all_matches & Hsearch & Hnd & Hget); [apply fold_patterns_nonempty|done|].
  exists ac, all_matches. do 4 (split; [done|]).
  intros method count. unfold search.
  rewrite decide_False by done.
  assert (subs ≠ []) as Hs by (intros ->; by apply Hp).
  rewrite decide_False by done. cbv zeta.
  rewrite decide_False by done.
  by rewrite Hbuild, bind_Ret, Hsearch, bind_Ret.
Qed.

(** The positions of a pattern in the merged, position-sorted sequence. *)
Lemma positions_of_merged (pats : list (list char)) text
    (all_matches : dict (list char) (list Z)) q :
  NoDup all_matches.*1 →
  (∀ p, dict_get p all_matches =
        nonempty_opt (repeat_each (multiplicity p pats) (occurrences text p))) →
  positions_of q (sort_by_pos (collect_results all_matches)) =
    repeat_each (multiplicity q pats) (occurrences text q).
Proof.
  intros Hnd Hget.
  rewrite positions_of_sort; rewrite ?Hget, ?default_nonempty_opt; [done..|].
  apply repeat_each_sorted, occurrences_sorted.
Qed.

(** The pairs of the merged sequence carry patterns of the list only. *)
Lemma merged_patterns (pats : list (list char)) text
    (all_matches : dict (list char) (list Z)) x :
  (∀ p, dict_get p all_matches =
        nonempty_opt (repeat_each (multiplicity p pats) (occurrences text p))) →
  x ∈ collect_results all_matches → x.2 ∈ pats.
Proof.
  intros Hget Hx. unfold collect_results in Hx.
  apply list_elem_of_bind in Hx as ([p ps] & Hx & Hin).
  apply list_elem_of_fmap in Hx as (z & -> & Hz). simpl.
  destruct (decide (p ∈ pats)) as [|Hp]; [done|]. exfalso.
  assert (is_Some (dict_get p all_matches)) as [v Hv].
  { apply dict_get_is_Some_key, list_elem_of_fmap. by exists (p, ps). }
  rewrite Hget, multiplicity_not_in, repeat_each_0 in Hv by done. done.
Qed.

(** Without any occurrence the automaton's result is empty. *)
Lemma all_matches_empty (pats : list (list char)) text
    (all_matches : dict (list char) (list Z)) :
  (∀ p, dict_get p all_matches =
        nonempty_opt (repeat_each (multiplicity p pats) (occurrences text p))) →
  (∀ p, p ∈ pats → occurrences text p = []) →
  all_matches = [].
Proof.
  intros Hget Hno. destruct all_matches as [|[p ps] R]; [done|]. exfalso.
  specialize (Hget p). simpl in Hget. rewrite decide_True in Hget by done.
  destruct (decide (p ∈ pats)) as [Hp|Hp].
  - by rewrite (Hno p Hp), repeat_each_nil in Hget.
  - by rewrite multiplicity_not_in, repeat_each_0 in Hget.
Qed.

Lemma select_results_nil method count :
  select_results method count (@nil (list char * list Z)) = [].
Proof.
  unfold select_results. simpl. by rewrite apply_method_nil, apply_count_nil.
Qed.

Lemma search_multi_no_match text subs cs method count :
  (∀ q, q ∈ subs → occurrences (fold_case cs text) (fold_case cs q) = []) →
  search text (Multi subs) cs method count = Ret None.
Proof.
  intros Hno.
  destruct (decide (text = [])) as [Ht|Ht];
    [apply search_multi_degenerate; by left|].
  destruct (decide (fold_patterns cs subs = [])) as [Hp|Hp];
    [apply search_multi_degenerate; by right|].
  destruct (search_multi text subs cs Ht Hp)
    as (ac & all_matches & _ & _ & _ & Hget & ->).
  rewrite (all_matches_empty _ _ _ Hget).
  - rewrite select_results_nil.
    replace (dict_or_none _) with (@None (dict (list char) (option (list Z))));
      [done|].
    symmetry. apply dict_or_none_regroup_None. done.
  - intros p (q & Hq & _ & ->)%fold_patterns_elem_of. by apply Hno.
Qed.

(** [search] returns for every input. *)
Lemma search_total text sub_string cs method count :
  ∃ r, search text sub_string cs method count = Ret r.
Proof.
  destruct sub_string as [pattern|subs].
  - rewrite search_single. eauto.
  - destruct (decide (text = [])) as [Ht|Ht];
      [rewrite search_multi_degenerate by (by left); eauto|].
    destruct (decide (fold_patterns cs subs = [])) as [Hp|Hp];
      [rewrite search_multi_degenerate by (by right); eauto|].
    destruct (search_multi text subs cs Ht Hp)
      as (ac & all_matches & _ & _ & _ & _ & ->). eauto.
Qed.
End multi.

(** ** The merged sequence *)

Section merged.
Context {char : Type} `{!Alphabet char, !SetOrder char}.
Implicit Types (text : list char) (subs pats : list (list char)).
Implicit Types (l : list (Z * list char)).

(** Two sequences with the same pairs under every pattern have the same
    pairs. *)
Lemma perm_by_key l1 l2 :
  (∀ q, filter (λ x, x.2 = q) l1 ≡ₚ filter (λ x, x.2 = q) l2) → l1 ≡ₚ l2.
Proof.
  revert l2. induction l1 as [|x l1 IH]; intros l2 Hkey.
  - destruct l2 as [|y l2]; [done|]. specialize (Hkey y.2).
    rewrite filter_nil, filter_cons_True in Hkey by done.
    by apply Permutation_nil_cons in Hkey.
  - assert (x ∈ l2) as Hx.
    { specialize (Hkey x.2). rewrite filter_cons_True in Hkey by done.
      assert (x ∈ filter (λ y, y.2 = x.2) l2) as Hin
        by (rewrite <- Hkey; by left).
      by apply list_elem_of_filter in Hin as [_ ?]. }
    apply elem_of_Permutation in Hx as [l2' Hl2]. rewrite Hl2. f_equiv.
    apply IH. intros q. specialize (Hkey q). rewrite Hl2 in Hkey.
    rewrite !filter_cons in Hkey. case_decide; [|done].
    by apply Permutation_cons_inv in Hkey.
Qed.

Lemma filter_key_fmap l (q : list char) :
  filter (λ x, x.2 = q) l = (λ pos, (pos, q)) <$> positions_of q l.
Proof.
  unfold positions_of. induction l as [|[z p] l IH]; [done|].
  rewrite !filter_cons. destruct (decide ((z, p).2 = q)) as [Hp|Hp]; [|done].
  simpl in Hp. subst. rewrite !fmap_cons. simpl. f_equal. exact IH.
Qed.

Lemma repeat_each_S_perm {A} k (l : list A) :
  repeat_each (S k) l ≡ₚ l ++ repeat_each k l.
Proof.
  induction l as [|x l IH]; [done|].
  change (x :: l) with ([x] ++ l).
  rewrite !repeat_each_app, !repeat_each_singleton, IH. simpl.
  f_equiv. rewrite !(assoc (++)). f_equiv. apply Permutation_app_comm.
Qed.

Lemma filter_all {A} (P : A → Prop) `{∀ x, Decision (P x)} (l : list A) :
  Forall P l → filter P l = l.
Proof.
  induction 1 as [|x l Hx _ IH]; [done|]. by rewrite filter_cons_True, IH.
Qed.

Lemma filter_all_pairs text pats (q : list char) :
  filter (λ x, x.2 = q) (all_pairs text pats) ≡ₚ
    (λ pos, (pos, q)) <$> repeat_each (multiplicity q pats) (occurrences text q).
Proof.
  unfold all_pairs. induction pats as [|p pats IH].
  - by rewrite repeat_each_0.
  - rewrite bind_cons, filter_app, IH. unfold multiplicity.
    rewrite filter_cons. destruct (decide (p = q)) as [->|Hne].
    + simpl. rewrite repeat_each_S_perm, fmap_app. f_equiv.
      rewrite filter_all; [done|]. apply Forall_forall.
      intros x (z & -> & _)%list_elem_of_fmap. done.
    + rewrite filter_none; [done|]. apply Forall_forall.
      intros x (z & -> & _)%list_elem_of_fmap. done.
Qed.

(** A sequence that holds under every pattern the pattern's occurrences,
    each as many times as the pattern is in the list, holds exactly the
    pairs of the list. *)
Lemma merged_perm text pats l :
  (∀ q, positions_of q l =
        repeat_each (multiplicity q pats) (occurrences text q)) →
  l ≡ₚ all_pairs text pats.
Proof.
  intros Hpos. apply perm_by_key. intros q.
  by rewrite filter_all_pairs, filter_key_fmap, Hpos.
Qed.

Lemma all_pairs_pattern text pats x : x ∈ all_pairs text pats → x.2 ∈ pats.
Proof.
  unfold all_pairs. intros (p & Hx & Hp)%list_elem_of_bind.
  by apply list_elem_of_fmap in Hx as (z & -> & _).
Qed.

Lemma apply_method_elem_of {A} method (l : list A) x :
  x ∈ apply_method method l ↔ x ∈ l.
Proof. unfold apply_method. case_decide; [apply elem_of_reverse|done]. Qed.

Lemma apply_count_subseteq {A} count (l : list A) : apply_count count l ⊆ l.
Proof. destruct count as [k|]; [apply subseteq_take|done]. Qed.

(** The path of a list of patterns, for every input: there is one merged
    sequence, sorted by position, of all the pairs of the folded patterns in
    the folded text; whatever the direction and the count, the mapping is
    regrouped from what direction and count select of it. *)
Lemma search_multi_merged text subs cs :
  ∃ merged,
    StronglySorted pos_le merged ∧
    (∀ q, positions_of q merged =
          repeat_each (multiplicity q (fold_patterns cs subs))
            (occurrences (fold_case cs text) q)) ∧
    ∀ method count,
      search text (Multi subs) cs method count =
        Ret (Mapping <$> dict_or_none
               (regroup cs subs (apply_count count (apply_method method merged)))).
Proof.
  destruct (decide (text = [] ∨ fold_patterns cs subs = [])) as [Hdeg|Hok].
  - exists []. split; [constructor|]. split.
    + intros q. rewrite positions_of_nil. destruct Hdeg as [->| ->].
      * by rewrite fold_case_nil, occurrences_nil_text.
      * by rewrite repeat_each_0.
    + intros method count. rewrite search_multi_degenerate by done.
      rewrite apply_method_nil, apply_count_nil.
      replace (dict_or_none _) with (@None (dict (list char) (option (list Z))));
        [done|].
      symmetry. by apply dict_or_none_regroup_None.
  - destruct (search_multi text subs cs)
      as (ac & all_matches & _ & _ & Hnd & Hget & Hsearch); [naive_solver..|].
    exists (sort_by_pos (collect_results all_matches)).
    split; [apply sort_by_pos_sorted|]. split; [|done].
    intros q. by apply positions_of_merged.
Qed.

(** The positions of a pattern among those selected without a count. *)
Lemma positions_of_apply_method (q : list char) method l :
  positions_of q (apply_method method l) = apply_method method (positions_of q l).
Proof.
  unfold apply_method. case_decide; [apply positions_of_reverse|done].
Qed.
End merged.

(** ** Borders and alignments *)

Section borders.
Context {A : Type}.
Implicit Types (p w : list A).

Lemma suffix_take_drop w (b : nat) :
  (b ≤ length w)%nat →
  take b w `suffix_of` w ↔ drop (length w - b) w = take b w.
Proof.
  intros Hb. split.
  - intros [k Hk].
    assert (length k = (length w - b)%nat) as <-.
    { apply (f_equal length) in Hk. rewrite length_app, length_take in Hk. lia. }
    rewrite Hk at 1. by rewrite drop_app_length.
  - intros Heq. exists (take (length w - b) w).
    by rewrite <- Heq, take_drop.
Qed.

(** A border of the first [j] characters of [p], in terms of alignments:
    [p] laid on itself at distance [j - b] agrees up to [j]. *)
Lemma border_agree p j b :
  0 ≤ b < j → j ≤ len p →
  take (Z.to_nat b) (take (Z.to_nat j) p) `suffix_of` take (Z.to_nat j) p ↔
  agree p p (j - b) j.
Proof.
  intros Hb Hj. set (w := take (Z.to_nat j) p).
  assert (len w = j) as Hw.
  { unfold w, len in *. rewrite length_take. lia. }
  assert (len (take (Z.to_nat b) w) = b) as Hbw.
  { unfold len in *. rewrite length_take. lia. }
  rewrite suffix_take_drop by (unfold len in *; lia).
  transitivity (occurs_at w (take (Z.to_nat b) w) (j - b)).
  - unfold occurs_at.
    replace (length w - Z.to_nat b)%nat with (Z.to_nat (j - b))
      by (unfold len in *; lia).
    replace (length (take (Z.to_nat b) w)) with (Z.to_nat b)
      by (unfold len in *; lia).
    rewrite (take_ge (drop _ _)) by (rewrite length_drop; unfold len in *; lia).
    split; [intros ?; split; [lia|done]|by intros [_ ?]].
  - rewrite occurs_at_agree, Hbw. replace (j - b + b) with j by lia.
    unfold w. rewrite agree_take_p by lia.
    rewrite agree_take_p by lia. rewrite agree_take_x by lia.
    split; [by intros [_ ?]|]. intros ?. split; [lia|done].
Qed.

(** A table entry in terms of alignments is the longest border. *)
Lemma lps_entry_longest_border p (lps : list Z) j :
  1 ≤ j ≤ len p → lps_entry p lps j →
  ∃ b, zget lps (j - 1) = Some b ∧ longest_border (take (Z.to_nat j) p) b.
Proof.
  intros Hj (b & Hget & Hb & Hag & Hmin). exists b. split; [done|].
  assert (len (take (Z.to_nat j) p) = j) as Hw.
  { unfold len in *. rewrite length_take. lia. }
  split; [lia|]. split; [by apply border_agree; [lia..|]|].
  rewrite Hw. intros k Hk Hsuf.
  apply border_agree in Hsuf; [|lia..].
  destruct (decide (k ≤ b)) as [|Hgt]; [done|].
  exfalso. apply (Hmin (j - k)); [lia|]. done.
Qed.
End borders.

(** ** The properties of the scanners and of the dispatcher *)

Section scanner_properties.
Context {char : Type} `{!Alphabet char, !SetOrder char}.
Implicit Types (text pattern : list char) (subs : list (list char)).

(** C1: for every text and every non-empty pattern the four single-pattern
    scanners return the same sequence of positions; it is ascending and
    holds exactly the positions where the pattern occurs (overlapping or
    not). The automaton built from the one-element list of the pattern
    returns without exception, and its result holds that same sequence
    under the pattern (no entry when the sequence is empty) and nothing
    under any other key. *)
Theorem scanners_agree text pattern :
  pattern ≠ [] →
  ∃ positions,
    kmp_search text pattern = Ret positions ∧
    boyer_moore_search text pattern = Ret positions ∧
    boyer_moore_horspool_search text pattern = Ret positions ∧
    rabin_karp_search text pattern = Ret positions ∧
    StronglySorted Z.lt positions ∧
    (∀ s, s ∈ positions ↔ occurs_at text pattern s) ∧
    ∃ ac result,
      build_automaton ac_init [pattern] = Ret ac ∧
      ac_search ac text = Ret result ∧
      dict_get_default pattern [] result = positions ∧
      (dict_get pattern result = None ↔ positions = []) ∧
      ∀ q, q ≠ pattern → dict_get q result = None.
Proof.
  intros Hne. exists (occurrences text pattern).
  split; [apply kmp_search_correct|].
  split; [apply boyer_moore_search_correct|].
  split; [apply boyer_moore_horspool_search_correct|].
  split; [apply rabin_karp_search_correct|].
  split; [apply occurrences_sorted|].
  split. { intros s. rewrite elem_of_occurrences. naive_solver. }
  assert ([] ∉ [pattern]) as Hpats.
  { intros ?%list_elem_of_singleton. by apply Hne. }
  destruct (build_automaton_spec [pattern] Hpats) as (ac & Hbuild & Hok).
  destruct (ac_search_spec [pattern] ac text Hpats Hok)
    as (result & Hsearch & _ & Hget).
  exists ac, result. do 2 (split; [done|]).
  assert (dict_get pattern result = nonempty_opt (occurrences text pattern))
    as Hp.
  { rewrite Hget. unfold multiplicity. rewrite filter_cons_True by done.
    rewrite filter_nil. simpl. by rewrite repeat_each_1. }
  split; [|split].
  - unfold dict_get_default. rewrite Hp. apply default_nonempty_opt.
  - rewrite Hp. apply nonempty_opt_None.
  - intros q Hq. rewrite Hget, multiplicity_not_in, repeat_each_0; [done|].
    by intros ?%list_elem_of_singleton.
Qed.

(** C2: for every text, every non-empty single pattern and every count
    [k >= 0], [search] with direction 'first' returns the first [k]
    occurrences of the folded pattern in the folded text as a tuple ([None]
    standing for the empty one): their number is at most [k] and is the
    minimum of [k] and the number of all occurrences. *)
Theorem count_limits_single text pattern cs k :
  pattern ≠ [] → 0 ≤ k →
  ∃ matches,
    search text (Single pattern) cs "first" (Some k) =
      Ret (Positions <$> tuple_or_none matches) ∧
    matches =
      take (Z.to_nat k) (occurrences (fold_case cs text) (fold_case cs pattern)) ∧
    len matches ≤ k ∧
    len matches =
      Z.min k (len (occurrences (fold_case cs text) (fold_case cs pattern))).
Proof.
  intros _ Hk. eexists. split; [|split; [reflexivity|]].
  - rewrite search_single, apply_method_first. simpl.
    by rewrite slice_to_nonneg by done.
  - unfold len. rewrite length_take. lia.
Qed.

(** C4: without a count, [search] with direction 'last' returns the result
    of direction 'first' with every tuple reversed. With a count [k >= 0]
    and a single pattern it returns the first [k] entries of the reversed
    sequence, which are the last [k] matches, nearest the end first; with a
    list of patterns the mapping is regrouped from the first [k] pairs of
    the reversed merged sequence. *)
Theorem last_is_reversed_first text sub_string cs :
  (∃ r, search text sub_string cs "first" None = Ret r ∧
        search text sub_string cs "last" None = Ret (reverse_found <$> r)) ∧
  (∀ pattern k, sub_string = Single pattern → 0 ≤ k →
     ∃ first,
       search text sub_string cs "first" None =
         Ret (Positions <$> tuple_or_none first) ∧
       search text sub_string cs "last" (Some k) =
         Ret (Positions <$> tuple_or_none (take (Z.to_nat k) (reverse first))) ∧
       take (Z.to_nat k) (reverse first) =
         reverse (drop (length first - Z.to_nat k) first)) ∧
  (∀ subs k, sub_string = Multi subs → 0 ≤ k →
     ∃ merged,
       merged ≡ₚ all_pairs (fold_case cs text) (fold_patterns cs subs) ∧
       StronglySorted pos_le merged ∧
       search text sub_string cs "first" None =
         Ret (Mapping <$> dict_or_none (regroup cs subs merged)) ∧
       search text sub_string cs "last" None =
         Ret (Mapping <$> dict_or_none (regroup cs subs (reverse merged))) ∧
       search text sub_string cs "last" (Some k) =
         Ret (Mapping <$> dict_or_none
                (regroup cs subs (take (Z.to_nat k) (reverse merged))))).
Proof.
  split; [|split].
  - destruct sub_string as [pattern|subs].
    + rewrite !search_single, apply_method_first, apply_method_last. simpl.
      eexists. split; [done|]. rewrite tuple_or_none_reverse.
      by destruct (tuple_or_none _).
    + destruct (search_multi_merged text subs cs) as (merged & _ & _ & Hsearch).
      rewrite !Hsearch, apply_method_first, apply_method_last. simpl.
      eexists. split; [done|].
      rewrite regroup_reverse, dict_or_none_reverse_values.
      by destruct (dict_or_none _).
  - intros pattern k -> Hk. eexists. split; [|split].
    + by rewrite search_single, apply_method_first.
    + rewrite search_single, apply_method_last. simpl.
      by rewrite slice_to_nonneg by done.
    + apply take_reverse.
  - intros subs k -> Hk.
    destruct (search_multi_merged text subs cs) as (merged & Hsorted & Hpos & Hsearch).
    exists merged. split; [by eapply merged_perm|]. split; [done|].
    rewrite !Hsearch, apply_method_first, apply_method_last. simpl.
    by rewrite slice_to_nonneg by done.
Qed.

(** C5: [search] returns for every input: it raises no exception and does
    not run out of steps. It returns [None] when the text is empty, when
    the single pattern is empty, when the list of patterns is empty or
    holds empty patterns only, and when no pattern occurs in the text. *)
Theorem search_fails_softly text sub_string cs method count :
  (∃ r, search text sub_string cs method count = Ret r) ∧
  (text = [] → search text sub_string cs method count = Ret None) ∧
  (sub_string = Single [] → search text sub_string cs method count = Ret None) ∧
  (sub_string = Multi [] → search text sub_string cs method count = Ret None) ∧
  (∀ subs, sub_string = Multi subs → Forall (λ p, p = []) subs →
     search text sub_string cs method count = Ret None) ∧
  (∀ pattern, sub_string = Single pattern →
     occurrences (fold_case cs text) (fold_case cs pattern) = [] →
     search text sub_string cs method count = Ret None) ∧
  (∀ subs, sub_string = Multi subs →
     (∀ q, q ∈ subs → occurrences (fold_case cs text) (fold_case cs q) = []) →
     search text sub_string cs method count = Ret None).
Proof.
  split; [apply search_total|].
  split. { intros ->. unfold search. by rewrite decide_True. }
  split.
  { intros ->. rewrite search_single, fold_case_nil, occurrences_nil_pattern.
    by rewrite apply_method_nil, apply_count_nil. }
  split. { intros ->. apply search_multi_degenerate. by right. }
  split.
  { intros subs -> Hall. apply search_multi_degenerate. right.
    by apply fold_patterns_all_empty. }
  split.
  - intros pattern -> Hno. rewrite search_single, Hno.
    by rewrite apply_method_nil, apply_count_nil.
  - intros subs -> Hno. by apply search_multi_no_match.
Qed.
End scanner_properties.

Section dispatcher_properties.
Context {char : Type} `{!Alphabet char, !SetOrder char}.
Implicit Types (text pattern : list char) (subs : list (list char)).

(** One step of the Rabin-Karp loop appends the position exactly when the
    hashes are equal and the window equals the pattern. *)
Lemma rabin_karp_body_records text pattern base modulus h pattern_hash
    text_hash matches i st' :
  rabin_karp_body text pattern base modulus h pattern_hash (text_hash, matches) i
    = Ret st' →
  st'.2 =
    if decide (pattern_hash = text_hash ∧ slice text i (i + len pattern) = pattern)
    then matches ++ [i] else matches.
Proof.
  unfold rabin_karp_body. cbv zeta.
  set (matches' := if decide (pattern_hash = text_hash) then _ else _).
  assert (matches' =
    if decide (pattern_hash = text_hash ∧ slice text i (i + len pattern) = pattern)
    then matches ++ [i] else matches) as <-.
  { unfold matches'. repeat case_decide; naive_solver. }
  clearbody matches'. case_decide; [|by intros [= <-]].
  destruct (getitem text i) as [ti| |]; [|done..]. rewrite bind_Ret.
  destruct (getitem text (i + len pattern)) as [tn| |]; [|done..].
  rewrite bind_Ret. by intros [= <-].
Qed.

(** C6: a step of the Rabin-Karp loop records the position only when the
    hash of the window equals the hash of the pattern and the window itself
    equals the pattern; for every text and non-empty pattern the scan
    returns exactly the positions where the pattern occurs, whatever the
    hashes of the other windows. *)
Theorem rabin_karp_compares_windows text pattern :
  pattern ≠ [] →
  (∀ base modulus h pattern_hash text_hash matches i st',
     rabin_karp_body text pattern base modulus h pattern_hash
       (text_hash, matches) i = Ret st' →
     st'.2 =
       if decide (pattern_hash = text_hash ∧
                  slice text i (i + len pattern) = pattern)
       then matches ++ [i] else matches) ∧
  ∃ positions,
    rabin_karp_search text pattern = Ret positions ∧
    StronglySorted Z.lt positions ∧
    ∀ s, s ∈ positions ↔ occurs_at text pattern s.
Proof.
  intros Hne. split.
  - intros *. apply rabin_karp_body_records.
  - exists (occurrences text pattern).
    split; [apply rabin_karp_search_correct|].
    split; [apply occurrences_sorted|].
    intros s. rewrite elem_of_occurrences. naive_solver.
Qed.

(** C7: for every non-empty pattern [compute_lps] returns a table of the
    length of the pattern; its entry [i] is the length of the longest border
    of the first [i + 1] characters of the pattern (their longest prefix,
    shorter than they are, that is also their suffix). So entry [i] is at
    most [i], and entry 0 is 0. *)
Theorem compute_lps_longest_border pattern :
  pattern ≠ [] →
  ∃ table,
    compute_lps pattern = Ret table ∧
    length table = length pattern ∧
    (∀ i : nat, (i < length pattern)%nat →
       ∃ b, table !! i = Some b ∧ longest_border (take (S i) pattern) b ∧
            0 ≤ b ≤ Z.of_nat i) ∧
    table !! 0%nat = Some 0.
Proof.
  intros Hne. destruct (compute_lps_correct pattern Hne) as (table & Hrun & Hlen & Htab).
  assert (∀ i : nat, (i < length pattern)%nat →
    ∃ b, table !! i = Some b ∧ longest_border (take (S i) pattern) b ∧
         0 ≤ b ≤ Z.of_nat i) as Hentries.
  { intros i Hi.
    destruct (lps_entry_longest_border pattern table (Z.of_nat (S i)))
      as (b & Hget & Hb); [unfold len; lia|apply Htab; unfold len; lia|].
    exists b. apply zget_Some in Hget as [_ Hget].
    replace (Z.to_nat (Z.of_nat (S i) - 1)) with i in Hget by lia.
    rewrite Nat2Z.id in Hb. do 2 (split; [done|]).
    destruct Hb as [Hb _]. unfold len in Hb. rewrite length_take in Hb. lia. }
  exists table. split; [done|]. split; [unfold len in Hlen; lia|].
  split; [done|].
  destruct (Hentries 0%nat) as (b & Hget & _ & Hb).
  { pose proof (len_pos _ Hne). unfold len in *. lia. }
  rewrite Hget. f_equal. lia.
Qed.

(** C9: with any direction other than 'last', [search] returns what it
    returns with direction 'first'; it returns for every such direction. *)
Theorem other_methods_are_first text sub_string cs method count :
  method ≠ "last"%string →
  search text sub_string cs method count =
    search text sub_string cs "first" count ∧
  ∃ r, search text sub_string cs method count = Ret r.
Proof.
  intros Hm. split; [|apply search_total].
  destruct sub_string as [pattern|subs].
  - by rewrite !search_single, apply_method_other, apply_method_first.
  - destruct (search_multi_merged text subs cs) as (merged & _ & _ & Hsearch).
    by rewrite !Hsearch, apply_method_other, apply_method_first.
Qed.

(** C10: for a single pattern with at least one match and a negative count
    [c], [search] cuts the sequence of matches (reversed for direction
    'last') with the slice [matches[:c]], which removes its last [-c]
    entries: it returns the rest as a tuple, and [None] when [-c] is at
    least the number of matches. It raises no exception. *)
Theorem negative_count_drops_last text pattern cs method c :
  c < 0 →
  occurrences (fold_case cs text) (fold_case cs pattern) ≠ [] →
  let matches :=
    apply_method method (occurrences (fold_case cs text) (fold_case cs pattern)) in
  let kept := take (length matches - Z.to_nat (- c)) matches in
  search text (Single pattern) cs method (Some c) =
    Ret (Positions <$> tuple_or_none kept) ∧
  kept = slice_to matches c ∧
  (len matches ≤ - c →
     search text (Single pattern) cs method (Some c) = Ret None) ∧
  (- c < len matches →
     search text (Single pattern) cs method (Some c) = Ret (Some (Positions kept)) ∧
     len kept = len matches + c).
Proof.
  intros Hc Hocc matches kept.
  assert (kept = slice_to matches c) as Hkept
    by (symmetry; by apply slice_to_neg).
  assert (search text (Single pattern) cs method (Some c) =
          Ret (Positions <$> tuple_or_none kept)) as Hsearch.
  { rewrite Hkept. exact (search_single text pattern cs method (Some c)). }
  do 2 (split; [done|]). split.
  - intros Hall. rewrite Hsearch. unfold kept.
    replace (length matches - Z.to_nat (- c))%nat with 0%nat
      by (unfold len in Hall; lia).
    done.
  - intros Hsome. rewrite Hsearch.
    assert (len kept = len matches + c) as Hlen.
    { unfold kept, len in *. rewrite length_take. lia. }
    split; [|done]. destruct kept as [|z kept']; [|done].
    unfold len in *. simpl in Hlen. lia.
Qed.
End dispatcher_properties.

(** ** The properties at concrete inputs *)

(** Two windows with the same hash: the scan does not report the one that
    differs from the pattern. *)
Example rabin_karp_collision :
  rolling_hash (chars "bG") 256 101 = rolling_hash (chars "a}") 256 101 ∧
  rabin_karp_search (chars "bGa}") (chars "a}") = Ret [2].
Proof. by vm_compute. Qed.

Lemma scanners_agree_witness :
  chars "aba" ≠ [] ∧
  ∃ positions,
    kmp_search (chars "ababbababa") (chars "aba") = Ret positions ∧
    boyer_moore_search (chars "ababbababa") (chars "aba") = Ret positions ∧
    boyer_moore_horspool_search (chars "ababbababa") (chars "aba") = Ret positions ∧
    rabin_karp_search (chars "ababbababa") (chars "aba") = Ret positions.
Proof.
  assert (chars "aba" ≠ []) as Hne by by vm_compute.
  split; [exact Hne|].
  destruct (scanners_agree (chars "ababbababa") (chars "aba") Hne)
    as (positions & Hkmp & Hbm & Hbmh & Hrk & _).
  by exists positions.
Defined.

Lemma count_limits_single_witness :
  chars "ABA" ≠ [] ∧ 0 ≤ 2 ∧
  search (chars "ababbababa") (Single (chars "ABA")) false "first" (Some 2) =
    Ret (Some (Positions [0; 5])).
Proof.
  assert (chars "ABA" ≠ []) as Hne by by vm_compute.
  assert (0 ≤ 2) as Hk by lia.
  do 2 (split; [done|]).
  destruct (count_limits_single (chars "ababbababa") (chars "ABA") false 2 Hne Hk)
    as (matches & -> & -> & _).
  by vm_compute.
Defined.

Lemma last_is_reversed_first_witness :
  0 ≤ 2 ∧
  ∃ first,
    search (chars "ababbababa") (Single (chars "aba")) false "first" None =
      Ret (Positions <$> tuple_or_none first) ∧
    search (chars "ababbababa") (Single (chars "aba")) false "last" (Some 2) =
      Ret (Positions <$> tuple_or_none (take (Z.to_nat 2) (reverse first))) ∧
    take (Z.to_nat 2) (reverse first) =
      reverse (drop (length first - Z.to_nat 2) first).
Proof.
  assert (0 ≤ 2) as Hk by lia. split; [done|].
  exact (proj1 (proj2 (last_is_reversed_first (chars "ababbababa")
                         (Single (chars "aba")) false))
           (chars "aba") 2 eq_refl Hk).
Defined.

Lemma search_fails_softly_witness :
  Forall (λ p : list ascii, p = []) [[]; []] ∧
  search (chars "abc") (Multi [[]; []]) false "first" None = Ret None.
Proof.
  assert (Forall (λ p : list ascii, p = []) [[]; []]) as Hall
    by by repeat constructor.
  split; [done|].
  exact (proj1 (proj2 (proj2 (proj2 (proj2
           (search_fails_softly (chars "abc") (Multi [[]; []]) false "first" None)))))
           [[]; []] eq_refl Hall).
Defined.

Lemma rabin_karp_compares_windows_witness :
  chars "a}" ≠ [] ∧
  ∃ positions,
    rabin_karp_search (chars "bGa}") (chars "a}") = Ret positions ∧
    StronglySorted Z.lt positions ∧
    ∀ s, s ∈ positions ↔ occurs_at (chars "bGa}") (chars "a}") s.
Proof.
  assert (chars "a}" ≠ []) as Hne by by vm_compute.
  split; [done|].
  exact (proj2 (rabin_karp_compares_windows (chars "bGa}") (chars "a}") Hne)).
Defined.

Lemma compute_lps_longest_border_witness :
  chars "aabaaab" ≠ [] ∧
  ∃ table,
    compute_lps (chars "aabaaab") = Ret table ∧
    length table = length (chars "aabaaab") ∧
    table !! 0%nat = Some 0.
Proof.
  assert (chars "aabaaab" ≠ []) as Hne by by vm_compute.
  split; [done|].
  destruct (compute_lps_longest_border (chars "aabaaab") Hne)
    as (table & Hrun & Hlen & _ & H0).
  by exists table.
Defined.

Lemma other_methods_are_first_witness :
  "LAST"%string ≠ "last"%string ∧
  search (chars "ababbababa") (Single (chars "aba")) false "LAST" (Some 2) =
    search (chars "ababbababa") (Single (chars "aba")) false "first" (Some 2).
Proof.
  assert ("LAST"%string ≠ "last"%string) as Hm by done.
  split; [done|].
  exact (proj1 (other_methods_are_first (chars "ababbababa")
                  (Single (chars "aba")) false "LAST" (Some 2) Hm)).
Defined.

Lemma negative_count_drops_last_witness :
  -1 < 0 ∧
  occurrences (fold_case false (chars "ababbababa")) (fold_case false (chars "ABA"))
    ≠ [] ∧
  search (chars "ababbababa") (Single (chars "ABA")) false "last" (Some (-1)) =
    Ret (Some (Positions [7; 5])).
Proof.
  assert (-1 < 0) as Hc by lia.
  assert (occurrences (fold_case false (chars "ababbababa"))
            (fold_case false (chars "ABA")) ≠ []) as Hocc by by vm_compute.
  do 2 (split; [done|]).
  destruct (negative_count_drops_last (Alphabet0 := ascii_alphabet)
              (chars "ababbababa") (chars "ABA") false "last" (-1) Hc Hocc)
    as (-> & _).
  by vm_compute.
Defined.

(** ** The tables of the scanners *)

Section tables.
Context {char : Type} `{!Alphabet char, !SetOrder char}.
Implicit Types (text pattern : list char).

(** X1: [bad_char_table] returns without exception a table that holds, for
    every character of the pattern, the index of its last occurrence in the
    pattern, and no entry for any other character. *)
Theorem bad_char_table_last_index pattern :
  ∃ table,
    bad_char_table pattern = Ret table ∧
    ∀ c, match dict_get c table with
         | Some i => 0 ≤ i < len pattern ∧ zget pattern i = Some c ∧
                     ∀ j, i < j < len pattern → zget pattern j ≠ Some c
         | None => c ∉ pattern
         end.
Proof.
  destruct (last_index_table_build pattern (λ i, i) (len pattern))
    as (table & Hrun & Htab); [pose proof (len_nonneg pattern); lia|].
  exists table. split; [exact Hrun|]. intros c. specialize (Htab c).
  destruct (dict_get c table) as [v|].
  - destruct Htab as (i & -> & Hi & Hget & Hlast). done.
  - intros (n & Hn)%list_elem_of_lookup.
    apply (Htab (Z.of_nat n)).
    + apply lookup_lt_Some in Hn. unfold len. lia.
    + apply zget_Some. split; [lia|]. by rewrite Nat2Z.id.
Qed.

(** X2: the skip table of [boyer_moore_horspool_search], built from all
    characters of the pattern but the last, holds for each of them the
    distance from its last occurrence there to the end of the pattern, and
    no entry for any other character; so the shift read from it, with the
    length of the pattern as the default, is at least 1 and at most that
    length. *)
Theorem horspool_skip_table_distance pattern :
  pattern ≠ [] →
  ∃ skip,
    horspool_skip_table pattern = Ret skip ∧
    ∀ c, 1 ≤ dict_get_default c (len pattern) skip ≤ len pattern ∧
         match dict_get c skip with
         | Some d => ∃ i, d = len pattern - i - 1 ∧ 0 ≤ i < len pattern - 1 ∧
                          zget pattern i = Some c ∧
                          ∀ j, i < j < len pattern - 1 → zget pattern j ≠ Some c
         | None => ∀ j, 0 ≤ j < len pattern - 1 → zget pattern j ≠ Some c
         end.
Proof.
  intros Hne. pose proof (len_pos _ Hne) as Hm.
  destruct (last_index_table_build pattern (λ i, len pattern - i - 1)
              (len pattern - 1)) as (skip & Hrun & Htab); [lia|].
  exists skip. split; [exact Hrun|]. intros c. specialize (Htab c).
  unfold dict_get_default. destruct (dict_get c skip) as [d|].
  - destruct Htab as (i & -> & Hi & Hget & Hlast).
    split; [lia|]. by exists i.
  - split; [lia|done].
Qed.

(** ** The rolling hash *)

Lemma horner_snoc (s : list char) c base :
  horner (s ++ [c]) base = horner s base * base + ord c.
Proof. unfold horner. by rewrite foldl_app. Qed.

(** X3: for a positive modulus, [rolling_hash] is the value of the string
    as a number in the given base, reduced by the modulus; it lies between
    0 and the modulus. *)
Theorem rolling_hash_polynomial (s : list char) base modulus :
  0 < modulus →
  rolling_hash s base modulus = horner s base `mod` modulus ∧
  0 ≤ rolling_hash s base modulus < modulus.
Proof.
  intros Hq.
  assert (rolling_hash s base modulus = horner s base `mod` modulus) as Heq.
  { induction s as [|c s IH] using rev_ind; [done|].
    rewrite rolling_hash_snoc, horner_snoc, IH.
    apply mod_eq_of_diff. exists (- (horner s base / modulus) * base).
    rewrite Z.mod_eq by lia. ring. }
  split; [done|]. rewrite Heq. apply Z.mod_pos_bound. done.
Qed.

(** X4: the three assignments at the end of a step of [rabin_karp_search]
    turn the hash of the window at [i] into the hash of the window at
    [i + 1], for every base and positive modulus, [h] being the power of
    the base that the function computes. *)
Theorem rabin_karp_rolls_hash text pattern base modulus pattern_hash matches i :
  pattern ≠ [] → 0 < modulus → 0 ≤ i < len text - len pattern →
  ∃ matches',
    rabin_karp_body text pattern base modulus
      ((base ^ (len pattern - 1)) `mod` modulus) pattern_hash
      (rolling_hash (slice text i (i + len pattern)) base modulus, matches) i =
    Ret (rolling_hash (slice text (i + 1) (i + 1 + len pattern)) base modulus,
         matches').
Proof.
  intros Hne Hq Hi. pose proof (len_pos _ Hne) as Hm.
  unfold rabin_karp_body.
  set (matches' := if decide (pattern_hash = _) then _ else _).
  clearbody matches'. cbv zeta.
  rewrite decide_True by lia.
  destruct (zget_is_Some text i) as [x Hx]; [lia|].
  destruct (zget_is_Some text (i + len pattern)) as [y Hy]; [lia|].
  py_simpl. exists matches'. do 2 f_equal.
  destruct (window_shift text (len pattern) i x y) as (w & Hlen & Hw & Hw');
    [lia|lia|done..|].
  rewrite !slice_window by lia. rewrite Hw, Hw', <- Hlen.
  by apply rolling_hash_slide.
Qed.

(** ** The scanners where nothing can match *)

Lemma occurrences_too_long text pattern :
  len text < len pattern → occurrences text pattern = [].
Proof.
  intros Hlen. destruct (occurrences text pattern) as [|s l] eqn:E; [done|].
  assert (s ∈ occurrences text pattern) as Hs by (rewrite E; by left).
  apply elem_of_occurrences in Hs as [Hne Hocc].
  apply occurs_at_bound in Hocc; [lia|done].
Qed.

(** X5: for an empty pattern, and for a pattern longer than the text (so
    for every non-empty pattern in an empty text), each of the four
    scanners returns the empty list; none raises an exception. *)
Theorem scanners_nothing_to_find text pattern :
  pattern = [] ∨ len text < len pattern →
  kmp_search text pattern = Ret [] ∧
  boyer_moore_search text pattern = Ret [] ∧
  boyer_moore_horspool_search text pattern = Ret [] ∧
  rabin_karp_search text pattern = Ret [].
Proof.
  intros Hcase.
  assert (occurrences text pattern = []) as Hocc.
  { destruct Hcase as [->|Hlen];
      [apply occurrences_nil_pattern|by apply occurrences_too_long]. }
  rewrite kmp_search_correct, boyer_moore_search_correct,
    boyer_moore_horspool_search_correct, rabin_karp_search_correct, Hocc.
  done.
Qed.
End tables.

(** ** The automaton: its trie, its failure links and its outputs *)

Section automaton.
Context {char : Type} `{!Alphabet char, !SetOrder char}.
Implicit Types (goto : dict (Z * char) Z) (w x p : list char).
Implicit Types (patterns : list (list char)).

(** A step of the insertion adds at most the word it enters. *)
Lemma trie_step_words goto cur c x goto' cur' :
  trie goto → node goto x cur →
  trie_step (goto, cur) c = Ret (goto', cur') →
  ∀ w, in_trie goto' w → in_trie goto w ∨ w = x ++ [c].
Proof.
  intros Ht Hx. pose proof (node_bound _ _ _ Ht Hx) as Hcur.
  unfold trie_step. destruct (dict_mem (cur, c) goto) eqn:Hmem.
  { apply dict_mem_true in Hmem as [v Hv].
    rewrite (dict_getitem_Some _ _ _ Hv). py_simpl. intros [= <- <-]. by left. }
  apply dict_mem_false in Hmem. cbv zeta.
  rewrite (dict_getitem_Some (cur, c) (len goto + 1)) by apply dict_get_set_eq.
  py_simpl. intros [= <- <-].
  assert (∀ w v, node (dict_set (cur, c) (len goto + 1) goto) w v →
                 node goto w v ∨ (w = x ++ [c] ∧ v = len goto + 1)) as Hnodes.
  { induction w as [|a w IH] using rev_ind; intros v.
    - intros ->%node_nil. left. by apply node_nil.
    - intros (s & Hs & Hv)%node_snoc. rewrite dict_get_set in Hv.
      destruct (IH s Hs) as [Hold|[-> ->]].
      + case_decide as Heq.
        * injection Heq as -> ->. injection Hv as <-. right.
          by rewrite (node_inj _ _ _ _ Ht Hold Hx).
        * left. apply node_snoc. by exists s.
      + case_decide as Heq; [injection Heq as Heq _; lia|].
        apply (trie_edge _ Ht) in Hv. lia. }
  intros w [v Hv]. destruct (Hnodes w v Hv) as [?|[-> _]]; [left; by exists v|by right].
Qed.

(** Entering a pattern adds its prefixes and nothing else. *)
Lemma trie_insert_words goto pattern goto' cur :
  trie goto →
  for_each pattern trie_step (goto, 0) = Ret (goto', cur) →
  ∀ w, in_trie goto' w → in_trie goto w ∨ w `prefix_of` pattern.
Proof.
  intros Ht Hrun.
  destruct (for_each_inv
              (λ l1 (st : dict (Z * char) Z * Z),
                 trie st.1 ∧ node st.1 l1 st.2 ∧
                 ∀ w, in_trie st.1 w → in_trie goto w ∨ w `prefix_of` l1)
              pattern trie_step (goto, 0))
    as ([goto'' cur''] & Hrun' & _ & _ & Hwords).
  - simpl. split; [done|]. split; [done|]. intros w ?. by left.
  - intros l1 c l2 [g s] Hsplit (Htg & Hnode & Hw). simpl in *.
    pose proof (node_bound _ _ _ Htg Hnode) as Hb.
    pose proof (len_nonneg l1) as Hl1.
    destruct (trie_step_spec g s c Htg) as (g' & s' & Hstep & Htg' & Hext & Hget & _);
      [lia|].
    exists (g', s'). split; [done|]. simpl. split; [done|]. split.
    + apply node_snoc. exists s. split; [by eapply extends_node|done].
    + intros w Hin.
      destruct (trie_step_words g s c l1 g' s' Htg Hnode Hstep w Hin) as [Hold| ->].
      * destruct (Hw w Hold) as [?|Hpre]; [by left|]. right.
        by apply prefix_app_r.
      * by right.
  - rewrite Hrun in Hrun'. injection Hrun' as <- <-. exact Hwords.
Qed.

(** The words of the trie of a list of patterns are the prefixes of the
    patterns. *)
Lemma build_tables_words patterns goto output :
  for_each patterns insert_pattern ([], []) = Ret (goto, output) →
  ∀ w, in_trie goto w ↔ w = [] ∨ ∃ p, p ∈ patterns ∧ w `prefix_of` p.
Proof.
  intros Hrun.
  destruct (for_each_inv
              (λ l1 (st : dict (Z * char) Z * dict Z (list (list char))),
                 trie st.1 ∧ Forall (in_trie st.1) l1 ∧
                 own_output l1 st.1 st.2 ∧
                 ∀ w, in_trie st.1 w → w = [] ∨ ∃ p, p ∈ l1 ∧ w `prefix_of` p)
              patterns insert_pattern ([], []))
    as ([goto' output'] & Hrun' & Ht & Hin & _ & Hwords).
  - simpl. split; [apply trie_empty|]. split; [done|]. split.
    + split; [by intros v w Hw|by intros v [? ?]].
    + intros w [v Hv]. left. destruct w as [|a w]; [done|]. done.
  - intros l1 p l2 [g o0] Hsplit (Htg & Hing & Hown & Hw). simpl in *.
    destruct (insert_pattern_spec l1 g o0 p Htg Hing Hown)
      as (g' & o' & Hstep & Htg' & Hext & Hing' & Hown').
    exists (g', o'). split; [done|]. simpl. do 3 (split; [done|]).
    intros w Hin. unfold insert_pattern in Hstep.
    destruct (for_each p trie_step (g, 0)) as [[g1 cur]| |] eqn:Hins; [|done..].
    rewrite bind_Ret in Hstep.
    destruct (output_append cur p o0) as [o1| |]; [|done..].
    rewrite bind_Ret in Hstep. injection Hstep as <- <-.
    destruct (trie_insert_words g p g1 cur Htg Hins w Hin) as [Hold|Hpre].
    + destruct (Hw w Hold) as [?|(q & Hq & Hpre)]; [by left|]. right.
      exists q. split; [|done]. apply elem_of_app. by left.
    + right. exists p. split; [|done]. apply elem_of_app. right. by left.
  - rewrite Hrun in Hrun'. injection Hrun' as <- <-. intros w. split; [apply Hwords|].
    intros [->|(p & Hp & [k ->])]; [by exists 0|].
    rewrite Forall_forall in Hin. by eapply in_trie_prefix, Hin.
Qed.

(** The automaton keeps the trie of the first phase. *)
Lemma build_automaton_words patterns ac :
  build_automaton ac_init patterns = Ret ac →
  ∀ w, in_trie (goto ac) w ↔ w = [] ∨ ∃ p, p ∈ patterns ∧ w `prefix_of` p.
Proof.
  unfold build_automaton, ac_init. cbn [goto fail output].
  destruct (build_tables_spec patterns) as (goto0 & output0 & Hrun & _).
  rewrite Hrun, bind_Ret.
  destruct (for_each (children goto0 0) _ _) as [[queue fail0]| |]; [|done..].
  rewrite bind_Ret.
  destruct (while _ _ _ _) as [[[queue' fail'] output']| |]; [|done..].
  rewrite bind_Ret. intros [= <-]. cbn [goto].
  by apply (build_tables_words patterns goto0 output0).
Qed.

Lemma elem_of_suffix_pats patterns w p :
  p ∈ suffix_pats patterns w ↔ p ∈ patterns ∧ p ≠ [] ∧ p `suffix_of` w.
Proof.
  induction w as [|a w IH]; simpl.
  - split; [by intros ?%elem_of_nil|]. intros (_ & Hne & ->%suffix_nil_inv). done.
  - rewrite elem_of_app, IH. unfold own. rewrite list_elem_of_filter. split.
    + intros [[-> Hp]|(Hp & Hne & Hsuf)]; [done|].
      do 2 (split; [done|]). by apply suffix_cons_r.
    + intros (Hp & Hne & Hsuf). destruct (decide (p = a :: w)) as [->|Hneq];
        [by left|]. right. do 2 (split; [done|]).
      destruct p as [|b p]; [done|].
      apply suffix_cons_inv in Hsuf as [?|?]; done.
Qed.

Lemma multiplicity_nodup {A} `{EqDecision A} (p : A) (l : list A) :
  NoDup l → p ∈ l → multiplicity p l = 1%nat.
Proof.
  unfold multiplicity. induction 1 as [|x l Hx Hnd IH]; [by intros ?%elem_of_nil|].
  rewrite filter_cons. intros [->|Hp]%elem_of_cons.
  - rewrite decide_True by done. simpl. f_equal.
    apply length_zero_iff_nil, filter_none, Forall_forall. by intros y Hy ->.
  - rewrite decide_False by by intros ->. by apply IH.
Qed.

(** X6: for every list of distinct non-empty patterns, building the
    automaton and scanning a text with it raises no exception, and the
    result holds under each pattern that occurs in the text the ascending
    list of all the positions where it occurs (overlapping ones, and those
    inside occurrences of other patterns); its keys are the patterns that
    occur, each once. *)
Theorem aho_corasick_finds_all patterns text :
  [] ∉ patterns → NoDup patterns →
  ∃ ac result,
    build_automaton ac_init patterns = Ret ac ∧
    ac_search ac text = Ret result ∧
    NoDup result.*1 ∧
    (∀ p, p ∈ result.*1 ↔ p ∈ patterns ∧ occurrences text p ≠ []) ∧
    ∀ p, p ∈ patterns → dict_get_default p [] result = occurrences text p.
Proof.
  intros Hne Hnd.
  destruct (build_automaton_spec patterns Hne) as (ac & Hbuild & Hok).
  destruct (ac_search_spec patterns ac text Hne Hok) as (result & Hrun & Hkeys & Hget).
  exists ac, result. do 3 (split; [done|]). split.
  - intros p. rewrite <- dict_get_is_Some_key, Hget.
    destruct (decide (p ∈ patterns)) as [Hp|Hp].
    + rewrite multiplicity_nodup, repeat_each_1 by done.
      destruct (occurrences text p); simpl; split;
        first [done | by intros [? ?] | by intros [_ ?]].
    + rewrite multiplicity_not_in, repeat_each_0 by done. simpl.
      split; [by intros [? ?]|by intros [? _]].
  - intros p Hp. unfold dict_get_default.
    rewrite Hget, multiplicity_nodup, repeat_each_1 by done.
    apply default_nonempty_opt.
Qed.

(** X7: the transitions of the automaton built from a list of non-empty
    patterns form a trie: the words spelled from state 0 are the prefixes of
    the patterns, two different words lead to different states, and every
    transition leads to a state with a larger number that is at most the
    number of transitions. *)
Theorem automaton_trie patterns :
  [] ∉ patterns →
  ∃ ac,
    build_automaton ac_init patterns = Ret ac ∧
    (∀ w, is_Some (walk (goto ac) 0 w) ↔
          w = [] ∨ ∃ p, p ∈ patterns ∧ w `prefix_of` p) ∧
    (∀ w w' v, walk (goto ac) 0 w = Some v → walk (goto ac) 0 w' = Some v →
               w = w') ∧
    ∀ s c v, dict_get (s, c) (goto ac) = Some v → 0 ≤ s < v ∧ v ≤ len (goto ac).
Proof.
  intros Hne.
  destruct (build_automaton_spec patterns Hne) as (ac & Hbuild & Hok).
  pose proof (ao_trie _ _ Hok) as Ht.
  exists ac. split; [done|]. split; [by apply build_automaton_words|].
  split; [|apply (trie_edge _ Ht)].
  intros w w' v Hw Hw'. by apply (node_inj (goto ac) w w' v).
Qed.

(** X8: in the automaton built from a list of non-empty patterns, the
    failure link of the state of a non-empty word [w] leads to the state of
    the longest proper suffix of [w] that is a prefix of a pattern (the
    empty word, state 0, when there is no other). *)
Theorem automaton_failure_links patterns :
  [] ∉ patterns →
  ∃ ac,
    build_automaton ac_init patterns = Ret ac ∧
    ∀ w v, walk (goto ac) 0 w = Some v → w ≠ [] →
      ∃ f z,
        dict_get v (fail ac) = Some f ∧
        walk (goto ac) 0 z = Some f ∧
        z `suffix_of` tail w ∧
        ∀ z', z' `suffix_of` tail w →
              (z' = [] ∨ ∃ p, p ∈ patterns ∧ z' `prefix_of` p) →
              (length z' ≤ length z)%nat.
Proof.
  intros Hne.
  destruct (build_automaton_spec patterns Hne) as (ac & Hbuild & Hok).
  exists ac. split; [done|]. intros w v Hw Hwne.
  destruct (ao_fail _ _ Hok v w Hw Hwne) as (z & f & Hf & Hz & Hsuf & _ & Hmax).
  exists f, z. do 3 (split; [done|]).
  intros z' Hz' Hpre. apply Hmax; [done|].
  by apply (build_automaton_words patterns ac Hbuild).
Qed.

(** X9: in the automaton built from a list of non-empty patterns, the
    output list of the state of a word [w] holds the patterns that are
    suffixes of [w], the longest first and a pattern as often as it is in
    the list; a state has no output entry when no pattern is a suffix of
    its word. *)
Theorem automaton_outputs patterns :
  [] ∉ patterns →
  ∃ ac,
    build_automaton ac_init patterns = Ret ac ∧
    ∀ w v, walk (goto ac) 0 w = Some v →
      dict_get v (output ac) = nonempty_opt (suffix_pats patterns w) ∧
      (∀ p, p ∈ dict_get_default v [] (output ac) ↔
            p ∈ patterns ∧ p `suffix_of` w) ∧
      (dict_get v (output ac) = None ↔
         ∀ p, p ∈ patterns → ¬ p `suffix_of` w).
Proof.
  intros Hne.
  destruct (build_automaton_spec patterns Hne) as (ac & Hbuild & Hok).
  exists ac. split; [done|]. intros w v Hw.
  pose proof (ao_output _ _ Hok v w Hw) as Hout.
  split; [done|].
  assert (dict_get_default v [] (output ac) = suffix_pats patterns w) as ->.
  { unfold dict_get_default. rewrite Hout. by destruct (suffix_pats patterns w). }
  rewrite Hout. split.
  - intros p. rewrite elem_of_suffix_pats.
    split; [naive_solver|]. intros [Hp Hsuf]. split; [done|].
    split; [by intros ->|done].
  - rewrite nonempty_opt_None. split.
    + intros Hnil p Hp Hsuf.
      assert (p ∈ suffix_pats patterns w) as Hin.
      { apply elem_of_suffix_pats. split; [done|]. split; [by intros ->|done]. }
      rewrite Hnil in Hin. by apply elem_of_nil in Hin.
    + intros Hno. destruct (suffix_pats patterns w) as [|p l] eqn:E; [done|].
      assert (p ∈ suffix_pats patterns w) as Hin by (rewrite E; by left).
      apply elem_of_suffix_pats in Hin as (Hp & _ & Hsuf). by destruct (Hno p).
Qed.
End automaton.

(** ** The dispatcher: counts, case, shape and keys of the result *)

Section dispatcher.
Context {char : Type} `{!Alphabet char, !SetOrder char}.
Implicit Types (text pattern : list char) (subs : list (list char)).
Implicit Types (l : list (Z * list char)).

Lemma apply_count_zero {A} (l : list A) : apply_count (Some 0) l = [].
Proof. simpl. by rewrite slice_to_nonneg by lia. Qed.

Lemma apply_count_ge {A} k (l : list A) : len l ≤ k → apply_count (Some k) l = l.
Proof.
  intros Hk. pose proof (len_nonneg l). simpl.
  rewrite slice_to_nonneg by lia. apply take_ge. unfold len in *. lia.
Qed.

Lemma apply_method_len {A} method (l : list A) : len (apply_method method l) = len l.
Proof. unfold apply_method, len. case_decide; [|done]. by rewrite length_reverse. Qed.

Lemma regroup_no_pairs cs subs :
  dict_or_none (regroup cs subs []) = None.
Proof. by apply dict_or_none_regroup_None. Qed.

(** X10: with the count 0, [search] returns [None] for every text, pattern
    or list of patterns, case flag and direction. *)
Theorem search_count_zero text sub_string cs method :
  search text sub_string cs method (Some 0) = Ret None.
Proof.
  destruct sub_string as [pattern|subs].
  - by rewrite search_single, apply_count_zero.
  - destruct (search_multi_merged text subs cs) as (merged & _ & _ & Hsearch).
    by rewrite Hsearch, apply_count_zero, regroup_no_pairs.
Qed.

(** X11: a count that is at least the number of matches to choose from
    (the occurrences of the single pattern, or all the pairs of all the
    patterns of the list) changes nothing: [search] returns what it returns
    without a count. *)
Theorem search_count_at_least_all text sub_string cs method k :
  match_count cs text sub_string ≤ k →
  search text sub_string cs method (Some k) =
    search text sub_string cs method None.
Proof.
  destruct sub_string as [pattern|subs]; simpl; intros Hk.
  - rewrite !search_single.
    by rewrite apply_count_ge by by rewrite apply_method_len.
  - destruct (search_multi_merged text subs cs) as (merged & _ & Hpos & Hsearch).
    rewrite !Hsearch. rewrite apply_count_ge; [done|].
    rewrite apply_method_len. unfold len in *.
    by rewrite (Permutation_length (merged_perm _ _ _ Hpos)).
Qed.

Lemma positions_of_all (q : list char) l :
  Forall (λ x, x.2 = q) l → positions_of q l = l.*1.
Proof. intros Hall. unfold positions_of. by rewrite filter_all. Qed.

Lemma apply_method_fmap {A B} (f : A → B) method (l : list A) :
  f <$> apply_method method l = apply_method method (f <$> l).
Proof. unfold apply_method. case_decide; [apply fmap_reverse|done]. Qed.

Lemma apply_count_fmap {A B} (f : A → B) count (l : list A) :
  f <$> apply_count count l = apply_count count (f <$> l).
Proof.
  destruct count as [k|]; [|done]. simpl. unfold slice_to, clamp_index, len.
  by rewrite fmap_take, length_fmap.
Qed.

(** X12: a list of one pattern is searched like the pattern alone: when the
    search for the pattern returns a tuple, the search for the list returns
    the dictionary that holds this tuple under the pattern, and when the
    one returns [None], so does the other. *)
Theorem search_singleton_list text pattern cs method count :
  ∃ o,
    search text (Single pattern) cs method count = Ret (Positions <$> o) ∧
    search text (Multi [pattern]) cs method count =
      Ret ((λ t, Mapping [(pattern, Some t)]) <$> o).
Proof.
  eexists. split; [apply search_single|].
  destruct (search_multi_merged text [pattern] cs) as (merged & _ & Hpos & Hsearch).
  rewrite Hsearch. f_equal.
  set (selected := apply_count count (apply_method method merged)).
  assert (Forall (λ x, x.2 = fold_case cs pattern) merged) as Hall.
  { apply Forall_forall. intros x Hx.
    rewrite (merged_perm _ _ _ Hpos) in Hx. apply all_pairs_pattern in Hx.
    apply fold_patterns_elem_of in Hx as (q & Hq & _ & ->).
    by apply list_elem_of_singleton in Hq as ->. }
  assert (positions_of (fold_case cs pattern) selected =
          apply_count count (apply_method method
            (occurrences (fold_case cs text) (fold_case cs pattern)))) as Hsel.
  { rewrite positions_of_all.
    - unfold selected. rewrite apply_count_fmap, apply_method_fmap.
      rewrite <- (positions_of_all (fold_case cs pattern) merged Hall), Hpos.
      do 2 f_equal. destruct (decide (pattern = [])) as [->|Hne].
      + by rewrite fold_case_nil, occurrences_nil_pattern.
      + replace (multiplicity _ _) with 1%nat; [apply repeat_each_1|].
        unfold fold_patterns. rewrite filter_cons_True by done.
        rewrite filter_nil. unfold multiplicity. simpl.
        by rewrite filter_cons_True, filter_nil.
    - apply Forall_forall. intros x Hx. rewrite Forall_forall in Hall.
      apply Hall. by apply apply_count_subseteq, apply_method_elem_of in Hx. }
  unfold regroup. cbn [foldl dict_set]. cbv zeta. rewrite Hsel.
  unfold dict_or_none. clear Hsel. clearbody selected.
  destruct (apply_count count (apply_method method
              (occurrences (fold_case cs text) (fold_case cs pattern))))
    as [|z zs]; by simpl.
Qed.

(** The pairs selected are among the merged ones. *)
Lemma positions_of_selected (q : list char) method count l s :
  s ∈ positions_of q (apply_count count (apply_method method l)) →
  s ∈ positions_of q l.
Proof.
  unfold positions_of. intros (x & -> & Hx)%list_elem_of_fmap.
  apply list_elem_of_filter in Hx as [Hq Hx].
  apply apply_count_subseteq, apply_method_elem_of in Hx.
  apply list_elem_of_fmap. exists x. split; [done|]. by apply list_elem_of_filter.
Qed.

Lemma search_multi_mapping text subs cs method count d :
  search text (Multi subs) cs method count = Ret (Some (Mapping d)) →
  ∃ merged,
    (∀ q, positions_of q merged =
          repeat_each (multiplicity q (fold_patterns cs subs))
            (occurrences (fold_case cs text) q)) ∧
    d = regroup cs subs (apply_count count (apply_method method merged)) ∧
    dict_or_none d = Some d.
Proof.
  destruct (search_multi_merged text subs cs) as (merged & _ & Hpos & Hsearch).
  rewrite Hsearch. intros Heq. exists merged. split; [done|].
  destruct (dict_or_none _) as [d'|] eqn:E; [|done].
  injection Heq as <-. pose proof (dict_or_none_Some _ _ E) as ->. done.
Qed.

(** X13: [search] never returns an empty tuple, and never a dictionary
    without positions: a tuple it returns has an element, a dictionary it
    returns holds a tuple under some key, and every tuple in it has an
    element. A tuple is returned only for a single pattern and a dictionary
    only for a list. *)
Theorem search_result_not_empty text sub_string cs method count r :
  search text sub_string cs method count = Ret (Some r) →
  match r with
  | Positions t => t ≠ [] ∧ ∃ pattern, sub_string = Single pattern
  | Mapping d =>
      (∃ subs, sub_string = Multi subs) ∧
      (∃ q t, (q, Some t) ∈ d) ∧
      ∀ q t, (q, Some t) ∈ d → t ≠ []
  end.
Proof.
  destruct sub_string as [pattern|subs].
  - rewrite search_single. intros Heq.
    destruct (tuple_or_none _) as [t|] eqn:E; [|done].
    injection Heq as <-. split; [|by eexists].
    intros ->. by destruct (apply_count _ _).
  - intros Hrun.
    destruct r as [t|d].
    { destruct (search_multi_merged text subs cs) as (merged & _ & _ & Hsearch).
      rewrite Hsearch in Hrun. by destruct (dict_or_none _). }
    apply search_multi_mapping in Hrun as (merged & _ & Hd & Hsome).
    split; [by eexists|]. split.
    + unfold dict_or_none in Hsome. case_bool_decide as Hex; [|done].
      apply Exists_exists in Hex as ([q [t|]] & Hin & Hv); [|done]. by exists q, t.
    + intros q t Hin. rewrite Hd in Hin.
      apply regroup_elem_of in Hin as [_ Hv].
      intros ->. by destruct (positions_of _ _).
Qed.

Lemma occurs_at_slice text pattern s :
  pattern ≠ [] →
  occurs_at text pattern s ↔
    0 ≤ s ∧ s + len pattern ≤ len text ∧
    slice text s (s + len pattern) = pattern.
Proof.
  intros Hne. pose proof (len_pos _ Hne). split.
  - intros Hocc. pose proof (occurs_at_bound _ _ _ Hne Hocc) as [? ?].
    do 2 (split; [done|]). rewrite slice_window by lia.
    by apply occurs_at_window in Hocc as [_ ?].
  - intros (? & ? & Heq). apply occurs_at_window. split; [done|].
    by rewrite <- slice_window by lia.
Qed.

Lemma elem_of_repeat_each {A} k (l : list A) x : x ∈ repeat_each k l → x ∈ l.
Proof.
  unfold repeat_each. intros (y & Hx & Hy)%list_elem_of_bind.
  by apply elem_of_replicate in Hx as [-> _].
Qed.

(** The positions that [search] returns are occurrences. *)
Lemma search_single_occurrences text pattern cs method count t s :
  search text (Single pattern) cs method count = Ret (Some (Positions t)) →
  s ∈ t → s ∈ occurrences (fold_case cs text) (fold_case cs pattern).
Proof.
  rewrite search_single. intros Heq Hs.
  destruct (tuple_or_none _) as [t'|] eqn:E; [|done].
  injection Heq as ->.
  destruct (apply_count _ _) as [|z l] eqn:El; [done|].
  injection E as <-. rewrite <- El in Hs.
  by apply apply_count_subseteq, apply_method_elem_of in Hs.
Qed.

Lemma search_multi_occurrences text subs cs method count d q t s :
  search text (Multi subs) cs method count = Ret (Some (Mapping d)) →
  (q, Some t) ∈ d → s ∈ t →
  q ∈ subs ∧ s ∈ occurrences (fold_case cs text) (fold_case cs q).
Proof.
  intros Hrun Hin Hs.
  apply search_multi_mapping in Hrun as (merged & Hpos & Hd & _).
  rewrite Hd in Hin. apply regroup_elem_of in Hin as [Hq Hv].
  split; [done|].
  destruct (positions_of _ _) as [|z l] eqn:El; [done|].
  injection Hv as ->. rewrite <- El in Hs.
  apply positions_of_selected in Hs. rewrite Hpos in Hs.
  by apply elem_of_repeat_each in Hs.
Qed.

(** X14: whatever the direction and the count (a negative one too), every
    position that [search] returns is a position where the folded pattern
    occurs in the folded text: the slice of the folded text that starts
    there and has the length of the folded pattern is the folded pattern.
    In a dictionary this holds for the positions under every key. *)
Theorem search_positions_occur text cs method count :
  (∀ pattern t s,
     search text (Single pattern) cs method count = Ret (Some (Positions t)) →
     s ∈ t →
     0 ≤ s ∧ s + len (fold_case cs pattern) ≤ len (fold_case cs text) ∧
     slice (fold_case cs text) s (s + len (fold_case cs pattern)) =
       fold_case cs pattern) ∧
  (∀ subs d q t s,
     search text (Multi subs) cs method count = Ret (Some (Mapping d)) →
     (q, Some t) ∈ d → s ∈ t →
     0 ≤ s ∧ s + len (fold_case cs q) ≤ len (fold_case cs text) ∧
     slice (fold_case cs text) s (s + len (fold_case cs q)) = fold_case cs q).
Proof.
  split.
  - intros pattern t s Hrun Hs.
    pose proof (search_single_occurrences _ _ _ _ _ _ _ Hrun Hs) as Hocc.
    apply elem_of_occurrences in Hocc as [Hne Hocc].
    by apply occurs_at_slice.
  - intros subs d q t s Hrun Hin Hs.
    destruct (search_multi_occurrences _ _ _ _ _ _ _ _ _ Hrun Hin Hs)
      as [_ Hocc].
    apply elem_of_occurrences in Hocc as [Hne Hocc].
    by apply occurs_at_slice.
Qed.
End dispatcher.

(** ** The dispatcher: the keys of the dictionary *)

Section keys.
Context {char : Type} `{!Alphabet char, !SetOrder char}.
Implicit Types (text pattern : list char) (subs : list (list char)).
Implicit Types (acc : dict (list char) (option (list Z))).

(** The keys of a dictionary filled key by key from a list. *)
Lemma fill_keys (f : list char → option (list Z)) subs acc :
  (foldl (λ result q, dict_set q (f q) result) acc subs).*1 =
    acc.*1 ++ filter (λ y, y ∉ acc.*1) (first_seen subs).
Proof.
  revert acc. induction subs as [|x subs IH]; intros acc.
  - simpl. by rewrite app_nil_r.
  - cbn [foldl first_seen]. rewrite IH. rewrite filter_cons.
    destruct (decide (x ∈ acc.*1)) as [Hx|Hx].
    + rewrite dict_set_keys_mem by by apply dict_get_is_Some_key.
      rewrite decide_False by naive_solver. f_equal.
      rewrite list_filter_filter. apply list_filter_iff.
      intros y. split; [|naive_solver]. intros Hy. split; [done|].
      by intros ->.
    + rewrite dict_set_fresh by by apply dict_get_None.
      rewrite decide_True by done. rewrite fmap_app. simpl.
      rewrite <- app_assoc. simpl. do 2 f_equal.
      rewrite list_filter_filter. apply list_filter_iff.
      intros y. rewrite not_elem_of_app, list_elem_of_singleton. done.
Qed.

Lemma regroup_keys_order cs subs (S : list (Z * list char)) :
  (regroup cs subs S).*1 = first_seen subs.
Proof.
  unfold regroup. cbv zeta.
  rewrite (fill_keys (λ q, tuple_or_none (positions_of (fold_case cs q) S))).
  simpl. apply filter_all, Forall_forall. intros y _. apply not_elem_of_nil.
Qed.

(** X15: the dictionary that [search] returns for a list of patterns has
    every pattern of the list as a key, as it was given, exactly once, in the
    order in which the patterns first appear in the list, and no other key.
    A pattern that does not occur in the folded text (so every empty
    pattern) is a key too, with the value [None]. *)
Theorem search_mapping_keys text subs cs method count d :
  search text (Multi subs) cs method count = Ret (Some (Mapping d)) →
  d.*1 = first_seen subs ∧
  NoDup d.*1 ∧
  (∀ q, q ∈ d.*1 ↔ q ∈ subs) ∧
  (∀ q, q ∈ subs →
        occurrences (fold_case cs text) (fold_case cs q) = [] →
        dict_get q d = Some None) ∧
  ([] ∈ subs → dict_get [] d = Some None).
Proof.
  intros Hrun. apply search_multi_mapping in Hrun as (merged & Hpos & -> & _).
  split; [apply regroup_keys_order|]. split; [apply regroup_nodup|].
  split; [intros q; apply regroup_keys|].
  assert (∀ q, q ∈ subs →
     occurrences (fold_case cs text) (fold_case cs q) = [] →
     dict_get q (regroup cs subs (apply_count count (apply_method method merged)))
       = Some None) as Hnone.
  { intros q Hq Hocc. rewrite dict_get_regroup, decide_True by done.
    destruct (positions_of _ _) as [|s l] eqn:E; [done|]. exfalso.
    assert (s ∈ positions_of (fold_case cs q)
                  (apply_count count (apply_method method merged))) as Hs
      by (rewrite E; by left).
    apply positions_of_selected in Hs. rewrite Hpos, Hocc in Hs.
    by apply elem_of_nil in Hs. }
  split; [done|]. intros Hin. apply Hnone; [done|].
  by rewrite fold_case_nil, occurrences_nil_pattern.
Qed.

Lemma multiplicity_perm {A} `{EqDecision A} (p : A) (l k : list A) :
  l ≡ₚ k → multiplicity p l = multiplicity p k.
Proof. intros Hp. unfold multiplicity. by rewrite Hp. Qed.

Lemma fold_patterns_perm cs subs subs' :
  subs ≡ₚ subs' → fold_patterns cs subs ≡ₚ fold_patterns cs subs'.
Proof. intros Hp. unfold fold_patterns. by rewrite Hp. Qed.

(** X16: without a count, the order of the patterns in the list does not
    change what is found: for two lists that are permutations of each other
    [search] returns [None] for both or a dictionary for both, and the two
    dictionaries hold the same value under every key. *)
Theorem search_pattern_order text subs subs' cs method :
  subs ≡ₚ subs' →
  ∃ d d',
    search text (Multi subs) cs method None = Ret (Mapping <$> dict_or_none d) ∧
    search text (Multi subs') cs method None = Ret (Mapping <$> dict_or_none d') ∧
    (∀ q, dict_get q d = dict_get q d') ∧
    (dict_or_none d = None ↔ dict_or_none d' = None).
Proof.
  intros Hperm.
  destruct (search_multi_merged text subs cs) as (merged & _ & Hpos & Hsearch).
  destruct (search_multi_merged text subs' cs) as (merged' & _ & Hpos' & Hsearch').
  exists (regroup cs subs (apply_method method merged)),
         (regroup cs subs' (apply_method method merged')).
  split; [apply (Hsearch method None)|]. split; [apply (Hsearch' method None)|].
  assert (∀ q, positions_of q (apply_method method merged) =
               positions_of q (apply_method method merged')) as Hsame.
  { intros q. rewrite !positions_of_apply_method, Hpos, Hpos'.
    by rewrite (multiplicity_perm q _ _ (fold_patterns_perm cs _ _ Hperm)). }
  split.
  - intros q. rewrite !dict_get_regroup, Hsame.
    destruct (decide (q ∈ subs)) as [Hq|Hq].
    + rewrite decide_True; [done|]. by rewrite <- Hperm.
    + rewrite decide_False; [done|]. by rewrite <- Hperm.
  - rewrite !dict_or_none_regroup_None. split; intros Hall q Hq.
    + rewrite <- Hsame. apply Hall. by rewrite Hperm.
    + rewrite Hsame. apply Hall. by rewrite <- Hperm.
Qed.
End keys.

(** ** The mapping of a list of patterns, as a value *)

Section mapping.
Context {char : Type} `{!Alphabet char, !SetOrder char}.
Implicit Types (text pattern : list char) (subs : list (list char)).
Implicit Types (S : list (Z * list char)).














End mapping.

(** ** The two properties at concrete inputs *)




(** ** The shifts of the scanners, and the growth of the prefix table *)

Section shifts.
Context {char : Type} `{!Alphabet char, !SetOrder char}.
Implicit Types (text pattern : list char) (subs : list (list char)).

(** X17: the shift that [boyer_moore_search] takes after a mismatch skips
    no occurrence: for the table of [bad_char_table] and the text character
    [c] under index [j] of the pattern laid at [shift], the shift
    [max(1, j - bad_char.get(c, -1))] is at least 1, and the pattern occurs
    at no position after [shift] and before [shift] plus this shift. *)
Theorem bad_char_shift_skips_nothing text pattern shift j c :
  0 ≤ shift → 0 ≤ j < len pattern → zget text (shift + j) = Some c →
  ∃ bad_char,
    bad_char_table pattern = Ret bad_char ∧
    1 ≤ Z.max 1 (j - dict_get_default c (-1) bad_char) ∧
    ∀ s, shift < s < shift + Z.max 1 (j - dict_get_default c (-1) bad_char) →
         ¬ occurs_at text pattern s.
Proof.
  intros Hshift Hj Hc.
  destruct (last_index_table_build pattern (λ i, i) (len pattern))
    as (bad_char & Hrun & Htab); [lia|].
  exists bad_char. split; [exact Hrun|]. split; [lia|].
  by apply bad_char_shift_sound.
Qed.

(** X18: the shift that [boyer_moore_horspool_search] takes after a
    mismatch skips no occurrence: for its skip table and the text character
    [c] under the last index of the pattern laid at [i], the shift
    [skip.get(c, len(pattern))] is at least 1, and the pattern occurs at no
    position after [i] and before [i] plus this shift. *)
Theorem horspool_shift_skips_nothing text pattern i c :
  pattern ≠ [] → 0 ≤ i → zget text (i + len pattern - 1) = Some c →
  ∃ skip,
    horspool_skip_table pattern = Ret skip ∧
    1 ≤ dict_get_default c (len pattern) skip ∧
    ∀ s, i < s < i + dict_get_default c (len pattern) skip →
         ¬ occurs_at text pattern s.
Proof.
  intros Hne Hi Hc. pose proof (len_pos _ Hne) as Hm.
  destruct (last_index_table_build pattern (λ k, len pattern - k - 1)
              (len pattern - 1)) as (skip & Hrun & Htab); [lia|].
  exists skip. split; [exact Hrun|].
  apply horspool_shift_sound; [done|lia|done..].
Qed.

(** X19: in the table of [compute_lps] an entry exceeds the entry before it
    by at most 1. *)
Theorem compute_lps_grows_by_one pattern :
  pattern ≠ [] →
  ∃ table,
    compute_lps pattern = Ret table ∧
    ∀ (i : nat) b b',
      table !! i = Some b → table !! S i = Some b' → b' ≤ b + 1.
Proof.
  intros Hne.
  destruct (compute_lps_correct pattern Hne) as (table & Hrun & Hlen & Htab).
  exists table. split; [done|]. intros i b b' Hb Hb'.
  pose proof (lookup_lt_Some _ _ _ Hb') as Hi. unfold len in Hlen.
  destruct (Htab (Z.of_nat i + 1)) as (c & Hc & Hcb & _ & Hmin);
    [unfold len; lia|].
  destruct (Htab (Z.of_nat i + 2)) as (c' & Hc' & Hcb' & Hag' & _);
    [unfold len; lia|].
  apply zget_Some in Hc as [_ Hc]. apply zget_Some in Hc' as [_ Hc'].
  replace (Z.to_nat (Z.of_nat i + 1 - 1)) with i in Hc by lia.
  replace (Z.to_nat (Z.of_nat i + 2 - 1)) with (S i) in Hc' by lia.
  assert (c = b) as -> by congruence. assert (c' = b') as -> by congruence.
  destruct (decide (b' ≤ b + 1)) as [|Hgt]; [done|]. exfalso.
  apply (Hmin (Z.of_nat i + 2 - b')); [lia|].
  eapply agree_mono; [|exact Hag']. lia.
Qed.

(** X20: without a count, the dictionary returned for a list of patterns
    holds under a key what the search for that key alone returns, provided
    no other entry of the list folds to the same pattern: the tuple of the
    single search, or [None] where the single search returns [None]. *)
Theorem search_key_as_single text subs cs method d q :
  search text (Multi subs) cs method None = Ret (Some (Mapping d)) →
  q ∈ subs →
  (multiplicity (fold_case cs q) (fold_patterns cs subs) ≤ 1)%nat →
  ∃ o, dict_get q d = Some o ∧
       search text (Single q) cs method None = Ret (Positions <$> o).
Proof.
  intros Hrun Hq Hmult.
  apply search_multi_mapping in Hrun as (merged & Hpos & -> & _).
  eexists. split.
  { rewrite dict_get_regroup, decide_True by done. reflexivity. }
  rewrite search_single. simpl. do 3 f_equal.
  rewrite positions_of_apply_method, Hpos. f_equal.
  destruct (decide (q = [])) as [->|Hne].
  { by rewrite fold_case_nil, occurrences_nil_pattern. }
  replace (multiplicity _ _) with 1%nat; [symmetry; apply repeat_each_1|].
  assert (fold_case cs q ∈ fold_patterns cs subs) as Hin.
  { apply fold_patterns_elem_of. by exists q. }
  destruct (multiplicity (fold_case cs q) (fold_patterns cs subs)) eqn:E; [|lia].
  exfalso. unfold multiplicity in E. apply length_zero_iff_nil in E.
  assert (fold_case cs q ∈ filter (λ p, p = fold_case cs q) (fold_patterns cs subs))
    as Hf by by apply list_elem_of_filter.
  rewrite E in Hf. by apply elem_of_nil in Hf.
Qed.
End shifts.

(** ** The console utility: colours *)

Lemma COLORS_len : len Colors.COLORS = 6.
Proof. done. Qed.

Lemma COLORS_nodup : NoDup Colors.COLORS.
Proof. apply (bool_decide_unpack _). by vm_compute. Qed.

Lemma get_color_lookup index :
  ∃ color, Colors.get_color index = Ret color ∧
           Colors.COLORS !! Z.to_nat (index `mod` 6) = Some color.
Proof.
  unfold Colors.get_color. rewrite COLORS_len.
  pose proof (Z.mod_pos_bound index 6 ltac:(lia)) as Hb.
  destruct (zget_is_Some Colors.COLORS (index `mod` 6)) as [color Hc];
    [by rewrite COLORS_len|].
  exists color. split; [by apply getitem_zget|]. by apply zget_Some in Hc as [_ ?].
Qed.

(** X21: [Colors.get_color] returns one of the six colour codes for every
    integer index, a negative one too, and raises no exception; two indices
    get the same colour exactly when they differ by a multiple of 6. *)
Theorem get_color_cycles :
  (∀ index, ∃ color,
     Colors.get_color index = Ret color ∧ color ∈ Colors.COLORS) ∧
  (∀ i j, Colors.get_color i = Colors.get_color j ↔ i `mod` 6 = j `mod` 6).
Proof.
  split.
  - intros index. destruct (get_color_lookup index) as (color & Hrun & Hc).
    exists color. split; [done|]. by eapply list_elem_of_lookup_2.
  - intros i j.
    destruct (get_color_lookup i) as (ci & Hi & Hci).
    destruct (get_color_lookup j) as (cj & Hj & Hcj).
    rewrite Hi, Hj. split.
    + intros [= ->].
      pose proof (NoDup_lookup _ _ _ _ COLORS_nodup Hci Hcj) as Heq.
      pose proof (Z.mod_pos_bound i 6 ltac:(lia)).
      pose proof (Z.mod_pos_bound j 6 ltac:(lia)). lia.
    + intros Heq. rewrite Heq in Hci. congruence.
Qed.

(** ** The console utility: highlighting *)

Lemma render_app pieces pieces' : render (pieces ++ pieces') = render pieces ++ render pieces'.
Proof. unfold render. apply bind_app. Qed.

Lemma plain_app pieces pieces' : plain (pieces ++ pieces') = plain pieces ++ plain pieces'.
Proof. unfold plain. apply bind_app. Qed.

Lemma slice_to_slice {A} (l : list A) a b :
  0 ≤ a ≤ b → slice_to l a ++ slice l a b = slice_to l b.
Proof.
  intros Hab. unfold slice_to, slice, clamp_index.
  rewrite !decide_False by lia.
  set (i := Z.to_nat (a `min` len l)). set (j := Z.to_nat (b `min` len l)).
  replace (Z.to_nat (b `min` len l - a `min` len l)) with (j - i)%nat by lia.
  assert (i ≤ j)%nat by lia.
  rewrite <- (take_drop i (take j l)). f_equal.
  - rewrite take_take. f_equal. lia.
  - rewrite take_drop_commute. do 2 f_equal. lia.
Qed.

Lemma slice_to_slice_from {A} (l : list A) a :
  slice_to l a ++ slice_from l a = l.
Proof. unfold slice_to, slice_from. apply take_drop. Qed.

Lemma slice_to_0 {A} (l : list A) : slice_to l 0 = [].
Proof. by rewrite slice_to_nonneg by lia. Qed.

Lemma slice_from_0 {A} (l : list A) : slice_from l 0 = l.
Proof. pose proof (slice_to_slice_from l 0) as H. by rewrite slice_to_0 in H. Qed.

Lemma add_highlights_falsy st (item : list Z * option (list Z)) :
  truthy item.2 = false → add_highlights st item = Ret st.
Proof. destruct st, item. unfold add_highlights. simpl. by intros ->. Qed.

Lemma add_highlights_truthy hs k pattern positions :
  truthy positions = true →
  ∃ color,
    color ∈ Colors.COLORS ∧
    add_highlights (hs, k) (pattern, positions) =
      Ret (hs ++ ((λ pos, (pos, pos + len pattern, color, pattern)) <$>
                    default [] positions), k + 1).
Proof.
  intros Htrue. unfold add_highlights. rewrite Htrue.
  destruct (get_color_lookup k) as (color & -> & Hcolor).
  apply list_elem_of_lookup_2 in Hcolor. exists color. split; [done|].
  by rewrite bind_Ret.
Qed.

(** The loop over the dictionary returns; every entry it makes is from the
    dictionary, and it makes an entry for every position of the
    dictionary. *)
Lemma add_highlights_spec (matches_dict : dict (list Z) (option (list Z))) :
  ∃ highlights n,
    for_each matches_dict add_highlights ([], 0) = Ret (highlights, n) ∧
    Forall (from_dict matches_dict) highlights ∧
    ∀ pattern positions pos,
      (pattern, Some positions) ∈ matches_dict → pos ∈ positions →
      ∃ h : highlight, h ∈ highlights ∧ h.1.1.1 = pos.
Proof.
  destruct (for_each_inv
              (λ l1 (st : list highlight * Z),
                 Forall (from_dict l1) st.1 ∧
                 ∀ pattern positions pos,
                   (pattern, Some positions) ∈ l1 → pos ∈ positions →
                   ∃ h : highlight, h ∈ st.1 ∧ h.1.1.1 = pos)
              matches_dict add_highlights ([], 0))
    as ([highlights n] & Hrun & Hall & Hcomplete).
  - split; [by simpl|]. intros ??? Hin. by apply elem_of_nil in Hin.
  - intros l1 [pattern positions] l2 [hs k] Hsplit [Hinv Hcomplete].
    simpl in Hinv, Hcomplete.
    assert (Forall (from_dict (l1 ++ [(pattern, positions)])) hs) as Hold.
    { eapply Forall_impl; [exact Hinv|].
      intros h (? & ? & ps & Hin & ?). do 2 (split; [done|]).
      exists ps. split; [|done]. apply elem_of_app. by left. }
    destruct (truthy positions) eqn:Htrue.
    + destruct (add_highlights_truthy hs k pattern positions Htrue)
        as (color & Hcolor & ->).
      eexists. split; [done|]. simpl.
      destruct positions as [ps|]; [|done]. simpl. split.
      * apply Forall_app. split; [done|].
        apply Forall_fmap, Forall_forall. intros pos Hpos.
        split; [done|]. split; [done|]. exists ps. simpl.
        split; [|done]. apply elem_of_app. right. by left.
      * intros q t pos [Hin|Hin]%elem_of_app Hpos.
        -- destruct (Hcomplete q t pos Hin Hpos) as (h & Hh & ?).
           exists h. split; [|done]. apply elem_of_app. by left.
        -- apply list_elem_of_singleton in Hin as [= -> ->].
           exists (pos, pos + len pattern, color, pattern). split; [|done].
           apply elem_of_app. right. apply list_elem_of_fmap. by exists pos.
    + rewrite add_highlights_falsy by done. eexists. split; [done|]. simpl.
      split; [done|]. intros q t pos [Hin|Hin]%elem_of_app Hpos.
      * by apply Hcomplete with q t.
      * apply list_elem_of_singleton in Hin as [= -> <-].
        destruct t; [by apply elem_of_nil in Hpos|done].
  - by exists highlights, n.
Qed.

(** The entries without positions do not count. *)
Lemma for_each_found (matches_dict : dict (list Z) (option (list Z))) st :
  for_each matches_dict add_highlights st =
    for_each (filter (λ item, truthy item.2) matches_dict) add_highlights st.
Proof.
  revert st. induction matches_dict as [|[pattern positions] l IH]; intros st;
    [done|].
  rewrite filter_cons. cbn [snd]. destruct (truthy positions) eqn:Htrue.
  - rewrite decide_True by done. destruct st as [hs k].
    destruct (add_highlights_truthy hs k pattern positions Htrue)
      as (color & _ & Hrun).
    cbn [for_each]. rewrite Hrun, !bind_Ret. apply IH.
  - rewrite decide_False by exact id. cbn [for_each].
    rewrite (add_highlights_falsy st (pattern, positions)) by done.
    rewrite bind_Ret. apply IH.
Qed.

Lemma insert_by_start_perm h l : insert_by_start h l ≡ₚ h :: l.
Proof.
  induction l as [|h' l IH]; simpl; [done|].
  case_decide; [done|]. rewrite IH. apply Permutation_swap.
Qed.

Lemma sort_by_start_perm l : sort_by_start l ≡ₚ l.
Proof.
  induction l as [|h l IH]; simpl; [done|].
  rewrite insert_by_start_perm. by f_equiv.
Qed.

(** The painting loop: what is rendered so far is the text up to
    [last_pos], with codes around stretches of the text; an entry that
    starts at [last_pos] or after it is painted. *)
Lemma paint_fold text (highlights : list highlight) pieces last_pos :
  Forall (λ h : highlight, h.1.1.1 ≤ h.1.1.2) highlights →
  0 ≤ last_pos → plain pieces = slice_to text last_pos →
  ∃ pieces' last',
    foldl (paint text) (render pieces, last_pos) highlights =
      (render pieces', last') ∧
    0 ≤ last' ∧ plain pieces' = slice_to text last' ∧
    (∀ c s, (Some c, s) ∈ pieces' →
       (Some c, s) ∈ pieces ∨
       ∃ h, h ∈ highlights ∧ c = h.1.2 ∧ 0 ≤ h.1.1.1 ∧
            s = slice text h.1.1.1 h.1.1.2) ∧
    (∀ x, x ∈ pieces → x ∈ pieces') ∧
    ∀ h hs, highlights = h :: hs → last_pos ≤ h.1.1.1 →
            (Some h.1.2, slice text h.1.1.1 h.1.1.2) ∈ pieces'.
Proof.
  revert pieces last_pos.
  induction highlights as [|[[[start end_] color] pattern] hs IH];
    intros pieces last_pos Hall Hlast Hplain.
  { exists pieces, last_pos. simpl. do 3 (split; [done|]).
    split; [intros; by left|]. split; [done|]. by intros. }
  apply Forall_cons in Hall as [Hh Hall]. simpl in Hh.
  cbn [foldl]. unfold paint at 2.
  destruct (decide (start >= last_pos)) as [Hge|Hlt].
  - cbv zeta.
    destruct (IH (pieces ++ [(None, slice text last_pos start);
                             (Some color, slice text start end_)]) end_)
      as (pieces' & last' & Hrun & Hlast' & Hplain' & Hcol & Hmono & _);
      [done|lia| |].
    { rewrite plain_app, Hplain. unfold plain. simpl. rewrite app_nil_r.
      rewrite app_assoc, slice_to_slice by lia. apply slice_to_slice; lia. }
    exists pieces', last'. split.
    { rewrite <- Hrun. do 2 f_equal. rewrite render_app. unfold render at 3.
      simpl. by rewrite app_nil_r, <- !app_assoc. }
    do 2 (split; [done|]). split; [|split].
    + intros c s Hin.
      destruct (Hcol c s Hin) as [Hold|(h & Hh' & ? & ? & ?)].
      * apply elem_of_app in Hold as [?|Hnew]; [by left|]. right.
        apply elem_of_cons in Hnew as [?|Hnew]; [done|].
        apply list_elem_of_singleton in Hnew as [= -> ->].
        exists (start, end_, color, pattern). split; [by left|]. simpl.
        split; [done|]. split; [lia|done].
      * right. exists h. split; [by right|done].
    + intros x Hx. apply Hmono, elem_of_app. by left.
    + intros h hs' [= <- <-] _. simpl. apply Hmono, elem_of_app. right.
      right. by left.
  - destruct (IH pieces last_pos)
      as (pieces' & last' & Hrun & Hlast' & Hplain' & Hcol & Hmono & _);
      [done..|].
    exists pieces', last'. do 3 (split; [done|]). split; [|split; [done|]].
    + intros c s Hin.
      destruct (Hcol c s Hin) as [?|(h & Hh' & ?)]; [by left|]. right.
      exists h. split; [by right|done].
    + intros h hs' [= <- <-]. simpl. lia.
Qed.

Lemma paint_all_spec text (highlights : list highlight) :
  Forall (λ h : highlight, h.1.1.1 ≤ h.1.1.2) highlights →
  ∃ pieces,
    paint_all text highlights = render pieces ∧ plain pieces = text ∧
    (∀ c s, (Some c, s) ∈ pieces →
       ∃ h, h ∈ highlights ∧ c = h.1.2 ∧ 0 ≤ h.1.1.1 ∧
            s = slice text h.1.1.1 h.1.1.2) ∧
    ∀ h hs, highlights = h :: hs → 0 ≤ h.1.1.1 →
            (Some h.1.2, slice text h.1.1.1 h.1.1.2) ∈ pieces.
Proof.
  intros Hall.
  destruct (paint_fold text highlights [] 0 Hall) as
    (pieces & last & Hrun & Hlast & Hplain & Hcol & _ & Hhead);
    [done|by rewrite slice_to_0|].
  exists (pieces ++ [(None, slice_from text last)]). split; [|split; [|split]].
  - unfold paint_all. change (@nil Z) with (render []) at 1. rewrite Hrun.
    rewrite render_app. unfold render at 3. simpl. by rewrite app_nil_r.
  - rewrite plain_app, Hplain. unfold plain at 1. simpl. rewrite app_nil_r.
    apply slice_to_slice_from.
  - intros c s [Hin|Hin]%elem_of_app.
    + destruct (Hcol c s Hin) as [Hnil|?]; [|done]. by apply elem_of_nil in Hnil.
    + by apply list_elem_of_singleton in Hin.
  - intros h hs Heq Hh. apply elem_of_app. left. by apply Hhead with hs.
Qed.

(** What [highlight_matches] returns for a dictionary that is not empty. *)
Lemma highlight_pieces text (matches_dict : dict (list Z) (option (list Z)))
    max_lines :
  matches_dict ≠ [] →
  ∃ pieces,
    highlight_matches text matches_dict max_lines =
      Ret (limit_lines (render pieces) max_lines) ∧
    plain pieces = text ∧
    (∀ color s, (Some color, s) ∈ pieces →
       color ∈ Colors.COLORS ∧
       ∃ pattern positions pos,
         (pattern, Some positions) ∈ matches_dict ∧ pos ∈ positions ∧
         0 ≤ pos ∧ s = slice text pos (pos + len pattern)) ∧
    ((∃ pattern positions pos,
        (pattern, Some positions) ∈ matches_dict ∧ pos ∈ positions) →
     (∀ pattern positions pos,
        (pattern, Some positions) ∈ matches_dict → pos ∈ positions → 0 ≤ pos) →
     ∃ color s, (Some color, s) ∈ pieces).
Proof.
  intros Hne.
  destruct (add_highlights_spec matches_dict)
    as (hs & n & Hrun & Hall & Hcomplete).
  destruct (paint_all_spec text (sort_by_start hs))
    as (pieces & Hpaint & Hplain & Hcol & Hhead).
  { rewrite sort_by_start_perm. eapply Forall_impl; [exact Hall|].
    intros h (Hend & _). rewrite Hend. pose proof (len_nonneg h.2). lia. }
  rewrite Forall_forall in Hall.
  exists pieces. split; [|split; [done|split]].
  - unfold highlight_matches. destruct matches_dict as [|item items]; [done|].
    rewrite Hrun, bind_Ret. cbv zeta. by rewrite Hpaint.
  - intros color s Hin.
    destruct (Hcol color s Hin) as (h & Hh & -> & Hpos & ->).
    rewrite sort_by_start_perm in Hh.
    destruct (Hall h Hh) as (Hend & Hcolor & positions & Hdict & Hstart).
    split; [done|]. exists h.2, positions, h.1.1.1. by rewrite <- Hend.
  - intros (pattern & positions & pos & Hin & Hpos) Hnonneg.
    destruct (Hcomplete pattern positions pos Hin Hpos) as (h0 & Hh0 & _).
    destruct (sort_by_start hs) as [|h hs'] eqn:Hsort.
    { rewrite <- sort_by_start_perm, Hsort in Hh0. by apply elem_of_nil in Hh0. }
    assert (h ∈ hs) as Hh by (rewrite <- sort_by_start_perm, Hsort; by left).
    destruct (Hall h Hh) as (_ & _ & ps & Hdict & Hstart).
    eexists _, _. apply (Hhead h hs' eq_refl). by apply Hnonneg with h.2 ps.
Qed.

(** X22: for a dictionary that is not empty, [highlight_matches] raises no
    exception and changes no character of the text: before the lines are
    limited, its result is the text cut into pieces, some of them put
    between a colour code and the reset code.  A coloured piece has one of
    the six colours and is the slice [text[pos:pos + len(pattern)]] for a
    pattern of the dictionary and a position [pos] held under it, that
    position not negative. *)
Theorem highlight_keeps_text text matches_dict max_lines :
  matches_dict ≠ [] →
  ∃ pieces,
    highlight_matches text matches_dict max_lines =
      Ret (limit_lines (render pieces) max_lines) ∧
    plain pieces = text ∧
    ∀ color s, (Some color, s) ∈ pieces →
      color ∈ Colors.COLORS ∧
      ∃ pattern positions pos,
        (pattern, Some positions) ∈ matches_dict ∧ pos ∈ positions ∧
        0 ≤ pos ∧ s = slice text pos (pos + len pattern).
Proof.
  intros Hne.
  destruct (highlight_pieces text matches_dict max_lines Hne)
    as (pieces & Hrun & Hplain & Hcol & _).
  by exists pieces.
Qed.

(** X23: the entries of the dictionary whose value is [None] or the empty
    tuple take no colour and change nothing: [highlight_matches] returns
    what it returns for the dictionary without them.  When no entry is left,
    the result is the text, with its lines limited (while for the empty
    dictionary it is the whole text). *)
Theorem highlight_skips_unmatched text matches_dict max_lines :
  matches_dict ≠ [] →
  highlight_matches text matches_dict max_lines =
    if decide (filter (λ item, truthy item.2) matches_dict = [])
    then Ret (limit_lines text max_lines)
    else highlight_matches text (filter (λ item, truthy item.2) matches_dict)
           max_lines.
Proof.
  intros Hne. unfold highlight_matches.
  destruct matches_dict as [|item items]; [done|].
  rewrite for_each_found.
  destruct (filter _ (item :: items)) as [|item' items'] eqn:Hfound.
  - rewrite decide_True by done. simpl. unfold paint_all. simpl.
    by rewrite slice_from_0.
  - by rewrite decide_False by done.
Qed.

(** ** The console utility: highlighting what the search found *)

Section search_then_highlight.
Context `{!Alphabet Z, !SetOrder Z}.

(** X24: the text highlighted with what a search that respects case
    returned (for a single pattern the dictionary of the pattern and its
    tuple, as [main] builds it; for a list the dictionary returned) is the
    text with some of its pieces coloured: at least one piece is coloured,
    and every coloured piece spells the pattern, or one of the patterns of
    the list. *)
Theorem highlight_of_search text method count max_lines :
  (∀ pattern t,
     search text (Single pattern) true method count = Ret (Some (Positions t)) →
     ∃ pieces,
       highlight_matches text [(pattern, Some t)] max_lines =
         Ret (limit_lines (render pieces) max_lines) ∧
       plain pieces = text ∧
       (∃ color, (Some color, pattern) ∈ pieces) ∧
       ∀ color s, (Some color, s) ∈ pieces →
                  color ∈ Colors.COLORS ∧ s = pattern) ∧
  (∀ subs d,
     search text (Multi subs) true method count = Ret (Some (Mapping d)) →
     ∃ pieces,
       highlight_matches text d max_lines =
         Ret (limit_lines (render pieces) max_lines) ∧
       plain pieces = text ∧
       (∃ color s, (Some color, s) ∈ pieces) ∧
       ∀ color s, (Some color, s) ∈ pieces →
                  color ∈ Colors.COLORS ∧ s ∈ subs).
Proof.
  split.
  - intros pattern t Hrun.
    assert (∀ pos, pos ∈ t →
              0 ≤ pos ∧ slice text pos (pos + len pattern) = pattern) as Hocc.
    { intros pos Hpos.
      pose proof (search_single_occurrences _ _ _ _ _ _ _ Hrun Hpos) as Hocc.
      apply elem_of_occurrences in Hocc as [Hne Hocc]. simpl in Hne, Hocc.
      by apply occurs_at_slice in Hocc as (? & _ & ?). }
    assert (t ≠ []) as Ht.
    { rewrite search_single in Hrun. intros ->.
      destruct (apply_count _ _); by simplify_eq/=. }
    destruct (highlight_pieces text [(pattern, Some t)] max_lines)
      as (pieces & Hhl & Hplain & Hcol & Hsome); [done|].
    assert (∀ color s, (Some color, s) ∈ pieces →
                       color ∈ Colors.COLORS ∧ s = pattern) as Hcol'.
    { intros color s Hin.
      destruct (Hcol color s Hin) as (Hcolor & q & ps & pos & Hd & Hpos & _ & ->).
      apply list_elem_of_singleton in Hd as [= -> ->].
      split; [done|]. by apply Hocc. }
    exists pieces. do 2 (split; [done|]). split; [|done].
    destruct Hsome as (color & s & Hin).
    + destruct t as [|pos t]; [done|]. exists pattern, (pos :: t), pos.
      split; by left.
    + intros q ps pos Hd Hpos.
      apply list_elem_of_singleton in Hd as [= -> ->]. by apply Hocc.
    + exists color. by destruct (Hcol' color s Hin) as [_ <-].
  - intros subs d Hrun.
    assert (∀ q t pos, (q, Some t) ∈ d → pos ∈ t →
              q ∈ subs ∧ 0 ≤ pos ∧ slice text pos (pos + len q) = q) as Hocc.
    { intros q t pos Hd Hpos.
      destruct (search_multi_occurrences _ _ _ _ _ _ _ _ _ Hrun Hd Hpos)
        as [Hq Hocc].
      apply elem_of_occurrences in Hocc as [Hne Hocc]. simpl in Hne, Hocc.
      by apply occurs_at_slice in Hocc as (? & _ & ?). }
    destruct (search_multi_mapping _ _ _ _ _ _ Hrun) as (merged & _ & Hreg & Hsome).
    unfold dict_or_none in Hsome. case_bool_decide as Hex; [|done].
    apply Exists_exists in Hex as ([q [t|]] & Hin & Hv); [|done].
    assert (t ≠ []) as Ht.
    { pose proof Hin as Hin'. rewrite Hreg in Hin'.
      apply regroup_elem_of in Hin' as [_ Hv'].
      intros ->. by destruct (positions_of _ _). }
    assert (d ≠ []) as Hne by (intros ->; by apply elem_of_nil in Hin).
    destruct (highlight_pieces text d max_lines Hne)
      as (pieces & Hhl & Hplain & Hcol & Hfound).
    exists pieces. do 2 (split; [done|]). split.
    + apply Hfound.
      * destruct t as [|pos t]; [done|]. exists q, (pos :: t), pos.
        split; [done|by left].
      * intros q' t' pos Hd Hpos. by apply (Hocc q' t' pos).
    + intros color s Hs.
      destruct (Hcol color s Hs) as (Hcolor & q' & ps & pos & Hd & Hpos & _ & ->).
      split; [done|]. destruct (Hocc q' ps pos Hd Hpos) as (? & _ & ->). done.
Qed.
End search_then_highlight.

(** ** The console utility: lines *)

Lemma split_on_nonempty sep s : split_on sep s ≠ [].
Proof. destruct s as [|c s]; simpl; [done|]. case_decide; [done|]. by case_match. Qed.

Lemma join_cons sep line lines :
  lines ≠ [] → join sep (line :: lines) = line ++ sep ++ join sep lines.
Proof. by destruct lines. Qed.

(** Joining the lines of a string gives the string back. *)
Lemma join_split_on sep s : join [sep] (split_on sep s) = s.
Proof.
  induction s as [|c s IH]; [done|]. cbn [split_on].
  pose proof (split_on_nonempty sep s) as Hne. case_decide as Hc.
  - rewrite join_cons by done. simpl. by rewrite IH, Hc.
  - destruct (split_on sep s) as [|line lines]; [done|].
    destruct lines as [|line' lines].
    + simpl in *. by rewrite IH.
    + rewrite join_cons in IH by done. rewrite join_cons by done.
      by rewrite <- IH.
Qed.

Lemma split_on_no_sep sep line : sep ∉ line → split_on sep line = [line].
Proof.
  induction line as [|c line IH]; [done|].
  intros [Hc Hline]%not_elem_of_cons. simpl.
  rewrite decide_False by done. by rewrite IH.
Qed.

Lemma split_on_app sep line s :
  sep ∉ line → split_on sep (line ++ sep :: s) = line :: split_on sep s.
Proof.
  induction line as [|c line IH]; simpl.
  - intros _. by rewrite decide_True.
  - intros [Hc Hline]%not_elem_of_cons. rewrite decide_False by done.
    by rewrite IH.
Qed.

(** Splitting the joined lines gives the lines back, when no line holds the
    separator. *)
Lemma split_on_join sep lines :
  lines ≠ [] → Forall (λ line, sep ∉ line) lines →
  split_on sep (join [sep] lines) = lines.
Proof.
  induction lines as [|line lines IH]; [done|]. intros _ Hall.
  apply Forall_cons in Hall as [Hline Hall].
  destruct lines as [|line' lines]; [by apply split_on_no_sep|].
  rewrite join_cons by done.
  change ([sep] ++ ?s) with (sep :: s).
  rewrite split_on_app by done. f_equal. by apply IH.
Qed.

Lemma split_on_lines sep s : Forall (λ line, sep ∉ line) (split_on sep s).
Proof.
  induction s as [|c s IH]; simpl.
  - constructor; [apply not_elem_of_nil|done].
  - case_decide as Hc.
    + constructor; [apply not_elem_of_nil|done].
    + pose proof (split_on_nonempty sep s).
      destruct (split_on sep s) as [|line lines]; [done|].
      apply Forall_cons in IH as [Hline Hlines].
      constructor; [|done]. apply not_elem_of_cons. split; [congruence|done].
Qed.

Lemma code_points_cons c s :
  code_points (String c s) = Z.of_nat (nat_of_ascii c) :: code_points s.
Proof. done. Qed.

Lemma pretty_N_go_no_newline x s :
  10 ∉ code_points s → 10 ∉ code_points (pretty_N_go x s).
Proof.
  revert s. induction (N.lt_wf_0 x) as [x _ IH]. intros s Hs.
  destruct (decide (x = 0)%N) as [->|Hx]; [by rewrite pretty_N_go_0|].
  rewrite pretty_N_go_step by lia. apply IH; [apply N.div_lt; lia|].
  rewrite code_points_cons. apply not_elem_of_cons. split; [|done].
  unfold pretty_N_char. by repeat case_match.
Qed.

Lemma str_of_int_no_newline n : 10 ∉ str_of_int n.
Proof.
  unfold str_of_int, pretty, pretty_Z.
  destruct n as [|p|p].
  - by vm_compute; intros [?|?%elem_of_nil]%elem_of_cons.
  - unfold pretty, pretty_positive, pretty, pretty_N. case_decide; [done|].
    apply pretty_N_go_no_newline. apply not_elem_of_nil.
  - unfold pretty, pretty_positive, pretty, pretty_N. case_decide; [done|].
    change (code_points ("-" +:+ ?s)) with (45 :: code_points s).
    apply not_elem_of_cons. split; [done|].
    apply pretty_N_go_no_newline. apply not_elem_of_nil.
Qed.

Lemma shown_note_no_newline max_lines words : 10 ∉ shown_note max_lines words.
Proof.
  unfold shown_note. rewrite !not_elem_of_app.
  pose proof (str_of_int_no_newline max_lines).
  pose proof (str_of_int_no_newline words).
  repeat split; try done; vm_compute; set_solver.
Qed.

(** X25: a result of at most [max_lines] lines passes the limit of
    [highlight_matches] unchanged: joining the lines that the split at the
    line feeds gave returns the result character by character. *)
Theorem limit_lines_short result max_lines :
  len (split_on 10 result) ≤ max_lines → limit_lines result max_lines = result.
Proof.
  intros Hle. unfold limit_lines. cbv zeta.
  rewrite decide_False by lia. apply join_split_on.
Qed.

Lemma slice_to_take {A} (l : list A) k : ∃ n, slice_to l k = take n l.
Proof. unfold slice_to. by eexists. Qed.

(** X26: a result of more than [max_lines] lines is cut by
    [highlight_matches] to the lines of [lines[:max_lines]] (for a negative
    [max_lines] all but the last [-max_lines] lines) followed by exactly one
    more line, the note; the number the note gives after the limit is the
    number of words of the result, not of its lines. *)
Theorem limit_lines_cut result max_lines :
  len (split_on 10 result) > max_lines →
  split_on 10 (limit_lines result max_lines) =
    slice_to (split_on 10 result) max_lines ++
    [shown_note max_lines (len (split result))].
Proof.
  intros Hgt. unfold limit_lines. cbv zeta. rewrite decide_True by done.
  apply split_on_join; [by destruct (slice_to _ _)|].
  apply Forall_app. split.
  - destruct (slice_to_take (split_on 10 result) max_lines) as [n ->].
    apply Forall_take, split_on_lines.
  - constructor; [apply shown_note_no_newline|done].
Qed.

(** ** The further properties at concrete inputs *)

Lemma horspool_skip_table_distance_witness :
  chars "abcab" ≠ [] ∧
  ∃ skip,
    horspool_skip_table (chars "abcab") = Ret skip ∧
    ∀ c, 1 ≤ dict_get_default c (len (chars "abcab")) skip ≤ len (chars "abcab").
Proof.
  assert (chars "abcab" ≠ []) as Hne by by vm_compute.
  split; [done|].
  destruct (horspool_skip_table_distance (chars "abcab") Hne)
    as (skip & Hrun & Hall).
  exists skip. split; [done|]. intros c. apply Hall.
Defined.

Lemma rolling_hash_polynomial_witness :
  0 < 101 ∧
  rolling_hash (chars "abc") 256 101 = horner (chars "abc") 256 `mod` 101 ∧
  0 ≤ rolling_hash (chars "abc") 256 101 < 101.
Proof.
  assert (0 < 101) as Hm by lia. split; [done|].
  exact (rolling_hash_polynomial (chars "abc") 256 101 Hm).
Defined.

Lemma rabin_karp_rolls_hash_witness :
  chars "bc" ≠ [] ∧ 0 < 101 ∧
  0 ≤ 1 < len (chars "abcde") - len (chars "bc") ∧
  ∃ matches',
    rabin_karp_body (chars "abcde") (chars "bc") 256 101
      ((256 ^ (len (chars "bc") - 1)) `mod` 101) 7
      (rolling_hash (slice (chars "abcde") 1 (1 + len (chars "bc"))) 256 101, [])
      1 =
    Ret (rolling_hash (slice (chars "abcde") (1 + 1) (1 + 1 + len (chars "bc")))
           256 101, matches').
Proof.
  assert (chars "bc" ≠ []) as Hne by by vm_compute.
  assert (0 < 101) as Hm by lia.
  assert (0 ≤ 1 < len (chars "abcde") - len (chars "bc")) as Hi
    by (unfold len; simpl; lia).
  do 3 (split; [done|]).
  exact (rabin_karp_rolls_hash (chars "abcde") (chars "bc") 256 101 7 [] 1
           Hne Hm Hi).
Defined.

Lemma scanners_nothing_to_find_witness :
  (chars "abc" = [] ∨ len (chars "ab") < len (chars "abc")) ∧
  kmp_search (chars "ab") (chars "abc") = Ret [] ∧
  boyer_moore_search (chars "ab") (chars "abc") = Ret [] ∧
  boyer_moore_horspool_search (chars "ab") (chars "abc") = Ret [] ∧
  rabin_karp_search (chars "ab") (chars "abc") = Ret [].
Proof.
  assert (chars "abc" = [] ∨ len (chars "ab") < len (chars "abc")) as Hshort
    by (right; unfold len; simpl; lia).
  split; [done|].
  exact (scanners_nothing_to_find (chars "ab") (chars "abc") Hshort).
Defined.

Lemma aho_corasick_finds_all_witness :
  [] ∉ [chars "he"; chars "she"] ∧ NoDup [chars "he"; chars "she"] ∧
  ∃ ac result,
    build_automaton ac_init [chars "he"; chars "she"] = Ret ac ∧
    ac_search ac (chars "ushers") = Ret result ∧
    NoDup result.*1.
Proof.
  assert ([] ∉ [chars "he"; chars "she"]) as Hne
    by (apply (bool_decide_unpack _); by vm_compute).
  assert (NoDup [chars "he"; chars "she"]) as Hnd
    by (apply (bool_decide_unpack _); by vm_compute).
  do 2 (split; [done|]).
  destruct (aho_corasick_finds_all [chars "he"; chars "she"] (chars "ushers")
              Hne Hnd) as (ac & result & Hbuild & Hrun & Hkeys & _).
  by exists ac, result.
Defined.

Lemma automaton_trie_witness :
  [] ∉ [chars "he"; chars "she"] ∧
  ∃ ac,
    build_automaton ac_init [chars "he"; chars "she"] = Ret ac ∧
    ∀ s c v, dict_get (s, c) (goto ac) = Some v → 0 ≤ s < v ∧ v ≤ len (goto ac).
Proof.
  assert ([] ∉ [chars "he"; chars "she"]) as Hne
    by (apply (bool_decide_unpack _); by vm_compute).
  split; [done|].
  destruct (automaton_trie [chars "he"; chars "she"] Hne)
    as (ac & Hbuild & _ & _ & Hgoto).
  by exists ac.
Defined.

Lemma automaton_failure_links_witness :
  [] ∉ [chars "he"; chars "she"] ∧
  ∃ ac,
    build_automaton ac_init [chars "he"; chars "she"] = Ret ac ∧
    ∀ v, walk (goto ac) 0 (chars "sh") = Some v →
         ∃ f, dict_get v (fail ac) = Some f.
Proof.
  assert ([] ∉ [chars "he"; chars "she"]) as Hne
    by (apply (bool_decide_unpack _); by vm_compute).
  split; [done|].
  destruct (automaton_failure_links [chars "he"; chars "she"] Hne)
    as (ac & Hbuild & Hfail).
  exists ac. split; [done|]. intros v Hv.
  destruct (Hfail (chars "sh") v Hv) as (f & z & Hf & _); [done|].
  by exists f.
Defined.

Lemma automaton_outputs_witness :
  [] ∉ [chars "he"; chars "she"] ∧
  ∃ ac,
    build_automaton ac_init [chars "he"; chars "she"] = Ret ac ∧
    ∀ v, walk (goto ac) 0 (chars "she") = Some v →
         dict_get v (output ac) =
           nonempty_opt (suffix_pats [chars "he"; chars "she"] (chars "she")).
Proof.
  assert ([] ∉ [chars "he"; chars "she"]) as Hne
    by (apply (bool_decide_unpack _); by vm_compute).
  split; [done|].
  destruct (automaton_outputs [chars "he"; chars "she"] Hne)
    as (ac & Hbuild & Hout).
  exists ac. split; [done|]. intros v Hv.
  exact (proj1 (Hout (chars "she") v Hv)).
Defined.

Lemma search_count_at_least_all_witness :
  match_count false (chars "ababbababa") (Single (chars "ABA")) ≤ 5 ∧
  search (chars "ababbababa") (Single (chars "ABA")) false "last" (Some 5) =
    search (chars "ababbababa") (Single (chars "ABA")) false "last" None.
Proof.
  assert (match_count false (chars "ababbababa") (Single (chars "ABA")) ≤ 5)
    as Hk by by vm_compute.
  split; [done|].
  exact (search_count_at_least_all (chars "ababbababa") (Single (chars "ABA"))
           false "last" 5 Hk).
Defined.

Lemma search_result_not_empty_witness :
  search (chars "ababbababa") (Single (chars "ABA")) false "first" None =
    Ret (Some (Positions [0; 5; 7])) ∧
  [0; 5; 7] ≠ [] ∧ ∃ pattern, Single (chars "ABA") = Single pattern.
Proof.
  assert (search (chars "ababbababa") (Single (chars "ABA")) false "first" None =
            Ret (Some (Positions [0; 5; 7]))) as Hrun by by vm_compute.
  split; [done|].
  exact (search_result_not_empty (chars "ababbababa") (Single (chars "ABA"))
           false "first" None (Positions [0; 5; 7]) Hrun).
Defined.

Lemma search_positions_occur_witness :
  search (chars "ababbababa") (Single (chars "ABA")) false "first" None =
    Ret (Some (Positions [0; 5; 7])) ∧
  5 ∈ [0; 5; 7] ∧
  slice (fold_case false (chars "ababbababa")) 5
        (5 + len (fold_case false (chars "ABA"))) =
    fold_case false (chars "ABA").
Proof.
  assert (search (chars "ababbababa") (Single (chars "ABA")) false "first" None =
            Ret (Some (Positions [0; 5; 7]))) as Hrun by by vm_compute.
  assert (5 ∈ [0; 5; 7]) as Hin by (right; left).
  do 2 (split; [done|]).
  exact (proj2 (proj2 (proj1 (search_positions_occur (chars "ababbababa") false
                                "first" None) (chars "ABA") [0; 5; 7] 5 Hrun Hin))).
Defined.

Lemma search_mapping_keys_witness :
  search (chars "xa") (Multi [chars "A"; chars "b"; chars "A"]) false "first" None =
    Ret (Some (Mapping [(chars "A", Some [1; 1]); (chars "b", None)])) ∧
  [(chars "A", Some [1; 1]); (chars "b", None)].*1 =
    first_seen [chars "A"; chars "b"; chars "A"].
Proof.
  assert (search (chars "xa") (Multi [chars "A"; chars "b"; chars "A"]) false
            "first" None =
          Ret (Some (Mapping [(chars "A", Some [1; 1]); (chars "b", None)])))
    as Hrun by by vm_compute.
  split; [done|].
  exact (proj1 (search_mapping_keys (chars "xa")
                  [chars "A"; chars "b"; chars "A"] false "first" None _ Hrun)).
Defined.

Lemma search_pattern_order_witness :
  [chars "a"; chars "b"] ≡ₚ [chars "b"; chars "a"] ∧
  ∃ d d',
    search (chars "xab") (Multi [chars "a"; chars "b"]) false "first" None =
      Ret (Mapping <$> dict_or_none d) ∧
    search (chars "xab") (Multi [chars "b"; chars "a"]) false "first" None =
      Ret (Mapping <$> dict_or_none d') ∧
    ∀ q, dict_get q d = dict_get q d'.
Proof.
  assert ([chars "a"; chars "b"] ≡ₚ [chars "b"; chars "a"]) as Hperm
    by apply Permutation_swap.
  split; [done|].
  destruct (search_pattern_order (chars "xab") [chars "a"; chars "b"]
              [chars "b"; chars "a"] false "first" Hperm)
    as (d & d' & Hrun & Hrun' & Hsame & _).
  by exists d, d'.
Defined.

Lemma bad_char_shift_skips_nothing_witness :
  0 ≤ 0 ∧ 0 ≤ 2 < len (chars "abd") ∧
  zget (chars "abcabd") (0 + 2) = Some "c"%char ∧
  ∃ bad_char,
    bad_char_table (chars "abd") = Ret bad_char ∧
    ∀ s, 0 < s < 0 + Z.max 1 (2 - dict_get_default "c"%char (-1) bad_char) →
         ¬ occurs_at (chars "abcabd") (chars "abd") s.
Proof.
  assert (0 ≤ 0) as Hshift by lia.
  assert (0 ≤ 2 < len (chars "abd")) as Hj by (unfold len; simpl; lia).
  assert (zget (chars "abcabd") (0 + 2) = Some "c"%char) as Hc by by vm_compute.
  do 3 (split; [done|]).
  destruct (bad_char_shift_skips_nothing (chars "abcabd") (chars "abd") 0 2
              "c"%char Hshift Hj Hc) as (bad_char & Hrun & _ & Hskip).
  by exists bad_char.
Defined.

Lemma horspool_shift_skips_nothing_witness :
  chars "abd" ≠ [] ∧ 0 ≤ 0 ∧
  zget (chars "abcabd") (0 + len (chars "abd") - 1) = Some "c"%char ∧
  ∃ skip,
    horspool_skip_table (chars "abd") = Ret skip ∧
    ∀ s, 0 < s < 0 + dict_get_default "c"%char (len (chars "abd")) skip →
         ¬ occurs_at (chars "abcabd") (chars "abd") s.
Proof.
  assert (chars "abd" ≠ []) as Hne by by vm_compute.
  assert (0 ≤ 0) as Hi by lia.
  assert (zget (chars "abcabd") (0 + len (chars "abd") - 1) = Some "c"%char)
    as Hc by by vm_compute.
  do 3 (split; [done|]).
  destruct (horspool_shift_skips_nothing (chars "abcabd") (chars "abd") 0
              "c"%char Hne Hi Hc) as (skip & Hrun & _ & Hskip).
  by exists skip.
Defined.

Lemma compute_lps_grows_by_one_witness :
  chars "aabaaab" ≠ [] ∧
  ∃ table,
    compute_lps (chars "aabaaab") = Ret table ∧
    ∀ (i : nat) b b',
      table !! i = Some b → table !! S i = Some b' → b' ≤ b + 1.
Proof.
  assert (chars "aabaaab" ≠ []) as Hne by by vm_compute.
  split; [done|].
  exact (compute_lps_grows_by_one (chars "aabaaab") Hne).
Defined.

Lemma search_key_as_single_witness :
  search (chars "xab") (Multi [chars "A"; chars "c"]) false "first" None =
    Ret (Some (Mapping [(chars "A", Some [1]); (chars "c", None)])) ∧
  chars "A" ∈ [chars "A"; chars "c"] ∧
  (multiplicity (fold_case false (chars "A"))
     (fold_patterns false [chars "A"; chars "c"]) ≤ 1)%nat ∧
  ∃ o,
    dict_get (chars "A") [(chars "A", Some [1]); (chars "c", None)] = Some o ∧
    search (chars "xab") (Single (chars "A")) false "first" None =
      Ret (Positions <$> o).
Proof.
  assert (search (chars "xab") (Multi [chars "A"; chars "c"]) false "first" None =
          Ret (Some (Mapping [(chars "A", Some [1]); (chars "c", None)])))
    as Hrun by by vm_compute.
  assert (chars "A" ∈ [chars "A"; chars "c"]) as Hin by left.
  assert (multiplicity (fold_case false (chars "A"))
            (fold_patterns false [chars "A"; chars "c"]) ≤ 1)%nat as Hmult
    by (vm_compute; lia).
  do 3 (split; [done|]).
  exact (search_key_as_single (chars "xab") [chars "A"; chars "c"] false "first"
           _ (chars "A") Hrun Hin Hmult).
Defined.

Lemma highlight_keeps_text_witness :
  [(code_points "aba", Some [0; 5; 7]); (code_points "bb", Some [3])] ≠ [] ∧
  ∃ pieces,
    highlight_matches (code_points "ababbababa")
      [(code_points "aba", Some [0; 5; 7]); (code_points "bb", Some [3])] 10 =
      Ret (limit_lines (render pieces) 10) ∧
    plain pieces = code_points "ababbababa".
Proof.
  assert ([(code_points "aba", Some [0; 5; 7]); (code_points "bb", Some [3])] ≠ [])
    as Hne by done.
  split; [done|].
  destruct (highlight_keeps_text (code_points "ababbababa")
              [(code_points "aba", Some [0; 5; 7]); (code_points "bb", Some [3])]
              10 Hne) as (pieces & Hrun & Hplain & _).
  by exists pieces.
Defined.

Lemma limit_lines_short_witness :
  len (split_on 10 [97; 10; 98; 10]) ≤ 3 ∧
  limit_lines [97; 10; 98; 10] 3 = [97; 10; 98; 10].
Proof.
  assert (len (split_on 10 [97; 10; 98; 10]) ≤ 3) as Hle by by vm_compute.
  split; [done|]. exact (limit_lines_short [97; 10; 98; 10] 3 Hle).
Defined.

Lemma limit_lines_cut_witness :
  len (split_on 10 [97; 32; 98; 10; 99; 10; 100]) > 2 ∧
  split_on 10 (limit_lines [97; 32; 98; 10; 99; 10; 100] 2) =
    [[97; 32; 98]; [99]; shown_note 2 4].
Proof.
  assert (len (split_on 10 [97; 32; 98; 10; 99; 10; 100]) > 2) as Hgt
    by by vm_compute.
  split; [done|].
  exact (limit_lines_cut [97; 32; 98; 10; 99; 10; 100] 2 Hgt).
Defined.

Lemma highlight_skips_unmatched_witness :
  [(code_points "aba", Some [0; 5; 7]); (code_points "c", None)] ≠ [] ∧
  highlight_matches (code_points "ababbababa")
    [(code_points "aba", Some [0; 5; 7]); (code_points "c", None)] 10 =
  highlight_matches (code_points "ababbababa")
    [(code_points "aba", Some [0; 5; 7])] 10.
Proof.
  assert ([(code_points "aba", Some [0; 5; 7]); (code_points "c", None)] ≠ [])
    as Hne by done.
  split; [done|].
  exact (highlight_skips_unmatched (code_points "ababbababa")
           [(code_points "aba", Some [0; 5; 7]); (code_points "c", None)] 10 Hne).
Defined.

Lemma highlight_of_search_witness :
  @search Z code_point_alphabet code_point_set_order (code_points "ababbababa")
    (Multi [code_points "aba"; code_points "bb"]) true "first" None =
    Ret (Some (Mapping [(code_points "aba", Some [0; 5; 7]);
                        (code_points "bb", Some [3])])) ∧
  ∃ pieces,
    highlight_matches (code_points "ababbababa")
      [(code_points "aba", Some [0; 5; 7]); (code_points "bb", Some [3])] 10 =
      Ret (limit_lines (render pieces) 10) ∧
    plain pieces = code_points "ababbababa" ∧
    (∃ color s, (Some color, s) ∈ pieces) ∧
    ∀ color s, (Some color, s) ∈ pieces →
               color ∈ Colors.COLORS ∧
               s ∈ [code_points "aba"; code_points "bb"].
Proof.
  assert (@search Z code_point_alphabet code_point_set_order
            (code_points "ababbababa")
            (Multi [code_points "aba"; code_points "bb"]) true "first" None =
          Ret (Some (Mapping [(code_points "aba", Some [0; 5; 7]);
                              (code_points "bb", Some [3])]))) as Hrun
    by by vm_compute.
  split; [done|].
  exact (proj2 (@highlight_of_search code_point_alphabet code_point_set_order
                  (code_points "ababbababa") "first" None 10) _ _ Hrun).
Defined.
